(** * async-array: a shallow embedding of the chain-execution engine

    The engine of [index.js] is reactive: it calls out to user code (the
    per-element worker of a step, the completion callbacks of a step) and
    is called back through continuations.  The embedding is an explicit
    state machine:

    - the JavaScript heap is a store of arrays addressed by reference, so
      that the aliasing between a step's result container, the object
      handed to the completion callbacks and the next step's input is the
      one of the source;
    - the two loops of the source that call out to user code
      ([Array.prototype.forEach] in [Step.prototype.run], the callback
      loop of [Step.prototype.done]) are frames of an explicit stack, one
      iteration per [tick], so that a worker or a callback may call a
      continuation synchronously, in the middle of the loop;
    - everything the engine does to user code is recorded in a trace. *)

From stdpp Require Import base list strings sorting.
From Stdlib Require Import ZArith Lia.

Local Open Scope Z_scope.
Local Open Scope nat_scope.

(** ** JavaScript values and arrays *)

(** The values a sequence can hold and a continuation can be given.
    Numbers are integers (no NaN, no fractions); functions and Error
    objects are opaque and named. *)
Inductive value :=
| VUndefined
| VNull
| VBool (b : bool)
| VNum (z : Z)
| VStr (s : string)
| VFun (f : string)
| VError (msg : string).

#[global] Instance value_eq_dec : EqDecision value.
Proof. solve_decision. Defined.

(** [if (v)] *)
Definition truthy (v : value) : bool :=
  match v with
  | VUndefined | VNull => false
  | VBool b => b
  | VNum z => negb (z =? 0)%Z
  | VStr s => negb (String.eqb s "")
  | VFun _ | VError _ => true
  end.

(** [v === true] *)
Definition is_true (v : value) : bool :=
  match v with
  | VBool true => true
  | _ => false
  end.

(** A JavaScript array: [None] is a hole (an index below [length] that
    holds no property), which reads as [undefined] and which
    [Array.prototype.forEach] skips. *)
Abbreviation jsarray := (list (option value)).

(** [a[i]] *)
Definition aget (a : jsarray) (i : nat) : value :=
  match a !! i with
  | Some (Some v) => v
  | _ => VUndefined
  end.

(** [i in a] *)
Definition ahas (a : jsarray) (i : nat) : bool :=
  match a !! i with
  | Some (Some _) => true
  | _ => false
  end.

(** [a[i] = v]: a write past the end extends the array with holes. *)
Definition aset (a : jsarray) (i : nat) (v : value) : jsarray :=
  if decide (i < length a) then <[i := Some v]> a
  else a ++ replicate (i - length a) None ++ [Some v].

(** [o[i] = v] on an AsyncArray.  [new AsyncArray(arr)] is an ordinary
    object that inherits from [Array.prototype] ([Array.call(this)] makes
    an array of its own and leaves [this] alone), and its [length] is the
    property that [push] keeps.  A write below [length] replaces the
    element; a write at or past [length] adds a property that [length],
    [forEach], [push] and [apply] do not see: the elements are as they
    were. *)
Definition oset (a : jsarray) (i : nat) (v : value) : jsarray :=
  <[i := Some v]> a.

(** [a.push(v)] *)
Definition apush (a : jsarray) (v : value) : jsarray := a ++ [Some v].

(** [a[k]] for a key that is a value: only the non-negative numbers are
    indices; the other keys name no element of an array. *)
Definition aprop (a : jsarray) (k : value) : value :=
  match k with
  | VNum z => if (0 <=? z)%Z then aget a (Z.to_nat z) else VUndefined
  | _ => VUndefined
  end.

(** The arguments [Function.prototype.apply] reads off an array: every
    index below [length], a hole giving [undefined]. *)
Definition arguments_of (a : jsarray) : list value :=
  map (default VUndefined) a.

(** [new AsyncArray(arr)]: [Array.call(this)], then
    [if (arr) this.push.apply(this, arr)]. *)
Definition AsyncArray (arr : option jsarray) : jsarray :=
  match arr with
  | Some a => foldl apush [] (arguments_of a)
  | None => []
  end.

(** The numeric reading of a value, for the subtraction of [SORTFN].
    The comparator is only ever applied to the indices [Filter.next] has
    pushed, which are numbers; the reading of the other values stands for
    a coercion the model does not have (NaN). *)
Definition ToNumber (v : value) : Z :=
  match v with
  | VNum z => z
  | VBool true => 1%Z
  | _ => 0%Z
  end.

(** [Array.prototype.sort(comparefn)]: the values other than [undefined]
    in the order of the comparator, then the [undefined]s, then the holes.
    The order is produced by insertion. *)
Fixpoint sort_insert (comparefn : value -> value -> Z) (x : value) (l : list value)
  : list value :=
  match l with
  | [] => [x]
  | y :: l' =>
      if decide (comparefn x y <= 0)%Z then x :: y :: l'
      else y :: sort_insert comparefn x l'
  end.

Definition sort_values (comparefn : value -> value -> Z) (l : list value) : list value :=
  foldr (sort_insert comparefn) [] l.

Definition asort (comparefn : value -> value -> Z) (a : jsarray) : jsarray :=
  let defined := omap (fun o => match o with
                                | Some VUndefined | None => None
                                | Some v => Some v
                                end) a in
  let undefineds := filter (fun o => o = Some VUndefined) a in
  let holes := filter (fun o => o = None) a in
  map Some (sort_values comparefn defined) ++ undefineds ++ holes.

(** ** The chain: Operation and Step *)

(** The prototype of a step object: [Step.prototype] itself (for-each),
    or one of the two that inherit from it. *)
Inductive proto := StepProto | MapProto | FilterProto.

#[global] Instance proto_eq_dec : EqDecision proto.
Proof. solve_decision. Defined.

(** [function Step (oper, callback, serial)].  The worker [callback] and
    the completion [callbacks] are user functions, known by name.  The
    back-reference [oper] is the one chain of the development. *)
Record Step := mkStep {
  prototype : proto;
  callbacks : list string;
  callback : string;
  serial : bool
}.

(** [new Step(oper, callback, serial)] and its two heirs;
    [this.serial = serial || false]. *)
Definition Step_new (p : proto) (callback : string) (serial : option bool) : Step :=
  {| prototype := p; callbacks := []; callback := callback;
     serial := default false serial |}.

(** [function Operation (array)]: the source array, by reference, and the
    steps. *)
Record Operation := mkOperation {
  array : nat;
  steps : list Step
}.

Definition Operation_new (array : nat) : Operation :=
  {| array := array; steps := [] |}.

(** [this.steps[this.steps.length - 1]] *)
Definition Operation_lastStep (this : Operation) : option Step :=
  match length (steps this) with
  | 0 => None
  | S n => steps this !! n
  end.

Definition push_step (this : Operation) (s : Step) : Operation :=
  {| array := array this; steps := steps this ++ [s] |}.

Definition Operation_forEach (callback : string) (this : Operation) : Operation :=
  push_step this (Step_new StepProto callback None).
Definition Operation_forEachSerial (callback : string) (this : Operation) : Operation :=
  push_step this (Step_new StepProto callback (Some true)).
Definition Operation_map (callback : string) (this : Operation) : Operation :=
  push_step this (Step_new MapProto callback None).
Definition Operation_mapSerial (callback : string) (this : Operation) : Operation :=
  push_step this (Step_new MapProto callback (Some true)).
Definition Operation_filter (callback : string) (this : Operation) : Operation :=
  push_step this (Step_new FilterProto callback None).
Definition Operation_filterSerial (callback : string) (this : Operation) : Operation :=
  push_step this (Step_new FilterProto callback (Some true)).

(** [Operation.prototype.done]: [this.lastStep().callbacks.push(callback)];
    with no step yet, [lastStep()] is [undefined] and the call throws. *)
Definition Operation_done (cb : string) (this : Operation) : option Operation :=
  match Operation_lastStep this with
  | None => None
  | Some s =>
      let s' := {| prototype := prototype s; callbacks := callbacks s ++ [cb];
                   callback := callback s; serial := serial s |} in
      Some {| array := array this;
              steps := <[length (steps this) - 1 := s']> (steps this) |}
  end.

(** ** The run-time objects *)

(** [function OperState (oper)]: the index of the running step. *)
Record OperState := mkOperState {
  index : nat
}.

(** The two closures [Step.prototype.run] makes: the one continuation of
    a serial step, [state.serialfn], and the continuation of element [i]
    of a parallel step.  Both close over the run-time state of the step. *)
Inductive cont :=
| Serialfn (state : nat)
| Each (state : nat) (i : nat).

#[global] Instance cont_eq_dec : EqDecision cont.
Proof. solve_decision. Defined.

(** [function StepState (step, oper_state, array, result)].  [oper_state]
    is a reference to an [OperState], [input] (the field [array] of the
    source) and [result] are references to arrays. *)
Record StepState := mkStepState {
  step : Step;
  oper_state : nat;
  input : nat;
  result : nat;
  count : nat;
  done : bool;
  serialfn : option cont
}.

(** What the engine does to user code, and what user code does to the
    engine.  [state] tells on behalf of which step run the call is made. *)
Inductive event :=
| Worker (state : nat) (f : string) (item : value) (i : nat) (next : option cont)
| Callback (state : nat) (f : string) (error : value) (results : nat) (contents : jsarray)
| Called (k : cont) (error data : value).

(** The loops of the engine that are suspended in a call to user code. *)
Inductive frame :=
| ForEachLoop (step : Step) (state : nat) (array : nat) (i len : nat)
| DoneLoop (this : Step) (error : value) (state : nat) (i il : nat).

Record machine := mkMachine {
  heap : list jsarray;
  opers : list OperState;
  states : list StepState;
  stack : list frame;
  trace : list event
}.

Definition set_heap (h : list jsarray) (m : machine) : machine :=
  {| heap := h; opers := opers m; states := states m; stack := stack m; trace := trace m |}.
Definition set_opers (o : list OperState) (m : machine) : machine :=
  {| heap := heap m; opers := o; states := states m; stack := stack m; trace := trace m |}.
Definition set_states (s : list StepState) (m : machine) : machine :=
  {| heap := heap m; opers := opers m; states := s; stack := stack m; trace := trace m |}.
Definition set_stack (k : list frame) (m : machine) : machine :=
  {| heap := heap m; opers := opers m; states := states m; stack := k; trace := trace m |}.
Definition emit (e : event) (m : machine) : machine :=
  {| heap := heap m; opers := opers m; states := states m; stack := stack m;
     trace := trace m ++ [e] |}.

(** A new array object. *)
Definition alloc (a : jsarray) (m : machine) : nat * machine :=
  (length (heap m), set_heap (heap m ++ [a]) m).

(** The contents of the array at [r] (none at a reference that is not
    allocated). *)
Definition contents (r : nat) (m : machine) : jsarray :=
  default [] (heap m !! r).

Definition store (r : nat) (a : jsarray) (m : machine) : machine :=
  set_heap (<[r := a]> (heap m)) m.

Definition with_result (r : nat) (st : StepState) : StepState :=
  {| step := step st; oper_state := oper_state st; input := input st; result := r;
     count := count st; done := done st; serialfn := serialfn st |}.
Definition with_count (n : nat) (st : StepState) : StepState :=
  {| step := step st; oper_state := oper_state st; input := input st; result := result st;
     count := n; done := done st; serialfn := serialfn st |}.
Definition with_done (b : bool) (st : StepState) : StepState :=
  {| step := step st; oper_state := oper_state st; input := input st; result := result st;
     count := count st; done := b; serialfn := serialfn st |}.
Definition with_serialfn (k : option cont) (st : StepState) : StepState :=
  {| step := step st; oper_state := oper_state st; input := input st; result := result st;
     count := count st; done := done st; serialfn := k |}.

(** An assignment to a field of the state object at [state]. *)
Definition update (state : nat) (f : StepState -> StepState) (m : machine) : machine :=
  set_states (alter f state (states m)) m.

(** [new StepState(step, oper_state, array, result)];
    [this.result = result || array], an array being truthy. *)
Definition StepState_new (step : Step) (oper_state array : nat) (result : option nat)
    (m : machine) : nat * machine :=
  let st := {| step := step; oper_state := oper_state; input := array;
               result := default array result;
               count := 0; done := false; serialfn := None |} in
  (length (states m), set_states (states m ++ [st]) m).

(** [new OperState(oper)] *)
Definition OperState_new (m : machine) : nat * machine :=
  (length (opers m), set_opers (opers m ++ [{| index := 0 |}]) m).

(** ** The engine *)

Section Engine.

(** The chain under execution; every [this.oper] and every
    [state.oper] of the source is this one object. *)
Variable oper : Operation.

(** [Step.prototype.run].  The loop of the parallel branch is left on the
    stack, its length read once as [Array.prototype.forEach] does. *)
Definition Step_run (this : Step) (oper_state array : nat) (m : machine) : machine :=
  let '(r, m) := alloc [] m in
  let '(state, m) := StepState_new this oper_state array (Some r) m in
  if serial this then
    let m := update state (with_serialfn (Some (Serialfn state))) m in
    emit (Worker state (callback this) (aget (contents array m) 0) 0
            (Some (Serialfn state))) m
  else
    set_stack (ForEachLoop this state array 0 (length (contents array m)) :: stack m) m.

(** [Operation.prototype._next] *)
Definition Operation__next (state : nat) (error : value) (result : nat) (m : machine)
  : machine :=
  if truthy error then m
  else
    let m := set_opers (alter (fun s => {| index := S (index s) |}) state (opers m)) m in
    match opers m !! state with
    | None => m
    | Some s =>
        match steps oper !! index s with
        | Some next => Step_run next state result m
        | None => m
        end
    end.

(** [Step.prototype.done]: the result is wrapped, and the loop over the
    callbacks, which [_next] follows, is left on the stack. *)
Definition Step_done (this : Step) (error : value) (state : nat) (m : machine) : machine :=
  match states m !! state with
  | None => m
  | Some st =>
      let '(r, m) := alloc (AsyncArray (Some (contents (result st) m))) m in
      let m := update state (with_result r) m in
      set_stack (DoneLoop this error state 0 (length (callbacks this)) :: stack m) m
  end.

(** [Filter.SORTFN] *)
Definition SORTFN (a b : value) : Z := (ToNumber a - ToNumber b)%Z.

(** [Filter.prototype.done].  [sort] works in place, on the array the
    indices were pushed to; the contents go to a new array. *)
Definition Filter_done (this : Step) (error : value) (state : nat) (m : machine) : machine :=
  let m :=
    if negb (truthy error) && negb (serial this) then
      match states m !! state with
      | None => m
      | Some st =>
          let sorted := asort SORTFN (contents (result st) m) in
          let m := store (result st) sorted m in
          let '(r, m) := alloc [] m in
          let m := update state (with_result r) m in
          let array := contents (input st) m in
          store r (foldl (fun acc i => apush acc (aprop array (aget sorted i)))
                     [] (seq 0 (length sorted))) m
      end
    else m in
  Step_done this error state m.

(** [this.done(error, state)]: the method of the step's prototype. *)
Definition this_done (this : Step) : value -> nat -> machine -> machine :=
  match prototype this with
  | FilterProto => Filter_done this
  | _ => Step_done this
  end.

(** [Step.prototype.next] *)
Definition Step_next (this : Step) (state i : nat) (error data : value) (m : machine)
  : machine :=
  match states m !! state with
  | None => m
  | Some st =>
      if done st then m
      else if truthy error then
        this_done this error state (update state (with_done true) m)
      else
        let n := S (count st) in
        let m := update state (with_count n) m in
        let array := contents (input st) m in
        if serial this then
          if decide (length array <= n) then
            this_done this VNull state (update state (with_done true) m)
          else
            emit (Worker state (callback this) (aget array n) n (serialfn st)) m
        else if decide (length array <= n) then
          this_done this VNull state (update state (with_done true) m)
        else m
  end.

(** [Map.prototype.next].  [state.result] is the array [Step.prototype.run]
    has made until the step is done, and from then on the AsyncArray
    [Step.prototype.done] has put in its place. *)
Definition Map_next (this : Step) (state i : nat) (error data : value) (m : machine)
  : machine :=
  match states m !! state with
  | None => m
  | Some st =>
      let write := if done st then oset else aset in
      let m := store (result st) (write (contents (result st) m) i data) m in
      Step_next this state i error data m
  end.

(** [Filter.prototype.next] *)
Definition Filter_next (this : Step) (state i : nat) (error data : value) (m : machine)
  : machine :=
  match states m !! state with
  | None => m
  | Some st =>
      let m :=
        if is_true data
        then store (result st) (apush (contents (result st) m) (VNum (Z.of_nat i))) m
        else m in
      Step_next this state i error data m
  end.

(** [step.next(state, i, error, data)]: the method of the step's
    prototype. *)
Definition this_next (this : Step) : nat -> nat -> value -> value -> machine -> machine :=
  match prototype this with
  | StepProto => Step_next this
  | MapProto => Map_next this
  | FilterProto => Filter_next this
  end.

(** A call of a continuation by user code.  [step] is the step that made
    the closure, which is the one its state records. *)
Definition call (k : cont) (error data : value) (m : machine) : machine :=
  match k with
  | Serialfn state =>
      match states m !! state with
      | None => m
      | Some st => this_next (step st) state (count st) error data m
      end
  | Each state i =>
      match states m !! state with
      | None => m
      | Some st => this_next (step st) state i error data m
      end
  end.

(** One iteration of the loop on top of the stack: the next element of a
    [forEach] (a hole is passed over), or the next completion callback of
    a [done], with [this.oper._next] once the callbacks are through. *)
Definition tick (m : machine) : machine :=
  match stack m with
  | [] => m
  | ForEachLoop step state array i len :: rest =>
      if decide (i < len) then
        let m := set_stack (ForEachLoop step state array (S i) len :: rest) m in
        if ahas (contents array m) i then
          emit (Worker state (callback step) (aget (contents array m) i) i
                  (Some (Each state i))) m
        else m
      else set_stack rest m
  | DoneLoop this error state i il :: rest =>
      match states m !! state with
      | None => set_stack rest m
      | Some st =>
          if decide (i < il) then
            let m := set_stack (DoneLoop this error state (S i) il :: rest) m in
            match callbacks this !! i with
            | Some f => emit (Callback state f error (result st) (contents (result st) m)) m
            | None => m
            end
          else Operation__next (oper_state st) error (result st) (set_stack rest m)
      end
  end.

(** [Operation.prototype.exec]: the function has no parameter and does
    not read [arguments].  With no step, [this.steps[0].run] throws. *)
Definition Operation_exec (arguments : list value) (m : machine) : option machine :=
  let '(state, m) := OperState_new m in
  match steps oper !! 0 with
  | Some first => Some (Step_run first state (array oper) m)
  | None => None
  end.

(** What can happen to the engine: user code starts the chain, user code
    calls a continuation, or the loop on top of the stack goes on.  The
    exception of an empty chain is the caller's; the engine is left as it
    was. *)
Inductive action :=
| Exec (arguments : list value)
| Call (k : cont) (error data : value)
| Tick.

Definition react (m : machine) (a : action) : machine :=
  match a with
  | Exec arguments => default m (Operation_exec arguments m)
  | Call k error data => call k error data (emit (Called k error data) m)
  | Tick => tick m
  end.

Definition play (schedule : list action) (m : machine) : machine :=
  foldl react m schedule.

End Engine.

(** The engine before anything has run: the source array is the one
    object of the heap. *)
Definition boot (source : jsarray) : machine :=
  {| heap := [source]; opers := []; states := []; stack := []; trace := [] |}.

(** [new AsyncArray(arr)] for the source: the array at reference [0]. *)
Definition items (arr : list value) : jsarray := AsyncArray (Some (map Some arr)).


(** ** The engine as a transition system

    The same engine, one case per path through [react], with the machine
    after the reaction written out.  [react_transition] below proves that
    [react] takes these transitions and no other; the invariants are
    proved on them. *)

(** The state a continuation is about, and the index it reports. *)
Definition target (k : cont) (m : machine) : option (nat * nat * StepState) :=
  match k with
  | Serialfn state => st ← states m !! state; Some (state, count st, st)
  | Each state i => st ← states m !! state; Some (state, i, st)
  end.

(** The heap after the write [Map.prototype.next] or
    [Filter.prototype.next] does before it delegates. *)
Definition written (st : StepState) (i : nat) (data : value) (h : list jsarray)
  : list jsarray :=
  match prototype (step st) with
  | StepProto => h
  | MapProto =>
      <[result st := (if done st then oset else aset) (default [] (h !! result st)) i data]> h
  | FilterProto =>
      if is_true data
      then <[result st := apush (default [] (h !! result st)) (VNum (Z.of_nat i))]> h
      else h
  end.

(** The contents [Filter.prototype.done] picks: those of [array] at the
    keys of [sorted]. *)
Definition picked (array sorted : jsarray) : jsarray :=
  map (fun o => Some (aprop array (default VUndefined o))) sorted.

(** The heap after [this.done(error, state)] and the reference of the
    wrapped result. *)
Definition finished (st : StepState) (error : value) (h : list jsarray)
  : list jsarray * nat :=
  if decide (prototype (step st) = FilterProto ∧ truthy error = false
             ∧ serial (step st) = false) then
    let sorted := asort SORTFN (default [] (h !! result st)) in
    let h1 := <[result st := sorted]> h in
    let elems := picked (default [] (h1 !! input st)) sorted in
    (h1 ++ [elems; AsyncArray (Some elems)], S (length h))
  else
    (h ++ [AsyncArray (Some (default [] (h !! result st)))], length h).

Definition fresh_state (this : Step) (oper_state array r state : nat) : StepState :=
  {| step := this; oper_state := oper_state; input := array; result := r;
     count := 0; done := false;
     serialfn := if serial this then Some (Serialfn state) else None |}.

(** The machine after [this.run(oper_state, array)]. *)
Definition started (this : Step) (oper_state array : nat) (m : machine) : machine :=
  let state := length (states m) in
  {| heap := heap m ++ [[]];
     opers := opers m;
     states := states m ++ [fresh_state this oper_state array (length (heap m)) state];
     stack :=
       if serial this then stack m
       else ForEachLoop this state array 0 (length (contents array m)) :: stack m;
     trace :=
       if serial this
       then trace m ++ [Worker state (callback this) (aget (contents array m) 0) 0
                          (Some (Serialfn state))]
       else trace m |}.

Section Transitions.

Variable oper : Operation.

Inductive transition (m : machine) : action -> machine -> Prop :=
| exec_empty arguments :
    steps oper !! 0 = None ->
    transition m (Exec arguments) m
| exec_first arguments first :
    steps oper !! 0 = Some first ->
    transition m (Exec arguments)
      (started first (length (opers m)) (array oper)
         (set_opers (opers m ++ [{| index := 0 |}]) m))
| call_unknown k error data :
    target k m = None ->
    transition m (Call k error data) (emit (Called k error data) m)
| call_late k error data state i st :
    target k m = Some (state, i, st) ->
    done st = true ->
    transition m (Call k error data)
      {| heap := written st i data (heap m); opers := opers m; states := states m;
         stack := stack m; trace := trace m ++ [Called k error data] |}
| call_error k error data state i st :
    target k m = Some (state, i, st) ->
    done st = false ->
    truthy error = true ->
    let h := written st i data (heap m) in
    transition m (Call k error data)
      {| heap := h ++ [AsyncArray (Some (default [] (h !! result st)))];
         opers := opers m;
         states := <[state := with_result (length h) (with_done true st)]> (states m);
         stack := DoneLoop (step st) error state 0 (length (callbacks (step st)))
                    :: stack m;
         trace := trace m ++ [Called k error data] |}
| call_more k error data state i st :
    target k m = Some (state, i, st) ->
    done st = false ->
    truthy error = false ->
    let h := written st i data (heap m) in
    let array := default [] (h !! input st) in
    S (count st) < length array ->
    transition m (Call k error data)
      {| heap := h; opers := opers m;
         states := <[state := with_count (S (count st)) st]> (states m);
         stack := stack m;
         trace := trace m ++ Called k error data ::
                    if serial (step st)
                    then [Worker state (callback (step st)) (aget array (S (count st)))
                            (S (count st)) (serialfn st)]
                    else [] |}
| call_last k error data state i st :
    target k m = Some (state, i, st) ->
    done st = false ->
    truthy error = false ->
    let h := written st i data (heap m) in
    length (default [] (h !! input st)) <= S (count st) ->
    transition m (Call k error data)
      {| heap := (finished st VNull h).1; opers := opers m;
         states := <[state := with_result (finished st VNull h).2
                                (with_done true (with_count (S (count st)) st))]>
                     (states m);
         stack := DoneLoop (step st) VNull state 0 (length (callbacks (step st)))
                    :: stack m;
         trace := trace m ++ [Called k error data] |}
| tick_idle :
    stack m = [] ->
    transition m Tick m
| tick_each_visit s state array i len rest v :
    stack m = ForEachLoop s state array i len :: rest ->
    i < len ->
    contents array m !! i = Some (Some v) ->
    transition m Tick
      {| heap := heap m; opers := opers m; states := states m;
         stack := ForEachLoop s state array (S i) len :: rest;
         trace := trace m ++ [Worker state (callback s) v i (Some (Each state i))] |}
| tick_each_hole s state array i len rest :
    stack m = ForEachLoop s state array i len :: rest ->
    i < len ->
    ahas (contents array m) i = false ->
    transition m Tick (set_stack (ForEachLoop s state array (S i) len :: rest) m)
| tick_each_end s state array i len rest :
    stack m = ForEachLoop s state array i len :: rest ->
    len <= i ->
    transition m Tick (set_stack rest m)
| tick_done_unknown this error state i il rest :
    stack m = DoneLoop this error state i il :: rest ->
    states m !! state = None ->
    transition m Tick (set_stack rest m)
| tick_done_callback this error state i il rest st f :
    stack m = DoneLoop this error state i il :: rest ->
    states m !! state = Some st ->
    i < il ->
    callbacks this !! i = Some f ->
    transition m Tick
      {| heap := heap m; opers := opers m; states := states m;
         stack := DoneLoop this error state (S i) il :: rest;
         trace := trace m ++ [Callback state f error (result st)
                                (contents (result st) m)] |}
| tick_done_skip this error state i il rest st :
    stack m = DoneLoop this error state i il :: rest ->
    states m !! state = Some st ->
    i < il ->
    callbacks this !! i = None ->
    transition m Tick (set_stack (DoneLoop this error state (S i) il :: rest) m)
| tick_done_halt this error state i il rest st :
    stack m = DoneLoop this error state i il :: rest ->
    states m !! state = Some st ->
    il <= i ->
    truthy error = true ->
    transition m Tick (set_stack rest m)
| tick_done_stray this error state i il rest st :
    stack m = DoneLoop this error state i il :: rest ->
    states m !! state = Some st ->
    il <= i ->
    truthy error = false ->
    opers m !! oper_state st = None ->
    transition m Tick (set_stack rest m)
| tick_done_finished this error state i il rest st os :
    stack m = DoneLoop this error state i il :: rest ->
    states m !! state = Some st ->
    il <= i ->
    truthy error = false ->
    opers m !! oper_state st = Some os ->
    steps oper !! S (index os) = None ->
    transition m Tick
      {| heap := heap m;
         opers := <[oper_state st := {| index := S (index os) |}]> (opers m);
         states := states m; stack := rest; trace := trace m |}
| tick_done_next this error state i il rest st os next :
    stack m = DoneLoop this error state i il :: rest ->
    states m !! state = Some st ->
    il <= i ->
    truthy error = false ->
    opers m !! oper_state st = Some os ->
    steps oper !! S (index os) = Some next ->
    transition m Tick
      (started next (oper_state st) (result st)
         {| heap := heap m;
            opers := <[oper_state st := {| index := S (index os) |}]> (opers m);
            states := states m; stack := rest; trace := trace m |}).

End Transitions.

(** ** Invariants of the engine *)

(** How a machine can have grown out of another: what is written once in
    a step state stays, and a latched state is not touched again. *)
Definition evolves (m m' : machine) : Prop :=
  length (opers m) <= length (opers m') ∧
  ∀ state st, states m !! state = Some st ->
    ∃ st', states m' !! state = Some st' ∧ step st' = step st
           ∧ oper_state st' = oper_state st ∧ input st' = input st
           ∧ (done st = true -> st' = st).

Definition state_ok (oper : Operation) (m : machine) (st : StepState) : Prop :=
  oper_state st < length (opers m) ∧ step st ∈ steps oper.

(** A suspended loop belongs to a state of the machine: a [forEach] to a
    parallel step, a callback loop to a latched state. *)
Definition frame_ok (m : machine) (f : frame) : Prop :=
  match f with
  | ForEachLoop s state _ _ _ =>
      ∃ st, states m !! state = Some st ∧ step st = s ∧ serial s = false
  | DoneLoop this _ state _ il =>
      ∃ st, states m !! state = Some st ∧ step st = this ∧ done st = true
            ∧ il = length (callbacks this)
  end.

(** A call to user code was made for a state of the machine: the worker
    is the step's, a completion callback is one registered on the step and
    is called once the state is latched. *)
Definition event_ok (m : machine) (e : event) : Prop :=
  match e with
  | Worker state f _ _ _ =>
      ∃ st, states m !! state = Some st ∧ f = callback (step st)
  | Callback state f _ _ _ =>
      ∃ st, states m !! state = Some st ∧ done st = true ∧ f ∈ callbacks (step st)
  | Called _ _ _ => True
  end.

Record wf (oper : Operation) (m : machine) : Prop := mk_wf {
  wf_states : Forall (state_ok oper m) (states m);
  wf_stack : Forall (frame_ok m) (stack m);
  wf_trace : Forall (event_ok m) (trace m)
}.

(** The run (the [OperState]) a state belongs to. *)
Definition run_of (m : machine) (state : nat) : option nat :=
  oper_state <$> states m !! state.

Definition frame_state (f : frame) : nat :=
  match f with
  | ForEachLoop _ state _ _ _ => state
  | DoneLoop _ _ state _ _ => state
  end.

Definition is_done_loop (f : frame) : bool :=
  match f with
  | DoneLoop _ _ _ _ _ => true
  | ForEachLoop _ _ _ _ _ => false
  end.

(** No two suspended callback loops belong to the same run. *)
Fixpoint loops_apart (m : machine) (k : list frame) : Prop :=
  match k with
  | [] => True
  | f :: rest =>
      (is_done_loop f = true ->
       ∀ g, g ∈ rest -> is_done_loop g = true ->
            run_of m (frame_state g) ≠ run_of m (frame_state f))
      ∧ loops_apart m rest
  end.

(** A run is at one place at a time: in one state that is not latched,
    or in one callback loop. *)
Record one_place (m : machine) : Prop := mk_one_place {
  one_active : ∀ s1 s2 st1 st2,
    states m !! s1 = Some st1 -> states m !! s2 = Some st2 ->
    done st1 = false -> done st2 = false ->
    oper_state st1 = oper_state st2 -> s1 = s2;
  active_apart : ∀ s st f,
    states m !! s = Some st -> done st = false ->
    f ∈ stack m -> is_done_loop f = true ->
    run_of m (frame_state f) ≠ Some (oper_state st);
  stack_apart : loops_apart m (stack m)
}.

(** ** A failed run *)

(** The completion callbacks called on behalf of a state, in order: the
    function, the error and the result object it was given. *)
Definition callback_calls (state : nat) (t : list event) : list (string * value * nat) :=
  omap (fun e => match e with
                 | Callback s f error r _ =>
                     if decide (s = state) then Some (f, error, r) else None
                 | _ => None
                 end) t.

(** How far the callback loop of a state has come, if it is suspended. *)
Fixpoint loop_index (state : nat) (k : list frame) : option nat :=
  match k with
  | [] => None
  | DoneLoop _ _ s i _ :: rest =>
      if decide (s = state) then Some i else loop_index state rest
  | ForEachLoop _ _ _ _ _ :: rest => loop_index state rest
  end.

(** What the callbacks of a step are to be given when the step ends with
    [error] and the wrapped result [r]. *)
Definition expected_calls (this : Step) (error : value) (r : nat)
  : list (string * value * nat) :=
  (fun f => (f, error, r)) <$> callbacks this.

(** The run of [state] has failed there with [error]: [st1] is the
    latched state; [t0] is the trace, [n0] the number of states and [o0]
    the [OperState] of the run when the error came. *)
Record failed (state : nat) (st1 : StepState) (error : value)
    (t0 : list event) (n0 : nat) (o0 : option OperState) (m : machine) : Prop := mk_failed {
  failed_state : states m !! state = Some st1;
  failed_index : opers m !! oper_state st1 = o0;
  failed_latched : done st1 = true;
  failed_error : truthy error = true;
  failed_dead : ∀ s x, states m !! s = Some x -> oper_state x = oper_state st1 ->
                       done x = true ∧ s < n0;
  failed_loops : ∀ f, f ∈ stack m -> is_done_loop f = true ->
                      run_of m (frame_state f) = Some (oper_state st1) ->
                      ∃ i, f = DoneLoop (step st1) error state i
                                 (length (callbacks (step st1)));
  failed_calls : callback_calls state (trace m) =
                 take (default (length (callbacks (step st1)))
                         (loop_index state (stack m)))
                   (expected_calls (step st1) error (result st1));
  failed_others : ∀ s f e r c, Callback s f e r c ∈ trace m ->
                    run_of m s = Some (oper_state st1) ->
                    Callback s f e r c ∈ t0 ∨ s = state
}.


(** ** The order of a serial step *)

Definition cont_state (k : cont) : nat :=
  match k with
  | Serialfn state => state
  | Each state _ => state
  end.

(** The indices the worker of a state was called with, in order. *)
Definition worker_calls (state : nat) (t : list event) : list nat :=
  omap (fun e => match e with
                 | Worker s _ _ i _ => if decide (s = state) then Some i else None
                 | _ => None
                 end) t.

(** How many times a continuation of a state was called. *)
Definition completions (state : nat) (t : list event) : nat :=
  length (omap (fun e => match e with
                         | Called k _ _ =>
                             if decide (cont_state k = state) then Some k else None
                         | _ => None
                         end) t).

(** At no time has the worker been called more than once more than its
    continuation. *)
Definition one_in_flight (state : nat) (t : list event) : Prop :=
  ∀ p, p `prefix_of` t -> length (worker_calls state p) <= S (completions state p).

Record serial_ok (m : machine) (state : nat) (st : StepState) : Prop := mk_serial_ok {
  serial_order :
    worker_calls state (trace m) = seq 0 (length (worker_calls state (trace m)));
  serial_pending :
    done st = false -> length (worker_calls state (trace m)) = S (count st);
  serial_count : length (worker_calls state (trace m)) <= S (count st);
  serial_fired : count st <= completions state (trace m);
  serial_flight : one_in_flight state (trace m);
  serial_bound :
    length (worker_calls state (trace m))
    <= Nat.max 1 (length (contents (input st) m))
}.

Definition serial_inv (m : machine) : Prop :=
  ∀ state st, states m !! state = Some st -> serial (step st) = true ->
              serial_ok m state st.

(** An event that is no call of the worker of the state. *)
Definition no_worker (state : nat) (e : event) : Prop :=
  match e with
  | Worker s _ _ _ _ => s ≠ state
  | _ => True
  end.

(** ** The chains of [test.js] *)

(** [new AsyncArray([1, 2, 'three', 4])] *)
Definition test_items : list value := [VNum 1; VNum 2; VStr "three"; VNum 4].

(** A chain that was built without an exception. *)
Definition built (o : option Operation) : Operation := default (Operation_new 0) o.

(** [items.map(worker).done(log)] *)
Definition map_chain : Operation :=
  built (Operation_done "log" (Operation_map "worker" (Operation_new 0))).

(** [items.filter(worker).done(log)] *)
Definition filter_chain : Operation :=
  built (Operation_done "log" (Operation_filter "worker" (Operation_new 0))).

(** [items.filterSerial(worker).done(log)] *)
Definition filterSerial_chain : Operation :=
  built (Operation_done "log" (Operation_filterSerial "worker" (Operation_new 0))).

(** [items.forEach(worker).done(log)] and its serial twin *)
Definition forEach_chain : Operation :=
  built (Operation_done "log" (Operation_forEach "worker" (Operation_new 0))).
Definition forEachSerial_chain : Operation :=
  built (Operation_done "log" (Operation_forEachSerial "worker" (Operation_new 0))).

(** [items.forEach(worker).done(log).map(worker2).done(log2)] *)
Definition forEach_map_chain : Operation :=
  built (Operation_done "log2" (Operation_map "worker2" forEach_chain)).

Definition map_error : action := Call (Each 0 2) (VError "stupid") VUndefined.

(** A map over [test_items] whose workers answer later and out of order,
    as workers on timers do: the loop of [run] goes through, the last
    element is mapped first, then the string reports its error, and the
    one completion callback is called and the loop left. *)
Definition map_out_of_order : list action :=
  [Exec []; Tick; Tick; Tick; Tick; Tick;
   Call (Each 0 3) VNull (VNum 4);
   Call (Each 0 2) (VError "stupid") VUndefined;
   Tick; Tick].
(** The worker of the first element answers after that. *)
Definition late_first : action := Call (Each 0 0) VNull (VNum 1).

(** A filter over [test_items] whose workers keep every element, the
    continuations called later, in order; the completion callback is
    called and the loop left. *)
Definition filter_keeps_all : list action :=
  [Exec []; Tick; Tick; Tick; Tick; Tick;
   Call (Each 0 0) VNull (VBool true); Call (Each 0 1) VNull (VBool true);
   Call (Each 0 2) VNull (VBool true); Call (Each 0 3) VNull (VBool true);
   Tick; Tick].
(** The worker of the second element calls its continuation once more. *)
Definition late_again : action := Call (Each 0 1) VNull (VBool true).

(** A filter worker that keeps the elements that are no strings, as the
    ones of [test.js] do, the continuation called later. *)
Definition keep_non_strings : list action :=
  [Call (Serialfn 0) VNull (VBool true); Call (Serialfn 0) VNull (VBool true);
   Call (Serialfn 0) VUndefined VUndefined; Call (Serialfn 0) VNull (VBool true)].

(** A worker that succeeds for each of the four elements, with no value,
    the continuations called in the reverse order. *)
Definition all_succeed : list action :=
  [Call (Each 0 3) VNull VUndefined; Call (Each 0 2) VNull VUndefined;
   Call (Each 0 1) VNull VUndefined; Call (Each 0 0) VNull VUndefined].


(** The state of the serial filter when its four elements are through. *)
Definition filterSerial_state : StepState :=
  {| step := {| prototype := FilterProto; callbacks := ["log"]; callback := "worker";
                serial := true |};
     oper_state := 0; input := 0; result := 2; count := 4; done := true;
     serialfn := Some (Serialfn 0) |}.

(** ** A step that completes *)

(** The continuation the worker of a step is handed for element [i]. *)
Definition cont_of (this : Step) (state i : nat) : cont :=
  if serial this then Serialfn state else Each state i.

(** A schedule in which the continuations of a step are called with
    success, once for each index of [order] and in this order, the
    element [i] giving the value [values i]; the loops on the stack turn
    in between as they like (a worker may call its continuation at once,
    or later). *)
Inductive completes (this : Step) (state : nat) (values : nat -> value)
  : list nat -> list action -> Prop :=
| completes_end :
    completes this state values [] []
| completes_tick order schedule :
    completes this state values order schedule ->
    completes this state values order (Tick :: schedule)
| completes_call i error order schedule :
    truthy error = false ->
    completes this state values order schedule ->
    completes this state values (i :: order)
      (Call (cont_of this state i) error (values i) :: schedule).

(** What the completion of element [i] adds to the result container. *)
Definition accumulate (p : proto) (values : nat -> value) (acc : jsarray) (i : nat)
  : jsarray :=
  match p with
  | StepProto => acc
  | MapProto => aset acc i (values i)
  | FilterProto => if is_true (values i) then apush acc (VNum (Z.of_nat i)) else acc
  end.

(** What [this.done(null, state)] makes of the result container [acc]
    of a step over [input]. *)
Definition outcome (this : Step) (input acc : jsarray) : jsarray :=
  if decide (prototype this = FilterProto ∧ serial this = false)
  then AsyncArray (Some (picked input (asort SORTFN acc)))
  else AsyncArray (Some acc).

(** The step at [state] is under way: [cnt] completions have come, the
    result container holds [acc]; none of its callbacks has been called
    and no callback loop of it is pending. *)
Record collecting (this : Step) (arr state : nat) (elems acc : jsarray) (cnt : nat)
    (m : machine) : Prop := mk_collecting {
  collecting_state : ∃ st, states m !! state = Some st ∧ step st = this
                           ∧ input st = arr ∧ count st = cnt ∧ done st = false
                           ∧ result st ≠ arr ∧ heap m !! result st = Some acc;
  collecting_input : heap m !! arr = Some elems;
  collecting_quiet : ∀ f, f ∈ stack m -> is_done_loop f = true -> frame_state f ≠ state;
  collecting_silent : ∀ f e r c, Callback state f e r c ∉ trace m
}.

(** The step at [state] has completed with the result [res]: the state
    is latched, the wrapped result is [res], and the callbacks of the
    step have been called as far as the callback loop has come, each with
    a null error and the result. *)
Record delivered (this : Step) (state : nat) (res : jsarray) (total : nat)
    (m : machine) : Prop := mk_delivered {
  delivered_state : ∃ st, states m !! state = Some st ∧ step st = this
                          ∧ done st = true ∧ count st = total
                          ∧ heap m !! result st = Some res
                          ∧ callback_calls state (trace m)
                            = take (default (length (callbacks this))
                                      (loop_index state (stack m)))
                                (expected_calls this VNull (result st));
  delivered_loop : (∃ i rest, stack m = DoneLoop this VNull state i
                                           (length (callbacks this)) :: rest
                       ∧ ∀ f, f ∈ rest -> is_done_loop f = true -> frame_state f ≠ state)
                   ∨ (∀ f, f ∈ stack m -> is_done_loop f = true -> frame_state f ≠ state);
  delivered_result : ∀ f e r c, Callback state f e r c ∈ trace m -> c = res
}.

(** ** What a filter keeps *)

(** The order [SORTFN] puts its arguments in. *)
Definition sorts_before (a b : value) : Prop := (SORTFN a b <= 0)%Z.

(** An index, as [Filter.prototype.next] pushes it. *)
Definition index_value (i : nat) : value := VNum (Z.of_nat i).

(** The indices below [n] whose continuation was given a second argument
    that is the boolean [true], in ascending order. *)
Definition kept (values : nat -> value) (n : nat) : list nat :=
  filter (fun i => values i = VBool true) (seq 0 n).

(** What a parallel filter step over [elems] hands to its completion
    callbacks when the element [i] has given [values i]: the elements at
    the kept indices. *)
Definition filter_result (elems : jsarray) (values : nat -> value) : jsarray :=
  (fun i => Some (aget elems i)) <$> kept values (length elems).

(** C6 for a parallel filter over the one element [7]
    whose worker calls its continuation with [data]: the element is kept
    exactly when [data] is truthy. *)
Definition kept_when_truthy : Prop :=
  ∀ data,
    callback_calls 0
      (trace (play filter_chain [Exec []; Tick; Call (Each 0 0) VNull data; Tick]
                (boot (items [VNum 7])))) = [("log", VNull, 3)]
    ∧ contents 3 (play filter_chain [Exec []; Tick; Call (Each 0 0) VNull data; Tick]
                    (boot (items [VNum 7])))
      = if truthy data then [Some (VNum 7)] else [].

(** The step of [map_chain] and the step of [filter_chain]. *)
Definition map_step : Step :=
  {| prototype := MapProto; callbacks := ["log"]; callback := "worker"; serial := false |}.
Definition filter_step : Step :=
  {| prototype := FilterProto; callbacks := ["log"]; callback := "worker";
     serial := false |}.

(** The machine in which [exec] runs the first step over [test_items]:
    the source and the new [OperState]. *)
Definition exec_machine : machine := (OperState_new (boot (items test_items))).2.

(** The value the map worker of [test.js] gives for the element [i]:
    ['did ' + i]. *)
Definition did (i : nat) : value :=
  match i with
  | 0 => VStr "did 0"
  | 1 => VStr "did 1"
  | 2 => VStr "did 2"
  | _ => VStr "did 3"
  end.

(** The value the filter worker of [test.js] gives for the element [i]
    of [test_items]: nothing for the string, [true] for the others. *)
Definition non_string (i : nat) : value :=
  match i with
  | 2 => VUndefined
  | _ => VBool true
  end.

(** The four workers are called, the continuations are called in the
    reverse order, and the callback loop turns. *)
Definition map_reversed : list action :=
  [Tick; Tick; Tick; Tick; Tick;
   Call (Each 0 3) VNull (did 3); Call (Each 0 2) VNull (did 2);
   Call (Each 0 1) VNull (did 1); Call (Each 0 0) VNull (did 0);
   Tick; Tick].
Definition filter_reversed : list action :=
  [Tick; Tick; Tick; Tick; Tick;
   Call (Each 0 3) VNull (non_string 3); Call (Each 0 2) VNull (non_string 2);
   Call (Each 0 1) VNull (non_string 1); Call (Each 0 0) VNull (non_string 0);
   Tick; Tick].

(** The runs of a machine write into arrays of their own: the source is
    as it was given, and no state has it as its result. *)
Record source_kept (source : jsarray) (m : machine) : Prop := mk_source_kept {
  source_there : heap m !! 0 = Some source;
  source_apart : ∀ state st, states m !! state = Some st -> 0 < result st
}.

(** ** A run among other runs

    Any number of runs of a chain can be under way at a time: [exec] can
    be called again before the workers of an earlier run have answered,
    or from a worker or a completion callback, while loops of the engine
    are suspended.  The runs share the engine: the states, the arrays
    and the suspended loops of all of them are in the one machine, in
    the order they were made. *)

(** The number of the states of the run [r] among the first [state]
    states: for a state of the run, the name it has when the run is
    looked at alone. *)
Definition rank (r : nat) (m : machine) (state : nat) : nat :=
  length (filter (fun st => oper_state st = r) (take state (states m))).















(** ** The chain while it runs

    [exec] returns the chain, and user code can go on calling [done] and
    the methods that add a step while the chain runs:
    [Operation.prototype._next] reads [this.steps] and
    [Step.prototype.done] reads [this.callbacks] when they are called, not
    when [exec] is.  The engine takes the chain as an argument of each
    reaction, which gives it the steps of the moment.  A [Step] that a
    state or a suspended loop refers to is held there by value, where the
    source has a reference to the one object of the chain: a callback
    that [done] pushes on the last step is therefore pushed on every copy
    of that step. *)

(** The place in the chain of the step that the state at [state] is a
    run of.  A run makes one state for each step it comes to, in the
    order of the chain ([exec] for the first, [_next] for the one after
    the step that is done): the place is the number of states the same
    run has made before. *)
Definition place (m : machine) (state : nat) : option nat :=
  st ← states m !! state; Some (rank (oper_state st) m state).

(** [step.callbacks.push(cb)] *)
Definition push_callback (cb : string) (s : Step) : Step :=
  {| prototype := prototype s; callbacks := callbacks s ++ [cb];
     callback := callback s; serial := serial s |}.

Definition state_push_callback (cb : string) (st : StepState) : StepState :=
  {| step := push_callback cb (step st); oper_state := oper_state st;
     input := input st; result := result st; count := count st; done := done st;
     serialfn := serialfn st |}.

(** The length [il] of a callback loop was read when the loop began. *)
Definition frame_push_callback (cb : string) (f : frame) : frame :=
  match f with
  | ForEachLoop s state array i len => ForEachLoop (push_callback cb s) state array i len
  | DoneLoop this error state i il => DoneLoop (push_callback cb this) error state i il
  end.

(** [Operation.prototype.done] on a chain that may be running.  With no
    step the call throws and nothing is changed. *)
Definition Operation_done_running (cb : string) (oper : Operation) (m : machine)
  : Operation * machine :=
  match Operation_done cb oper with
  | None => (oper, m)
  | Some oper' =>
      let last := length (steps oper) - 1 in
      (oper',
       {| heap := heap m; opers := opers m;
          states := imap (fun state st =>
                            if decide (place m state = Some last)
                            then state_push_callback cb st else st) (states m);
          stack := (fun f => if decide (place m (frame_state f) = Some last)
                             then frame_push_callback cb f else f) <$> stack m;
          trace := trace m |})
  end.

(** What user code can do with a chain: what it can do to the engine,
    register a completion callback, or add a step. *)
Inductive command :=
| Act (a : action)
| Done (cb : string)
| Add (p : proto) (callback : string) (serial : option bool).

Definition obey (om : Operation * machine) (c : command) : Operation * machine :=
  match c with
  | Act a => (om.1, react om.1 om.2 a)
  | Done cb => Operation_done_running cb om.1 om.2
  | Add p callback serial => (push_step om.1 (Step_new p callback serial), om.2)
  end.

Definition session (cmds : list command) (om : Operation * machine)
  : Operation * machine :=
  foldl obey om cmds.

(** The commands with nothing passed to [exec]. *)
Definition without_arguments (c : command) : command :=
  match c with
  | Act (Exec _) => Act (Exec [])
  | _ => c
  end.

(** The completion callbacks that were registered: those of the steps of
    the chain as it was built, and those [done] was called with since. *)
Definition registered (chain : Operation) (cmds : list command) : list string :=
  (s ← steps chain; callbacks s)
  ++ omap (fun c => match c with Done cb => Some cb | _ => None end) cmds.

Definition is_exec (c : command) : bool :=
  match c with
  | Act (Exec _) => true
  | _ => false
  end.

(** C10, its last part, for a chain that is executed once: the
    completion callbacks that are called are among those registered
    before the call of [exec]. *)
Definition observed_by_earlier_registrations_only : Prop :=
  ∀ chain source before arguments after state f error r c,
    Forall (fun c => is_exec c = false) (before ++ after) ->
    Callback state f error r c
      ∈ trace (session (before ++ Act (Exec arguments) :: after) (chain, boot source)).2 ->
    f ∈ registered chain before.

(** [op = items.map(worker); op.exec().done(late)]: the loop of [run]
    has called the four workers when [exec] returns; [late] is
    registered; then the workers answer, and the callback loop turns. *)
Definition late_registration : list command :=
  [Act Tick; Act Tick; Act Tick; Act Tick; Act Tick;
   Done "late";
   Act (Call (Each 0 0) VNull (VNum 1)); Act (Call (Each 0 1) VNull (VNum 2));
   Act (Call (Each 0 2) VNull (VNum 3)); Act (Call (Each 0 3) VNull (VNum 4));
   Act Tick].

(** The step a suspended loop is a loop of. *)
Definition frame_step (f : frame) : Step :=
  match f with
  | ForEachLoop s _ _ _ _ => s
  | DoneLoop this _ _ _ _ => this
  end.

(** Every completion callback that the chain or the engine holds, and
    every one that was called, is among [known]. *)
Record acquainted (known : list string) (oper : Operation) (m : machine) : Prop :=
  mk_acquainted {
  acquainted_steps : Forall (fun s => callbacks s ⊆ known) (steps oper);
  acquainted_states : Forall (fun st => callbacks (step st) ⊆ known) (states m);
  acquainted_stack : Forall (fun f => callbacks (frame_step f) ⊆ known) (stack m);
  acquainted_trace : Forall (fun e => match e with
                                      | Callback _ f _ _ _ => f ∈ known
                                      | _ => True
                                      end) (trace m)
}.

(** [items.map(worker).done(log).exec()] with the continuations called
    in the reverse order. *)
Definition map_run : list action := Exec [] :: map_reversed.

(** ** Building a chain *)

(** The proxy methods of [AsyncArray.prototype]:
    [new Operation(this)] and the method of the same name. *)
Definition AsyncArray_forEach (callback : string) (this : nat) : Operation :=
  Operation_forEach callback (Operation_new this).
Definition AsyncArray_forEachSerial (callback : string) (this : nat) : Operation :=
  Operation_forEachSerial callback (Operation_new this).
Definition AsyncArray_map (callback : string) (this : nat) : Operation :=
  Operation_map callback (Operation_new this).
Definition AsyncArray_mapSerial (callback : string) (this : nat) : Operation :=
  Operation_mapSerial callback (Operation_new this).
Definition AsyncArray_filter (callback : string) (this : nat) : Operation :=
  Operation_filter callback (Operation_new this).
Definition AsyncArray_filterSerial (callback : string) (this : nat) : Operation :=
  Operation_filterSerial callback (Operation_new this).

Definition proxies : list (string -> nat -> Operation) :=
  [AsyncArray_forEach; AsyncArray_forEachSerial; AsyncArray_map; AsyncArray_mapSerial;
   AsyncArray_filter; AsyncArray_filterSerial].

(** The methods of [Operation.prototype] that add a step. *)
Definition step_methods : list (string -> Operation -> Operation) :=
  [Operation_forEach; Operation_forEachSerial; Operation_map; Operation_mapSerial;
   Operation_filter; Operation_filterSerial].

(** The chains a user of the module can hold.  The module exports
    [AsyncArray] alone: an [Operation] comes from a proxy method of an
    array, and from it by the methods that add a step and by [done]. *)
Inductive chain_of (arr : nat) : Operation -> Prop :=
| chain_proxy proxy callback :
    proxy ∈ proxies ->
    chain_of arr (proxy callback arr)
| chain_step method callback o :
    method ∈ step_methods ->
    chain_of arr o ->
    chain_of arr (method callback o)
| chain_done callback o o' :
    chain_of arr o ->
    Operation_done callback o = Some o' ->
    chain_of arr o'.

(** [step.callbacks.push(callback)] *)
Definition add_callback (cb : string) (s : Step) : Step :=
  {| prototype := prototype s; callbacks := callbacks s ++ [cb];
     callback := callback s; serial := serial s |}.

(** ** The completion callbacks of a step *)

(** The callbacks of a latched state have been called as far as its
    callback loop has come, in the order of their registration, each
    with the error the step ended with and the wrapped result; the loop
    of the state, if it is suspended, is the one of this error. *)
Definition calls_ok (m : machine) (state : nat) (st : StepState) : Prop :=
  ∃ error,
    (truthy error = true ∨ error = VNull)
    ∧ callback_calls state (trace m)
      = take (default (length (callbacks (step st))) (loop_index state (stack m)))
          (expected_calls (step st) error (result st))
    ∧ ∀ f, f ∈ stack m -> is_done_loop f = true -> frame_state f = state ->
           ∃ i, f = DoneLoop (step st) error state i (length (callbacks (step st))).

Definition calls_inv (m : machine) : Prop :=
  ∀ state st, states m !! state = Some st -> done st = true -> calls_ok m state st.

(** What the trace of [m] shows of the completion callbacks of [state]:
    a beginning of the callbacks of the step, in the order of their
    registration, each called once with the same error (a truthy one, or
    [null]) and the same result object; none before the state is latched,
    all of them once the callback loop is through. *)
Definition called_back_once (m : machine) (state : nat) (st : StepState) : Prop :=
  ∃ error n,
    (truthy error = true ∨ error = VNull)
    ∧ callback_calls state (trace m)
      = take n (expected_calls (step st) error (result st))
    ∧ (done st = false -> n = 0)
    ∧ (done st = true -> loop_index state (stack m) = None ->
       n = length (callbacks (step st))).

(** The state of the map step of [map_chain] when [map_run] is through. *)
Definition map_done_state : StepState :=
  {| step := map_step; oper_state := 0; input := 0; result := 2; count := 4;
     done := true; serialfn := None |}.

(** ** The workers of a parallel step *)

(** The states whose [forEach] is suspended. *)
Definition each_states (k : list frame) : list nat :=
  omap (fun f => match f with
                 | ForEachLoop _ s _ _ _ => Some s
                 | DoneLoop _ _ _ _ _ => None
                 end) k.

(** The calls a parallel state has made to its worker are in ascending
    order, within the input, each with the continuation of its index;
    the suspended [forEach] of the state runs over the input of the
    state and has passed the indices of all these calls. *)
Record dispatch_ok (m : machine) (state : nat) (st : StepState) : Prop := mk_dispatch_ok {
  dispatch_sorted : StronglySorted lt (worker_calls state (trace m));
  dispatch_bound :
    Forall (fun i => i < length (contents (input st) m)) (worker_calls state (trace m));
  dispatch_conts : ∀ f item i next,
    Worker state f item i next ∈ trace m -> next = Some (Each state i);
  dispatch_loop : ∀ s arr i len,
    ForEachLoop s state arr i len ∈ stack m ->
    arr = input st ∧ len <= length (contents arr m)
    ∧ Forall (fun j => j < i) (worker_calls state (trace m))
}.

(** No state has two suspended [forEach] loops. *)
Record dispatch_inv (m : machine) : Prop := mk_dispatch_inv {
  dispatch_apart : NoDup (each_states (stack m));
  dispatch_states : ∀ state st,
    states m !! state = Some st -> serial (step st) = false -> dispatch_ok m state st
}.

(** What the trace of [m] shows of the calls a parallel step has made to
    its worker: the indices are in ascending order, so that no element is
    handed out twice; they are indices of the input; and each call has
    the worker of the step and a continuation of its own, the one of
    its index. *)
Definition dispatched_in_order (m : machine) (state : nat) (st : StepState) : Prop :=
  StronglySorted lt (worker_calls state (trace m))
  ∧ Forall (fun i => i < length (contents (input st) m)) (worker_calls state (trace m))
  ∧ ∀ f item i next,
      Worker state f item i next ∈ trace m ->
      f = callback (step st) ∧ next = Some (Each state i).

(** The calls the [forEach] of a parallel step makes over [elems]: one
    for each index that holds an element, in ascending order; a hole is
    passed over. *)
Definition dispatch_of (this : Step) (state : nat) (elems : jsarray) (i : nat)
  : option event :=
  match elems !! i with
  | Some (Some v) => Some (Worker state (callback this) v i (Some (Each state i)))
  | _ => None
  end.

Definition dispatches (this : Step) (state : nat) (elems : jsarray) : list event :=
  omap (dispatch_of this state elems) (seq 0 (length elems)).

(** ** Completion is counted *)

(** What a parallel map step hands to its completion callbacks when its
    continuations were called for the indices [order], the index [i]
    with [values i]: an array that ends at the greatest of these indices
    and holds [undefined] at an index no call was made for. *)
Definition counted_map (values : nat -> value) (order : list nat) : jsarray :=
  (fun i => Some (if decide (i ∈ order) then values i else VUndefined))
    <$> seq 0 (S (max_list order)).

(** The workers of the elements 0 and 1 and 3 of [test_items] call their
    continuations, the first of them twice; the worker of the element 2
    has not called its continuation yet. *)
Definition map_doubled : list action :=
  [Tick; Tick; Tick; Tick; Tick;
   Call (Each 0 0) VNull (did 0); Call (Each 0 0) VNull (did 0);
   Call (Each 0 1) VNull (did 1); Call (Each 0 3) VNull (did 3);
   Tick; Tick].

(** The step of [forEach_chain]. *)
Definition forEach_step : Step :=
  {| prototype := StepProto; callbacks := ["log"]; callback := "worker";
     serial := false |}.

(** The four workers are called and call their continuations with no
    value, in the reverse order. *)
Definition forEach_reversed : list action :=
  [Tick; Tick; Tick; Tick; Tick] ++ all_succeed ++ [Tick; Tick].

(** What a parallel filter step over [elems] hands to its completion
    callbacks when its continuations were called for the indices
    [order], the index [i] with [values i]: the elements at the indices
    that were given [true], in ascending order of the indices, an index
    as many times as its continuation was called. *)
Definition counted_filter (elems : jsarray) (values : nat -> value) (order : list nat)
  : jsarray :=
  (fun i => Some (aget elems i))
    <$> merge_sort le (filter (fun i => values i = VBool true) order).

(** The workers of the elements 3 and 0 of [test_items] keep them, the
    first of them twice; the worker of the string drops it; the worker
    of the element 1 has not called its continuation yet. *)
Definition filter_doubled : list action :=
  [Tick; Tick; Tick; Tick; Tick;
   Call (Each 0 3) VNull (VBool true); Call (Each 0 3) VNull (VBool true);
   Call (Each 0 2) VNull VUndefined; Call (Each 0 0) VNull (VBool true);
   Tick; Tick].

(** ** The steps of a run *)

(** The state is at the place [k] of the chain: it runs the step [k];
    the first step runs over the array of the chain, and a later step
    over the result of a state of the step before it, in the same run,
    that is latched and whose callbacks have all been called with a null
    error and this result. *)
Definition placed (oper : Operation) (m : machine) (state : nat) (st : StepState)
    (k : nat) : Prop :=
  steps oper !! k = Some (step st)
  ∧ match k with
    | 0 => input st = array oper
    | S j =>
        ∃ prev pst,
          prev < state ∧ states m !! prev = Some pst
          ∧ oper_state pst = oper_state st
          ∧ steps oper !! j = Some (step pst)
          ∧ done pst = true
          ∧ input st = result pst
          ∧ callback_calls prev (trace m) = expected_calls (step pst) VNull (result pst)
    end.

(** A state that is not latched, or whose callback loop is suspended. *)
Definition active (m : machine) (state : nat) (st : StepState) : Prop :=
  done st = false
  ∨ ∃ f, f ∈ stack m ∧ is_done_loop f = true ∧ frame_state f = state.

(** Every state has its place in the chain, and the index of a run is
    the place of the state the run is in. *)
Definition chain_inv (oper : Operation) (m : machine) : Prop :=
  ∀ state st, states m !! state = Some st ->
    ∃ k, placed oper m state st k
         ∧ (active m state st -> index <$> opers m !! oper_state st = Some k).

(** The steps of a chain are run in the order of the chain. *)
Definition runs_in_order (oper : Operation) (m : machine) (state : nat) (st : StepState)
  : Prop :=
  ∃ k, placed oper m state st k.

(** ** The result objects *)

(** The states of a machine have result containers of their own, which
    are arrays of the heap. *)
Record results_apart (m : machine) : Prop := mk_results_apart {
  results_bound : ∀ s st, states m !! s = Some st -> result st < length (heap m);
  results_inj : ∀ s1 s2 st1 st2,
    states m !! s1 = Some st1 -> states m !! s2 = Some st2 ->
    result st1 = result st2 -> s1 = s2
}.

(** The array a completion callback is given is the result of the state
    it is called for: it is not the source, nor the array the step has
    run over, nor an array that a callback of another run of a step is
    given. *)
Definition given_its_own (m : machine) : Prop :=
  ∀ s f e r c,
    Callback s f e r c ∈ trace m ->
    ∃ st, states m !! s = Some st ∧ r = result st
          ∧ r ≠ 0 ∧ r ≠ input st
          ∧ ∀ s' f' e' c', Callback s' f' e' r c' ∈ trace m -> s' = s.

(** ** The end of a step *)

(** The calls of the callback loop of [Step.prototype.done]: the
    callbacks of the step, in the order of their registration, each with
    the error and the wrapped result. *)
Definition callback_events (this : Step) (state : nat) (error : value) (r : nat)
    (c : jsarray) : list event :=
  (fun f => Callback state f error r c) <$> callbacks this.

(** The machine after the continuation [k] of the state [st] of [m] has
    completed the step and the callback loop is through, before
    [_next] looks for the next step: the result is wrapped, the state is
    latched, the callbacks have been called, the run has advanced. *)
Definition completed (m : machine) (k : cont) (error data : value) (state i : nat)
    (st : StepState) (os : OperState) : machine :=
  let fin := finished st VNull (written st i data (heap m)) in
  {| heap := fin.1;
     opers := <[oper_state st := {| index := S (index os) |}]> (opers m);
     states := <[state := with_result fin.2
                            (with_done true (with_count (S (count st)) st))]> (states m);
     stack := stack m;
     trace := trace m ++ Called k error data
                :: callback_events (step st) state VNull fin.2
                     (default [] (fin.1 !! fin.2)) |}.

(** What [Map.prototype.next] and [Filter.prototype.next] make of the
    result container [acc] when the continuation of the index [i] is
    given [data]. *)
Definition collected (p : proto) (acc : jsarray) (i : nat) (data : value) : jsarray :=
  match p with
  | StepProto => acc
  | MapProto => aset acc i data
  | FilterProto => if is_true data then apush acc (VNum (Z.of_nat i)) else acc
  end.

(** The machine after the continuation [k] of the state [st] of [m] has
    failed the step with [error] and the callback loop is through: the
    result container [acc], with what this last call has added, is
    wrapped as it is and handed to the callbacks with the error. *)
Definition failed_with (m : machine) (k : cont) (error data : value) (state i : nat)
    (st : StepState) (acc : jsarray) : machine :=
  let res := AsyncArray (Some (collected (prototype (step st)) acc i data)) in
  {| heap := <[result st := collected (prototype (step st)) acc i data]> (heap m) ++ [res];
     opers := opers m;
     states := <[state := with_result (length (heap m)) (with_done true st)]> (states m);
     stack := stack m;
     trace := trace m ++ Called k error data
                :: callback_events (step st) state error (length (heap m)) res |}.

(** The continuations of a state, called. *)
Definition calls_of (state : nat) (a : action) : Prop :=
  match a with
  | Call k _ _ => cont_state k = state
  | _ => False
  end.

Definition called (a : action) : option event :=
  match a with
  | Call k error data => Some (Called k error data)
  | _ => None
  end.

(** [items.forEach(worker).done(log).map(worker2).done(log2).exec()]:
    the four workers are called, and three of them have called their
    continuations. *)
Definition forEach_until_last : list action :=
  [Exec []; Tick; Tick; Tick; Tick; Tick;
   Call (Each 0 3) VNull VUndefined; Call (Each 0 2) VNull VUndefined;
   Call (Each 0 1) VNull VUndefined].

(** The state of the for-each step then. *)
Definition forEach_last_state : StepState :=
  {| step := forEach_step; oper_state := 0; input := 0; result := 1; count := 3;
     done := false; serialfn := None |}.

(** [items.filter(worker).done(log).exec()]: the four workers are
    called, and those of the elements 3 and 0 have kept them, in this
    order. *)
Definition filter_until_error : list action :=
  [Exec []; Tick; Tick; Tick; Tick; Tick;
   Call (Each 0 3) VNull (VBool true); Call (Each 0 0) VNull (VBool true)].

(** The state of the filter step then. *)
Definition filter_error_state : StepState :=
  {| step := filter_step; oper_state := 0; input := 0; result := 1; count := 2;
     done := false; serialfn := None |}.

(** The states of a run that are not latched. *)
Definition unlatched (run : nat) (m : machine) : list StepState :=
  filter (fun st => oper_state st = run ∧ done st = false) (states m).

(** ** Two steps in a row *)

(** [items.filter(worker).done(log).map(worker2).done(log2)]: the last
    chain of [test.js], with the callback of the map registered by
    [done]. *)
Definition filter_map_chain : Operation :=
  built (Operation_done "log2" (Operation_map "worker2" filter_chain)).

(** Its second step. *)
Definition map_after_filter : Step :=
  {| prototype := MapProto; callbacks := ["log2"]; callback := "worker2";
     serial := false |}.

(** The four workers of the filter are called; all but the one of the
    element 0 call their continuations, in the reverse order. *)
Definition filter_but_one : list action :=
  [Tick; Tick; Tick; Tick; Tick;
   Call (Each 0 3) VNull (non_string 3); Call (Each 0 2) VNull (non_string 2);
   Call (Each 0 1) VNull (non_string 1)].

(** The three workers of the map are called, and call their
    continuations. *)
Definition map_of_three : list action :=
  [Tick; Tick; Tick; Tick;
   Call (Each 1 0) VNull (did 0); Call (Each 1 1) VNull (did 1);
   Call (Each 1 2) VNull (did 2); Tick; Tick].

(** ** The elements the workers are given *)

(** The workers of a step that runs over the source are called with the
    elements of the source: the call for the index [i] has the element
    at [i]. *)
Definition given_the_elements (source : jsarray) (m : machine) : Prop :=
  ∀ state st f item i next,
    states m !! state = Some st -> input st = 0 ->
    Worker state f item i next ∈ trace m ->
    item = aget source i.

(** ** What a continuation reads of its arguments *)

(** The machine without the record of the calls user code has made. *)
Definition unrecorded (m : machine) : machine :=
  {| heap := heap m; opers := opers m; states := states m; stack := stack m;
     trace := omap (fun e => match e with
                             | Called _ _ _ => None
                             | _ => Some e
                             end) (trace m) |}.

(** Two calls of a continuation of a step of the kind [p] that succeed
    and between which the step makes no difference: the errors are both
    falsy; a for-each step does not look at the data, a filter step only
    at whether it is [true], a map step stores it. *)
Definition alike (p : proto) (error1 data1 error2 data2 : value) : Prop :=
  truthy error1 = false ∧ truthy error2 = false
  ∧ match p with
    | StepProto => True
    | MapProto => data1 = data2
    | FilterProto => is_true data1 = is_true data2
    end.

(** ** A serial step *)

(** The calls a serial step makes to its worker, as the trace of [m]
    shows them for [state]: for the indices 0, 1, 2, ... in this order,
    all below the length of the input; never more than one more than the
    calls of the continuation; and the call for the index [i + 1] only
    after [i + 1] calls of the continuation. *)
Definition called_in_turn (m : machine) (state : nat) (st : StepState) : Prop :=
  worker_calls state (trace m) = seq 0 (length (worker_calls state (trace m)))
  ∧ length (worker_calls state (trace m)) <= length (contents (input st) m)
  ∧ one_in_flight state (trace m)
  ∧ ∀ p f item i next,
      p ++ [Worker state f item (S i) next] `prefix_of` trace m ->
      worker_calls state p = seq 0 (S i) ∧ S i <= completions state p.

(** The state of the serial filter over [test_items] when [exec] has
    returned: the worker has been called for the first element. *)
Definition filterSerial_started : StepState :=
  {| step := {| prototype := FilterProto; callbacks := ["log"]; callback := "worker";
                serial := true |};
     oper_state := 0; input := 0; result := 1; count := 0; done := false;
     serialfn := Some (Serialfn 0) |}.

(** * Properties *)

(** ** The engine takes the transitions, and no other *)

Ltac machine_eq :=
  unfold update, store, emit, set_stack, set_states, set_heap, set_opers, alloc,
    contents; simpl.

Lemma alter_insert {A} (f : A -> A) (l : list A) i x :
  l !! i = Some x -> alter f i l = <[i := f x]> l.
Proof.
  intros H. apply list_eq. intros j.
  destruct (decide (i = j)) as [->|].
  - rewrite list_lookup_alter_eq, H. simpl.
    rewrite list_lookup_insert_eq; [done|]. by eapply lookup_lt_Some.
  - by rewrite list_lookup_alter_ne, list_lookup_insert_ne.
Qed.

Lemma alter_missing {A} (f : A -> A) (l : list A) i :
  l !! i = None -> alter f i l = l.
Proof.
  intros H. apply list_eq. intros j.
  destruct (decide (i = j)) as [->|].
  - by rewrite list_lookup_alter_eq, H.
  - by rewrite list_lookup_alter_ne.
Qed.

Lemma lookup_snoc_empty (h : list jsarray) r :
  default [] ((h ++ [[]]) !! r) = default [] (h !! r).
Proof.
  destruct (decide (r < length h)).
  - by rewrite lookup_app_l.
  - rewrite lookup_app_r by lia. rewrite (lookup_ge_None_2 h) by lia.
    by destruct (r - length h).
Qed.

Lemma contents_alloc_empty r m :
  default [] ((heap m ++ [[]]) !! r) = contents r m.
Proof. apply lookup_snoc_empty. Qed.

Lemma insert_snoc {A} (l : list A) x y : <[length l := y]> (l ++ [x]) = l ++ [y].
Proof.
  replace (length l) with (length l + 0) by lia. by rewrite insert_app_r.
Qed.

Lemma lookup_snoc {A} (l : list A) x : (l ++ [x]) !! length l = Some x.
Proof. by rewrite lookup_app_r, Nat.sub_diag by lia. Qed.

Lemma Step_run_started this os arr m :
  Step_run this os arr m = started this os arr m.
Proof.
  unfold Step_run, started, alloc, StepState_new, update, emit, set_stack, set_states, set_heap, fresh_state, contents. simpl.
  destruct (serial this); simpl.
  - rewrite contents_alloc_empty. unfold contents. f_equal.
    rewrite alter_app_r_alt by lia. by rewrite Nat.sub_diag.
  - by rewrite contents_alloc_empty.
Qed.

Lemma AsyncArray_Some a : AsyncArray (Some a) = map Some (arguments_of a).
Proof.
  unfold AsyncArray. generalize (arguments_of a). intros l.
  assert (forall acc, foldl apush acc l = acc ++ map Some l) as H.
  { induction l as [|x l IH]; intros acc; simpl.
    - by rewrite app_nil_r.
    - rewrite IH. unfold apush. by rewrite <- app_assoc. }
  apply H.
Qed.

Lemma pick_loop array sorted :
  foldl (fun acc i => apush acc (aprop array (aget sorted i))) [] (seq 0 (length sorted))
  = picked array sorted.
Proof.
  unfold picked.
  assert (forall pre acc,
    foldl (fun acc i => apush acc (aprop array (aget (pre ++ sorted) i))) acc
      (seq (length pre) (length sorted))
    = acc ++ map (fun o => Some (aprop array (default VUndefined o))) sorted) as H.
  { induction sorted as [|x l IH]; intros pre acc; simpl.
    - by rewrite app_nil_r.
    - replace (pre ++ x :: l) with ((pre ++ [x]) ++ l) by (by rewrite <- app_assoc).
      replace (S (length pre)) with (length (pre ++ [x])) by (rewrite length_app; simpl; lia).
      rewrite IH. unfold apush. rewrite <- app_assoc. simpl. do 3 f_equal.
      unfold aget. rewrite <- app_assoc. simpl.
      rewrite lookup_app_r by lia. rewrite Nat.sub_diag. simpl. by destruct x. }
  apply (H [] []).
Qed.


Lemma Step_done_unfold this error state st m :
  states m !! state = Some st ->
  Step_done this error state m =
  {| heap := heap m ++ [AsyncArray (Some (contents (result st) m))];
     opers := opers m;
     states := <[state := with_result (length (heap m)) st]> (states m);
     stack := DoneLoop this error state 0 (length (callbacks this)) :: stack m;
     trace := trace m |}.
Proof.
  intros H. unfold Step_done. rewrite H. machine_eq.
  by rewrite (alter_insert _ _ _ _ H).
Qed.

Lemma this_done_unfold this error state st m :
  states m !! state = Some st ->
  step st = this ->
  this_done this error state m =
  {| heap := (finished st error (heap m)).1;
     opers := opers m;
     states := <[state := with_result (finished st error (heap m)).2 st]> (states m);
     stack := DoneLoop this error state 0 (length (callbacks this)) :: stack m;
     trace := trace m |}.
Proof.
  intros H <-. unfold finished.
  case_decide as Hd.
  - unfold this_done, Filter_done.
    destruct Hd as (-> & -> & ->). simpl. rewrite H. machine_eq.
    rewrite pick_loop.
    set (sorted := asort SORTFN (default [] (heap m !! result st))).
    set (h1 := <[result st := sorted]> (heap m)).
    assert (length h1 = length (heap m)) as Hlen by apply length_insert.
    erewrite Step_done_unfold; last first.
    { simpl. rewrite (alter_insert _ _ _ _ H). apply list_lookup_insert_eq. by eapply lookup_lt_Some. }
    machine_eq. rewrite lookup_snoc_empty, insert_snoc, lookup_snoc, length_app, Hlen. simpl.
    rewrite (alter_insert _ _ _ _ H), list_insert_insert_eq.
    replace (length (heap m) + 1) with (S (length (heap m))) by lia.
    by rewrite <- app_assoc.
  - assert (this_done (step st) error state m = Step_done (step st) error state m) as ->.
    { unfold this_done, Filter_done. destruct (prototype (step st)) eqn:Hp; try done.
      destruct (truthy error) eqn:He; simpl; [done|].
      destruct (serial (step st)) eqn:Hs; simpl; [done|]. naive_solver. }
    by apply Step_done_unfold.
Qed.

Lemma call_target k error data m :
  call k error data m =
  match target k m with
  | None => m
  | Some (state, i, st) => this_next (step st) state i error data m
  end.
Proof.
  unfold call, target. destruct k; simpl; by destruct (states m !! state).
Qed.

Lemma this_next_written state i st error data m :
  states m !! state = Some st ->
  this_next (step st) state i error data m =
  Step_next (step st) state i error data (set_heap (written st i data (heap m)) m).
Proof.
  intros H. unfold this_next, written, Map_next, Filter_next.
  destruct (prototype (step st)); rewrite ?H; try by destruct m.
  by destruct (is_true data); [|destruct m].
Qed.

Lemma target_emit k e m : target k (emit e m) = target k m.
Proof. by destruct k. Qed.

Lemma target_lookup k m state i st :
  target k m = Some (state, i, st) -> states m !! state = Some st.
Proof.
  unfold target. destruct k; simpl; destruct (states m !! _) eqn:E; naive_solver.
Qed.

Lemma if_same {A} (b : bool) (x : A) : (if b then x else x) = x.
Proof. by destruct b. Qed.

Lemma react_transition oper m a : transition oper m a (react oper m a).
Proof.
  destruct a as [arguments|k error data|]; simpl.
  - unfold Operation_exec, OperState_new. simpl.
    destruct (steps oper !! 0) eqn:E; simpl.
    + rewrite Step_run_started. by constructor.
    + by constructor.
  - rewrite call_target, target_emit.
    destruct (target k m) as [[[state i] st]|] eqn:Ht; [|by constructor].
    pose proof (target_lookup _ _ _ _ _ Ht) as Hst.
    rewrite this_next_written by done. unfold Step_next. simpl. rewrite Hst.
    destruct (done st) eqn:Hd; [machine_eq; by eapply call_late|].
    destruct (truthy error) eqn:He.
    + rewrite (this_done_unfold _ _ _ (with_done true st)); [| |reflexivity]; last first.
      { machine_eq. rewrite (alter_insert _ _ _ _ Hst).
        apply list_lookup_insert_eq. by eapply lookup_lt_Some. }
      machine_eq. rewrite (alter_insert _ _ _ _ Hst), list_insert_insert_eq.
      assert (finished (with_done true st) error (written st i data (heap m))
              = (written st i data (heap m) ++ [AsyncArray (Some (default [] (written st i data (heap m) !! result st)))], length (written st i data (heap m)))) as ->.
      { unfold finished. rewrite decide_False; [done|]. simpl. rewrite He. intros (? & ? & ?); congruence. }
      exact (call_error oper m k error data state i st Ht Hd He).
    + machine_eq.
      destruct (decide (length (default [] (written st i data (heap m) !! input st)) <= S (count st))) as [Hl|Hl].
      * rewrite if_same.
        rewrite (this_done_unfold _ _ _ (with_done true (with_count (S (count st)) st))); [| |reflexivity]; last first.
        { machine_eq. rewrite list_lookup_alter_eq, list_lookup_alter_eq, Hst. done. }
        machine_eq.
        rewrite (alter_insert _ _ _ _ Hst).
        erewrite alter_insert; last first.
        { apply list_lookup_insert_eq. by eapply lookup_lt_Some. }
        rewrite !list_insert_insert_eq.
        exact (call_last oper m k error data state i st Ht Hd He Hl).
      *         rewrite (alter_insert _ _ _ _ Hst).
        epose proof (call_more oper m k error data state i st Ht Hd He) as Hm.
        simpl in Hm. specialize (Hm ltac:(lia)).
        destruct (serial (step st)); machine_eq.
        -- rewrite <- app_assoc. exact Hm.
        -- exact Hm.
  - unfold tick.
    destruct (stack m) as [|[s state array i len|this error state i il] rest] eqn:Hs.
    + by constructor.
    + case_decide.
      * simpl. unfold ahas, aget, contents. simpl.
        destruct (default [] (heap m !! array) !! i) as [[v|]|] eqn:E.
        -- unfold emit, set_stack. simpl. by eapply tick_each_visit.
        -- eapply tick_each_hole; eauto. unfold ahas, contents. by rewrite E.
        -- eapply tick_each_hole; eauto. unfold ahas, contents. by rewrite E.
      * eapply tick_each_end; eauto. lia.
    + destruct (states m !! state) as [st|] eqn:Hst; [|by eapply tick_done_unknown].
      case_decide.
      * simpl. destruct (callbacks this !! i) eqn:E.
        -- exact (tick_done_callback oper m _ _ _ _ _ _ _ _ Hs Hst H E).
        -- by eapply tick_done_skip.
      * unfold Operation__next. destruct (truthy error) eqn:He.
        { eapply tick_done_halt; eauto. lia. }
        simpl. rewrite list_lookup_alter_eq.
        destruct (opers m !! oper_state st) as [os|] eqn:Ho; simpl.
        -- rewrite (alter_insert _ _ _ _ Ho).
           destruct (steps oper !! S (index os)) eqn:Hn.
           ++ rewrite Step_run_started.
              exact (tick_done_next oper m _ _ _ _ _ _ _ _ _ Hs Hst ltac:(lia) He Ho Hn).
           ++ exact (tick_done_finished oper m _ _ _ _ _ _ _ _ Hs Hst ltac:(lia) He Ho Hn).
        -- rewrite (alter_missing _ _ _ Ho).
           replace (set_opers (opers m) (set_stack rest m)) with (set_stack rest m) by (by destruct m).
           eapply tick_done_stray; eauto. lia.
Qed.

(** ** Well-formedness *)

Lemma evolves_refl m : evolves m m.
Proof. split; [done|]. intros state st H. by exists st. Qed.

Lemma evolves_trans m1 m2 m3 : evolves m1 m2 -> evolves m2 m3 -> evolves m1 m3.
Proof.
  intros [Hl1 H1] [Hl2 H2]. split; [lia|].
  intros state st Hst.
  destruct (H1 _ _ Hst) as (st' & Hst' & E1 & E2 & E3 & E4).
  destruct (H2 _ _ Hst') as (st'' & Hst'' & F1 & F2 & F3 & F4).
  exists st''. repeat split; try congruence.
  intros Hd. rewrite <- (E4 Hd). apply F4. by rewrite (E4 Hd).
Qed.

(** Writing a state that is not latched, keeping what [evolves] keeps. *)
Lemma evolves_insert m m' state st st' :
  length (opers m) <= length (opers m') ->
  states m !! state = Some st ->
  done st = false ->
  step st' = step st -> oper_state st' = oper_state st -> input st' = input st ->
  states m' = <[state := st']> (states m) ->
  evolves m m'.
Proof.
  intros Hl Hst Hd E1 E2 E3 E. split; [done|]. rewrite E.
  intros s x Hx. destruct (decide (state = s)) as [->|Hne].
  - exists st'. rewrite list_lookup_insert_eq by (by eapply lookup_lt_Some).
    assert (x = st) as -> by congruence.
    repeat split; try done. congruence.
  - exists x. by rewrite list_lookup_insert_ne.
Qed.

Lemma evolves_same_states m m' :
  length (opers m) <= length (opers m') ->
  states m' = states m ->
  evolves m m'.
Proof.
  intros Hl E. split; [done|]. intros s x Hx. exists x. by rewrite E.
Qed.

Lemma evolves_started this os arr m : evolves m (started this os arr m).
Proof.
  split; [done|]. intros s x Hx. exists x. simpl.
  rewrite lookup_app_l by (by eapply lookup_lt_Some). done.
Qed.

Lemma transition_evolves oper m a m' : transition oper m a m' -> evolves m m'.
Proof.
  destruct 1; simpl;
    try apply evolves_refl;
    try (apply evolves_same_states; simpl; [lia|done]);
    try (match goal with
         | H : target _ _ = Some _, Hd : done _ = false |- _ =>
             apply target_lookup in H;
             eapply evolves_insert; last (simpl; reflexivity);
             [simpl; lia | exact H | exact Hd | done..]
         end).
  - eapply evolves_trans; [|apply evolves_started].
    apply evolves_same_states; simpl; [rewrite length_app; lia|done].
  - apply evolves_same_states; simpl; [by rewrite length_insert|done].
  - eapply evolves_trans; [|apply evolves_started].
    apply evolves_same_states; simpl; [by rewrite length_insert|done].
Qed.

Lemma frame_ok_evolves m m' f : evolves m m' -> frame_ok m f -> frame_ok m' f.
Proof.
  intros [_ H]. destruct f; simpl.
  - intros (st & Hst & E1 & E2). destruct (H _ _ Hst) as (st' & Hst' & F1 & _).
    exists st'. split; [done|]. split; congruence.
  - intros (st & Hst & E1 & E2 & E3).
    destruct (H _ _ Hst) as (st' & Hst' & F1 & _ & _ & F4).
    exists st'. rewrite (F4 E2) in *. done.
Qed.

Lemma event_ok_evolves m m' e : evolves m m' -> event_ok m e -> event_ok m' e.
Proof.
  intros [_ H]. destruct e; simpl; [| |done].
  - intros (st & Hst & E1). destruct (H _ _ Hst) as (st' & Hst' & F1 & _).
    exists st'. split; congruence.
  - intros (st & Hst & E1 & E2).
    destruct (H _ _ Hst) as (st' & Hst' & F1 & _ & _ & F4).
    exists st'. rewrite (F4 E1) in *. done.
Qed.

Lemma wf_intro oper m m' :
  wf oper m ->
  evolves m m' ->
  Forall (state_ok oper m') (states m') ->
  (∀ f, f ∈ stack m' -> f ∈ stack m ∨ frame_ok m' f) ->
  (∀ e, e ∈ trace m' -> e ∈ trace m ∨ event_ok m' e) ->
  wf oper m'.
Proof.
  intros [W1 W2 W3] He Hs Hk Ht. split; [done| |].
  - apply Forall_forall. intros f Hf. destruct (Hk f Hf) as [Hin|]; [|done].
    eapply frame_ok_evolves; [done|]. by eapply Forall_forall in W2.
  - apply Forall_forall. intros e Hin. destruct (Ht e Hin) as [Hin'|]; [|done].
    eapply event_ok_evolves; [done|]. by eapply Forall_forall in W3.
Qed.

Lemma state_ok_opers oper m m' st :
  length (opers m) <= length (opers m') -> state_ok oper m st -> state_ok oper m' st.
Proof. intros Hl [H1 H2]. split; [lia|done]. Qed.

Lemma wf_started oper this os arr m :
  wf oper m -> this ∈ steps oper -> os < length (opers m) ->
  wf oper (started this os arr m).
Proof.
  intros Hwf Hin Hos. eapply wf_intro; [done|apply evolves_started| | |]; simpl.
  - apply Forall_app. split.
    + eapply Forall_impl; [apply Hwf|]. intros st. by apply state_ok_opers.
    + apply Forall_singleton. by split.
  - intros f Hf. destruct (serial this) eqn:Hs; [by left|].
    apply elem_of_cons in Hf as [->|Hf]; [|by left]. right. simpl.
    eexists. rewrite lookup_snoc. done.
  - intros e He. destruct (serial this) eqn:Hs; [|by left].
    apply elem_of_app in He as [He|He]; [by left|]. right.
    apply list_elem_of_singleton in He as ->. simpl.
    eexists. rewrite lookup_snoc. done.
Qed.

Lemma wf_transition oper m a m' : wf oper m -> transition oper m a m' -> wf oper m'.
Proof.
  intros Hwf Ht. pose proof (transition_evolves _ _ _ _ Ht) as Hev.
  destruct Ht.
  - done.
  - apply wf_started.
    + destruct Hwf as [W1 W2 W3]. split; simpl; [|done..].
      eapply Forall_impl; [apply W1|]. intros st. apply state_ok_opers. simpl.
      rewrite length_app. lia.
    + by eapply list_elem_of_lookup_2.
    + simpl. rewrite length_app. simpl. lia.
  - eapply wf_intro; [done|done|apply Hwf|by left|]. simpl.
    intros e [He|He%list_elem_of_singleton]%elem_of_app; [by left|right]. by subst.
  - eapply wf_intro; [done|done|apply Hwf|by left|]. simpl.
    intros e [He|He%list_elem_of_singleton]%elem_of_app; [by left|right]. by subst.
  - (* call_error *)
    pose proof (target_lookup _ _ _ _ _ H) as Hst.
    assert (state < length (states m)) as Hlt by (by eapply lookup_lt_Some).
    eapply wf_intro; [done|done| | |]; simpl.
    + apply Forall_insert; [apply Hwf|].
      destruct Hwf as [W1 _ _]. eapply Forall_lookup_1 in W1; [|done]. done.
    + intros g [->|Hf]%elem_of_cons; [right|by left]. simpl.
      eexists. rewrite list_lookup_insert_eq by done. done.
    + intros e [He|He%list_elem_of_singleton]%elem_of_app; [by left|right]. by subst.
  - (* call_more *)
    pose proof (target_lookup _ _ _ _ _ H) as Hst.
    assert (state < length (states m)) as Hlt by (by eapply lookup_lt_Some).
    eapply wf_intro; [done|done| |by left|]; simpl.
    + apply Forall_insert; [apply Hwf|].
      destruct Hwf as [W1 _ _]. eapply Forall_lookup_1 in W1; [|done]. done.
    + intros e [He|He]%elem_of_app; [by left|right].
      apply elem_of_cons in He as [->|He]; [done|].
      destruct (serial (step st)); [|by apply elem_of_nil in He].
      apply list_elem_of_singleton in He as ->. simpl.
      eexists. rewrite list_lookup_insert_eq by done. done.
  - (* call_last *)
    pose proof (target_lookup _ _ _ _ _ H) as Hst.
    assert (state < length (states m)) as Hlt by (by eapply lookup_lt_Some).
    eapply wf_intro; [done|done| | |]; simpl.
    + apply Forall_insert; [apply Hwf|].
      destruct Hwf as [W1 _ _]. eapply Forall_lookup_1 in W1; [|done]. done.
    + intros g [->|Hf]%elem_of_cons; [right|by left]. simpl.
      eexists. rewrite list_lookup_insert_eq by done. done.
    + intros e [He|He%list_elem_of_singleton]%elem_of_app; [by left|right]. by subst.
  - done.
  - (* tick_each_visit *)
    assert (frame_ok m (ForEachLoop s state array0 i len)) as Hf.
    { destruct Hwf as [_ W2 _]. rewrite H in W2. by apply Forall_cons in W2 as [? _]. }
    eapply wf_intro; [done|done|apply Hwf| |]; simpl.
    + intros g [->|Hf']%elem_of_cons; [by right|left]. rewrite H. by right.
    + intros e [He|He%list_elem_of_singleton]%elem_of_app; [by left|right]. subst. simpl.
      destruct Hf as (st & Hst & <- & _). by exists st.
  - (* tick_each_hole *)
    assert (frame_ok m (ForEachLoop s state array0 i len)) as Hf.
    { destruct Hwf as [_ W2 _]. rewrite H in W2. by apply Forall_cons in W2 as [? _]. }
    eapply wf_intro; [done|done|apply Hwf| |by left]; simpl.
    intros g [->|Hf']%elem_of_cons; [by right|left]. rewrite H. by right.
  - eapply wf_intro; [done|done|apply Hwf| |by left]; simpl.
    intros g Hg. left. rewrite H. by right.
  - eapply wf_intro; [done|done|apply Hwf| |by left]; simpl.
    intros g Hg. left. rewrite H. by right.
  - (* tick_done_callback *)
    assert (frame_ok m (DoneLoop this error state i il)) as Hf.
    { destruct Hwf as [_ W2 _]. rewrite H in W2. by apply Forall_cons in W2 as [? _]. }
    eapply wf_intro; [done|done|apply Hwf| |]; simpl.
    + intros g [->|Hf']%elem_of_cons; [by right|left]. rewrite H. by right.
    + intros e [He|He%list_elem_of_singleton]%elem_of_app; [by left|right]. subst. simpl.
      destruct Hf as (st' & Hst & <- & Hd & _). exists st'.
      split; [done|]. split; [done|]. by eapply list_elem_of_lookup_2.
  - (* tick_done_skip *)
    assert (frame_ok m (DoneLoop this error state i il)) as Hf.
    { destruct Hwf as [_ W2 _]. rewrite H in W2. by apply Forall_cons in W2 as [? _]. }
    eapply wf_intro; [done|done|apply Hwf| |by left]; simpl.
    intros g [->|Hf']%elem_of_cons; [by right|left]. rewrite H. by right.
  - eapply wf_intro; [done|done|apply Hwf| |by left]; simpl.
    intros g Hg. left. rewrite H. by right.
  - eapply wf_intro; [done|done|apply Hwf| |by left]; simpl.
    intros g Hg. left. rewrite H. by right.
  - (* tick_done_finished *)
    eapply wf_intro; [done|done| | |by left]; simpl.
    + eapply Forall_impl; [apply Hwf|]. intros x. apply state_ok_opers. simpl.
      by rewrite length_insert.
    + intros g Hg. left. rewrite H. by right.
  - (* tick_done_next *)
    apply wf_started.
    + eapply wf_intro; [done| | | |by left]; simpl.
      * apply evolves_same_states; simpl; [by rewrite length_insert|done].
      * eapply Forall_impl; [apply Hwf|]. intros x. apply state_ok_opers. simpl.
        by rewrite length_insert.
      * intros g Hg. left. rewrite H. by right.
    + by eapply list_elem_of_lookup_2.
    + simpl. rewrite length_insert. by eapply lookup_lt_Some.
Qed.

Lemma wf_boot oper source : wf oper (boot source).
Proof. split; simpl; constructor. Qed.

Lemma wf_react oper m a : wf oper m -> wf oper (react oper m a).
Proof. intros H. eapply wf_transition; [done|apply react_transition]. Qed.

Lemma play_app oper s1 s2 m : play oper (s1 ++ s2) m = play oper s2 (play oper s1 m).
Proof. apply foldl_app. Qed.

Lemma play_snoc oper s a m : play oper (s ++ [a]) m = react oper (play oper s m) a.
Proof. by rewrite play_app. Qed.

Lemma wf_play oper s m : wf oper m -> wf oper (play oper s m).
Proof.
  revert m. induction s as [|a s IH]; intros m H; simpl; [done|].
  apply IH. by apply wf_react.
Qed.

(** ** A run is at one place at a time *)

Lemma loops_apart_ext m m' k :
  (∀ f, f ∈ k -> run_of m' (frame_state f) = run_of m (frame_state f)) ->
  loops_apart m k -> loops_apart m' k.
Proof.
  induction k as [|f rest IH]; simpl; [done|].
  intros Hr [H1 H2]. split.
  - intros Hf g Hg Hgd. rewrite !Hr by (by constructor || by right).
    by apply H1.
  - apply IH; [|done]. intros g Hg. apply Hr. by right.
Qed.

Lemma run_of_insert m m' state st st' s :
  states m !! state = Some st ->
  oper_state st' = oper_state st ->
  states m' = <[state := st']> (states m) ->
  run_of m' s = run_of m s.
Proof.
  intros Hst E Hs. unfold run_of. rewrite Hs.
  destruct (decide (state = s)) as [->|].
  - rewrite list_lookup_insert_eq by (by eapply lookup_lt_Some).
    rewrite Hst. simpl. by rewrite E.
  - by rewrite list_lookup_insert_ne.
Qed.

Lemma one_place_insert m m' state st st' :
  one_place m ->
  states m !! state = Some st ->
  done st = false ->
  oper_state st' = oper_state st ->
  states m' = <[state := st']> (states m) ->
  (done st' = false ∧ stack m' = stack m)
  ∨ (done st' = true
     ∧ ∃ f, stack m' = f :: stack m ∧ is_done_loop f = true ∧ frame_state f = state) ->
  one_place m'.
Proof.
  intros [A B C] Hst Hd E Hs Hk.
  assert (∀ s, run_of m' s = run_of m s) as Hrun.
  { intros s. by eapply run_of_insert. }
  assert (∀ s x', states m' !! s = Some x' -> done x' = false ->
            ∃ x, states m !! s = Some x ∧ done x = false
                 ∧ oper_state x = oper_state x') as Hback.
  { intros s x'. rewrite Hs. intros [(-> & <- & _)|[? ?]]%list_lookup_insert_Some Hx.
    - exists st. by rewrite E.
    - by exists x'. }
  assert (∀ s x f, states m !! s = Some x -> done x = false -> f ∈ stack m ->
            is_done_loop f = true -> run_of m' (frame_state f) ≠ Some (oper_state x)) as B'.
  { intros. rewrite Hrun. by eapply B. }
  split.
  - intros s1 s2 x1 x2 H1 H2 D1 D2 Eo.
    destruct (Hback _ _ H1 D1) as (y1 & ? & ? & ?).
    destruct (Hback _ _ H2 D2) as (y2 & ? & ? & ?).
    eapply A; eauto. congruence.
  - intros s x f Hx Dx Hf Hfd.
    destruct (Hback _ _ Hx Dx) as (y & Hy & Dy & Ey). rewrite <- Ey.
    destruct Hk as [[_ Hk]|(Dt & f0 & Hk & Hf0 & Hs0)]; rewrite Hk in Hf.
    + by eapply B'.
    + apply elem_of_cons in Hf as [->|Hf]; [|by eapply B'].
      rewrite Hs0, Hrun. unfold run_of. rewrite Hst. simpl.
      intros [= Eq]. assert (state = s) as -> by (eapply A; eauto).
      rewrite Hs, list_lookup_insert_eq in Hx by (by eapply lookup_lt_Some).
      congruence.
  - destruct Hk as [[_ ->]|(Dt & f0 & -> & Hf0 & Hs0)].
    + eapply loops_apart_ext; [|done]. intros. apply Hrun.
    + simpl. split.
      * intros _ g Hg Hgd. rewrite !Hrun, Hs0. unfold run_of at 2. rewrite Hst. simpl.
        by eapply B.
      * eapply loops_apart_ext; [|done]. intros. apply Hrun.
Qed.

Lemma one_place_stack m m' :
  one_place m ->
  states m' = states m ->
  (stack m' = stack m
   ∨ ∃ f rest, stack m = f :: rest
       ∧ (stack m' = rest
          ∨ ∃ f', stack m' = f' :: rest ∧ frame_state f' = frame_state f
                  ∧ is_done_loop f' = is_done_loop f)) ->
  one_place m'.
Proof.
  intros [A B C] Hs Hk.
  assert (∀ s, run_of m' s = run_of m s) as Hrun.
  { intros s. unfold run_of. by rewrite Hs. }
  split.
  - rewrite Hs. apply A.
  - rewrite Hs. intros s x f Hx Dx Hf Hfd. rewrite Hrun.
    destruct Hk as [Hk|(f0 & rest & Hk & [Hk'|(f' & Hk' & F1 & F2)])].
    + rewrite Hk in Hf. by eapply B.
    + eapply B; eauto. rewrite Hk. right. by rewrite <- Hk'.
    + rewrite Hk' in Hf. apply elem_of_cons in Hf as [->|Hf].
      * rewrite F1. eapply (B s x f0); [done|done|rewrite Hk; by left|congruence].
      * eapply B; eauto. rewrite Hk. by right.
  - destruct Hk as [Hk|(f0 & rest & Hk & [Hk'|(f' & Hk' & F1 & F2)])].
    + rewrite Hk. eapply loops_apart_ext; [|done]. intros. apply Hrun.
    + rewrite Hk'. rewrite Hk in C. destruct C as [_ C].
      eapply loops_apart_ext; [|done]. intros. apply Hrun.
    + rewrite Hk'. rewrite Hk in C. destruct C as [C1 C2]. simpl. split.
      * intros Hd g Hg Hgd. rewrite !Hrun, F1. apply C1; congruence.
      * eapply loops_apart_ext; [|done]. intros. apply Hrun.
Qed.

Lemma run_of_started this os arr m s st :
  states m !! s = Some st -> run_of (started this os arr m) s = Some (oper_state st).
Proof.
  intros H. unfold run_of. simpl.
  rewrite lookup_app_l by (by eapply lookup_lt_Some). by rewrite H.
Qed.

Lemma frame_ok_run m f :
  frame_ok m f -> ∃ st, states m !! frame_state f = Some st.
Proof. destruct f; simpl; intros (st & ? & _); by exists st. Qed.

Lemma one_place_started oper this os arr m :
  wf oper m ->
  one_place m ->
  (∀ s st, states m !! s = Some st -> done st = false -> oper_state st ≠ os) ->
  (∀ f, f ∈ stack m -> is_done_loop f = true -> run_of m (frame_state f) ≠ Some os) ->
  one_place (started this os arr m).
Proof.
  intros Hwf [A B C] Hfresh Hfr.
  assert (∀ f, f ∈ stack m ->
            run_of (started this os arr m) (frame_state f) = run_of m (frame_state f))
    as Hrun.
  { intros f Hf. destruct Hwf as [_ W2 _].
    eapply Forall_forall in W2; [|done].
    destruct (frame_ok_run _ _ W2) as (st & Hst).
    rewrite (run_of_started _ _ _ _ _ _ Hst). unfold run_of. by rewrite Hst. }
  assert (∀ f, f ∈ stack (started this os arr m) -> is_done_loop f = true -> f ∈ stack m)
    as Hold.
  { simpl. intros f Hf Hd. destruct (serial this); [done|].
    apply elem_of_cons in Hf as [->|]; done. }
  split.
  - simpl. intros s1 s2 x1 x2 [[? H1]|[-> <-]]%lookup_snoc_Some
      [[? H2]|[-> <-]]%lookup_snoc_Some D1 D2 E; simpl in *.
    + eapply A; eauto.
    + by apply Hfresh in H1.
    + by apply Hfresh in H2.
    + done.
  - intros s x f Hx Dx Hf Hfd. apply Hold in Hf; [|done]. rewrite Hrun by done.
    simpl in Hx. apply lookup_snoc_Some in Hx as [[? Hx]|[-> <-]]; simpl.
    + by eapply B.
    + by apply Hfr.
  - assert (loops_apart (started this os arr m) (stack m)) as C'.
    { eapply loops_apart_ext; [|done]. done. }
    simpl. destruct (serial this); [done|]. simpl. done.
Qed.

Lemma one_place_transition oper m a m' :
  wf oper m -> one_place m -> transition oper m a m' -> one_place m'.
Proof.
  intros Hwf Hop Ht. destruct Ht.
  - done.
  - (* exec_first *)
    eapply one_place_started.
    + destruct Hwf as [W1 W2 W3]. split; simpl; [|done..].
      eapply Forall_impl; [apply W1|]. intros st. apply state_ok_opers. simpl.
      rewrite length_app. lia.
    + eapply one_place_stack; [done|done|by left].
    + simpl. intros s st Hst _. destruct Hwf as [W1 _ _].
      eapply Forall_lookup_1 in W1 as [W1 _]; [|done]. lia.
    + intros f Hf _. destruct Hwf as [W1 W2 _].
      eapply Forall_forall in W2; [|done].
      destruct (frame_ok_run _ _ W2) as (st & Hst).
      unfold run_of. simpl. rewrite Hst. simpl.
      eapply Forall_lookup_1 in W1 as [W1 _]; [|done]. intros [=]. lia.
  - eapply one_place_stack; [done|done|by left].
  - eapply one_place_stack; [done|done|by left].
  - eapply one_place_insert; [done|by eapply target_lookup|done| |simpl; reflexivity|];
      simpl; [done|]. right. split; [done|]. eexists. done.
  - eapply one_place_insert; [done|by eapply target_lookup|done| |simpl; reflexivity|];
      simpl; [done|]. left. done.
  - eapply one_place_insert; [done|by eapply target_lookup|done| |simpl; reflexivity|];
      simpl; [done|]. right. split; [done|]. eexists. done.
  - done.
  - eapply one_place_stack; [done|done|]. right. do 2 eexists. split; [done|].
    right. eexists. done.
  - eapply one_place_stack; [done|done|]. right. do 2 eexists. split; [done|].
    right. eexists. done.
  - eapply one_place_stack; [done|done|]. right. do 2 eexists. split; [done|]. by left.
  - eapply one_place_stack; [done|done|]. right. do 2 eexists. split; [done|]. by left.
  - eapply one_place_stack; [done|done|]. right. do 2 eexists. split; [done|].
    right. eexists. done.
  - eapply one_place_stack; [done|done|]. right. do 2 eexists. split; [done|].
    right. eexists. done.
  - eapply one_place_stack; [done|done|]. right. do 2 eexists. split; [done|]. by left.
  - eapply one_place_stack; [done|done|]. right. do 2 eexists. split; [done|]. by left.
  - eapply one_place_stack; [done|done|]. right. do 2 eexists. split; [done|]. by left.
  - (* tick_done_next *)
    destruct Hop as [A B C].
    eapply one_place_started.
    + eapply wf_intro; [done| | | |by left]; simpl.
      * apply evolves_same_states; simpl; [by rewrite length_insert|done].
      * eapply Forall_impl; [apply Hwf|]. intros x. apply state_ok_opers. simpl.
        by rewrite length_insert.
      * intros g Hg. left. rewrite H. by right.
    + eapply one_place_stack; [done|done|]. right. do 2 eexists. split; [done|]. by left.
    + simpl. intros s x Hx Dx Eo.
      eapply (B s x (DoneLoop this error state i il)); eauto.
      * rewrite H. by left.
      * simpl. unfold run_of. rewrite H0. simpl. by rewrite Eo.
    + simpl. intros g Hg Hgd. rewrite H in C. destruct C as [C _].
      specialize (C eq_refl g Hg Hgd). simpl in C.
      unfold run_of in C at 2. rewrite H0 in C. done.
Qed.

Lemma one_place_boot source : one_place (boot source).
Proof. split; simpl; [intros ? ? ? ? [=]|intros ? ? ? [=]|done]. Qed.

Lemma one_place_play oper s m :
  wf oper m -> one_place m -> wf oper (play oper s m) ∧ one_place (play oper s m).
Proof.
  revert m. induction s as [|a s IH]; intros m H1 H2; simpl; [done|].
  apply IH; [by apply wf_react|].
  eapply one_place_transition; [done|done|apply react_transition].
Qed.

(** ** The reactions, case by case *)

Lemma react_call_late oper m k error data state i st :
  target k m = Some (state, i, st) ->
  done st = true ->
  react oper m (Call k error data) =
  {| heap := written st i data (heap m); opers := opers m; states := states m;
     stack := stack m; trace := trace m ++ [Called k error data] |}.
Proof.
  intros Ht Hd. pose proof (react_transition oper m (Call k error data)) as H.
  inversion H; simplify_eq; try done; congruence.
Qed.

Lemma react_call_error oper m k error data state i st :
  target k m = Some (state, i, st) ->
  done st = false ->
  truthy error = true ->
  react oper m (Call k error data) =
  let h := written st i data (heap m) in
  {| heap := h ++ [AsyncArray (Some (default [] (h !! result st)))];
     opers := opers m;
     states := <[state := with_result (length h) (with_done true st)]> (states m);
     stack := DoneLoop (step st) error state 0 (length (callbacks (step st))) :: stack m;
     trace := trace m ++ [Called k error data] |}.
Proof.
  intros Ht Hd He. pose proof (react_transition oper m (Call k error data)) as H.
  inversion H; simplify_eq; try done; congruence.
Qed.

Lemma react_call_more oper m k error data state i st :
  target k m = Some (state, i, st) ->
  done st = false ->
  truthy error = false ->
  let h := written st i data (heap m) in
  let array := default [] (h !! input st) in
  S (count st) < length array ->
  react oper m (Call k error data) =
  {| heap := h; opers := opers m;
     states := <[state := with_count (S (count st)) st]> (states m);
     stack := stack m;
     trace := trace m ++ Called k error data ::
                if serial (step st)
                then [Worker state (callback (step st)) (aget array (S (count st)))
                        (S (count st)) (serialfn st)]
                else [] |}.
Proof.
  intros Ht Hd He h arr Hl. pose proof (react_transition oper m (Call k error data)) as H.
  inversion H; simplify_eq; try done; try congruence.
  subst h arr h0. lia.
Qed.

Lemma react_call_last oper m k error data state i st :
  target k m = Some (state, i, st) ->
  done st = false ->
  truthy error = false ->
  let h := written st i data (heap m) in
  length (default [] (h !! input st)) <= S (count st) ->
  react oper m (Call k error data) =
  {| heap := (finished st VNull h).1; opers := opers m;
     states := <[state := with_result (finished st VNull h).2
                            (with_done true (with_count (S (count st)) st))]>
                 (states m);
     stack := DoneLoop (step st) VNull state 0 (length (callbacks (step st))) :: stack m;
     trace := trace m ++ [Called k error data] |}.
Proof.
  intros Ht Hd He h Hl. pose proof (react_transition oper m (Call k error data)) as H.
  inversion H; simplify_eq; try done; try congruence.
  subst h h0 array0. lia.
Qed.

(** ** The first error of a run *)

Lemma callback_calls_app state t1 t2 :
  callback_calls state (t1 ++ t2) = callback_calls state t1 ++ callback_calls state t2.
Proof. apply omap_app. Qed.

Lemma callback_calls_none state t :
  (∀ f e r c, Callback state f e r c ∉ t) -> callback_calls state t = [].
Proof.
  induction t as [|e t IH]; intros H; [done|]. unfold callback_calls. simpl.
  destruct e as [| s f er r c |]; simpl.
  - apply IH. intros ???? Hin. eapply H. by right.
  - case_decide as Hs.
    + subst. exfalso. eapply H. by left.
    + apply IH. intros ???? Hin. eapply H. by right.
  - apply IH. intros ???? Hin. eapply H. by right.
Qed.

Lemma callback_calls_active oper m state st :
  wf oper m -> states m !! state = Some st -> done st = false ->
  callback_calls state (trace m) = [].
Proof.
  intros [_ _ W3] Hst Hd. apply callback_calls_none. intros f e r c Hin.
  eapply Forall_forall in W3; [|done]. simpl in W3.
  destruct W3 as (st' & Hst' & Hd' & _). congruence.
Qed.

Lemma loop_index_none state k :
  (∀ g, g ∈ k -> is_done_loop g = true -> frame_state g ≠ state) ->
  loop_index state k = None.
Proof.
  induction k as [|f rest IH]; intros H; [done|]. simpl.
  destruct f as [|this e s i il].
  - apply IH. intros g Hg. apply H. by right.
  - case_decide as Hs.
    + subst. exfalso. by eapply (H (DoneLoop this e state i il)); [left| |].
    + apply IH. intros g Hg. apply H. by right.
Qed.



Lemma run_of_Some m s st : states m !! s = Some st -> run_of m s = Some (oper_state st).
Proof. intros H. unfold run_of. by rewrite H. Qed.



Lemma elem_of_snoc_callback (t : list event) e s f er r c :
  Callback s f er r c ∈ t ++ [e] ->
  (∀ s f er r c, e ≠ Callback s f er r c) ->
  Callback s f er r c ∈ t.
Proof.
  intros [H|H%list_elem_of_singleton]%elem_of_app Hne; [done|]. by edestruct Hne.
Qed.

Lemma callback_calls_snoc_other state t e :
  (∀ f er r c, e ≠ Callback state f er r c) ->
  callback_calls state (t ++ [e]) = callback_calls state t.
Proof.
  intros H. rewrite callback_calls_app. simpl.
  destruct e as [| s f er r c|]; simpl; rewrite ?app_nil_r; try done.
  case_decide; [subst; by edestruct H|by rewrite app_nil_r].
Qed.

Lemma failed_target_apart state st1 error t0 n0 o0 m k sid i st :
  failed state st1 error t0 n0 o0 m ->
  target k m = Some (sid, i, st) ->
  done st = false ->
  sid ≠ state ∧ oper_state st ≠ oper_state st1.
Proof.
  intros Hf Ht Hd. apply target_lookup in Ht. split.
  - intros ->. destruct Hf as [F1 _ F3 _ _ _ _ _]. congruence.
  - intros E. destruct (failed_dead _ _ _ _ _ _ _ Hf _ _ Ht E). congruence.
Qed.







Lemma expected_calls_lookup this error r i f :
  callbacks this !! i = Some f ->
  expected_calls this error r !! i = Some (f, error, r).
Proof. intros H. unfold expected_calls. by rewrite list_lookup_fmap, H. Qed.








(** ** Arrays do not shrink *)

Lemma sort_insert_length f x l : length (sort_insert f x l) = S (length l).
Proof.
  induction l as [|y l IH]; simpl; [done|]. case_decide; simpl; [done|]. by rewrite IH.
Qed.

Lemma sort_values_length f l : length (sort_values f l) = length l.
Proof.
  induction l as [|x l IH]; simpl; [done|].
  rewrite sort_insert_length. f_equal. apply IH.
Qed.

Lemma asort_length f (a : jsarray) : length (asort f a) = length a.
Proof.
  unfold asort. rewrite !length_app, length_map, sort_values_length.
  induction a as [|o a IH]; [done|].
  rewrite !filter_cons.
  unfold omap in *.
  destruct o as [v|]; [destruct v|]; simpl in *; repeat case_decide; simplify_eq;
    simpl in *; lia.
Qed.

Lemma aset_length (a : jsarray) i v : length a <= length (aset a i v).
Proof.
  unfold aset. case_decide.
  - by rewrite length_insert.
  - rewrite length_app. lia.
Qed.

Lemma lookup_default_insert_length (h : list jsarray) r r' a :
  length (default [] (h !! r')) <= length a ->
  length (default [] (h !! r)) <= length (default [] (<[r' := a]> h !! r)).
Proof.
  intros Hl. destruct (decide (r' = r)) as [->|].
  - destruct (decide (r < length h)).
    + by rewrite list_lookup_insert_eq.
    + by rewrite list_insert_ge by lia.
  - by rewrite list_lookup_insert_ne.
Qed.

Lemma lookup_default_app_length (h k : list jsarray) r :
  length (default [] (h !! r)) <= length (default [] ((h ++ k) !! r)).
Proof.
  destruct (decide (r < length h)).
  - by rewrite lookup_app_l.
  - rewrite (lookup_ge_None_2 h) by lia. simpl. lia.
Qed.

Lemma written_grows st i data h r :
  length (default [] (h !! r)) <= length (default [] (written st i data h !! r)).
Proof.
  unfold written. destruct (prototype (step st)); [done| |].
  - apply lookup_default_insert_length.
    destruct (done st); [unfold oset; by rewrite length_insert|apply aset_length].
  - destruct (is_true data); [|done].
    apply lookup_default_insert_length. unfold apush. rewrite length_app. lia.
Qed.

Lemma finished_grows st error h r :
  length (default [] (h !! r)) <= length (default [] ((finished st error h).1 !! r)).
Proof.
  unfold finished. case_decide; simpl.
  - etrans; [|apply lookup_default_app_length].
    apply lookup_default_insert_length. by rewrite asort_length.
  - apply lookup_default_app_length.
Qed.

Lemma transition_heap_grows oper m a m' r :
  transition oper m a m' -> length (contents r m) <= length (contents r m').
Proof.
  unfold contents. destruct 1; simpl; try done;
    try apply lookup_default_app_length; try apply written_grows.
  - etrans; [apply (written_grows st i data)|]. apply lookup_default_app_length.
  - etrans; [apply (written_grows st i data)|]. apply finished_grows.
Qed.

(** ** A serial step takes its elements in order, one at a time *)

Lemma prefix_snoc_inv {A} (p l : list A) x :
  p `prefix_of` l ++ [x] -> p `prefix_of` l ∨ p = l ++ [x].
Proof.
  intros [k Hk]. destruct k as [|y k _] using rev_ind.
  - right. by rewrite app_nil_r in Hk.
  - left. rewrite app_assoc in Hk. apply app_inj_tail in Hk as [-> _]. by exists k.
Qed.

Lemma worker_calls_app state t1 t2 :
  worker_calls state (t1 ++ t2) = worker_calls state t1 ++ worker_calls state t2.
Proof. apply omap_app. Qed.

Lemma completions_app state t1 t2 :
  completions state (t1 ++ t2) = completions state t1 + completions state t2.
Proof. unfold completions. by rewrite omap_app, length_app. Qed.

Lemma one_in_flight_snoc state t e :
  one_in_flight state t ->
  length (worker_calls state (t ++ [e])) <= S (completions state (t ++ [e])) ->
  one_in_flight state (t ++ [e]).
Proof.
  intros H He p [Hp| ->]%prefix_snoc_inv; [by apply H|done].
Qed.

Lemma worker_calls_snoc_other state t e :
  no_worker state e -> worker_calls state (t ++ [e]) = worker_calls state t.
Proof.
  intros H. rewrite worker_calls_app. destruct e; simpl in *; rewrite ?app_nil_r; try done.
  by rewrite decide_False, app_nil_r.
Qed.

Lemma one_in_flight_snoc_other state t e :
  no_worker state e -> one_in_flight state t -> one_in_flight state (t ++ [e]).
Proof.
  intros He H. apply one_in_flight_snoc; [done|].
  rewrite worker_calls_snoc_other, completions_app by done.
  specialize (H t (reflexivity _)). lia.
Qed.

Lemma worker_calls_others state t :
  Forall (no_worker state) t -> worker_calls state t = [].
Proof.
  induction 1 as [|e t He _ IH]; [done|].
  change (e :: t) with ([e] ++ t). rewrite worker_calls_app, IH, app_nil_r.
  destruct e; simpl in *; try done. by rewrite decide_False.
Qed.

Lemma completions_others state t :
  Forall (no_worker state) t ->
  ∀ p, p `prefix_of` t -> worker_calls state p = [].
Proof.
  intros H p [k ->]. apply Forall_app in H as [H _]. by apply worker_calls_others.
Qed.

Lemma serial_ok_step m m' state st st' es :
  serial_ok m state st ->
  trace m' = trace m ++ es ->
  Forall (no_worker state) es ->
  input st' = input st ->
  count st <= count st' ->
  (done st' = false -> done st = false ∧ count st' = count st) ->
  count st' <= count st + completions state es ->
  (∀ r, length (contents r m) <= length (contents r m')) ->
  serial_ok m' state st'.
Proof.
  intros [S1 S2 S3 S4 S5 S6] Ht Hes Hin Hc Hd Hf Hh.
  assert (worker_calls state (trace m') = worker_calls state (trace m)) as Hw.
  { by rewrite Ht, worker_calls_app, (worker_calls_others _ es), app_nil_r. }
  split; rewrite ?Hw; try done.
  - intros Hd'. destruct (Hd Hd') as [? ->]. by apply S2.
  - lia.
  - rewrite Ht, completions_app. lia.
  - rewrite Ht. clear Ht Hf Hw. induction es as [|e es IH] using rev_ind.
    + by rewrite app_nil_r.
    + apply Forall_app in Hes as [Hes He%Forall_inv].
      rewrite app_assoc. apply one_in_flight_snoc_other; [done|]. by apply IH.
  - rewrite Hin. specialize (Hh (input st)). lia.
Qed.

Lemma serial_inv_quiet m m' es :
  serial_inv m ->
  states m' = states m ->
  trace m' = trace m ++ es ->
  (∀ state st, states m !! state = Some st -> serial (step st) = true ->
               Forall (no_worker state) es) ->
  (∀ r, length (contents r m) <= length (contents r m')) ->
  serial_inv m'.
Proof.
  intros Hinv Hs Ht Hes Hh state st Hst Hser. rewrite Hs in Hst.
  eapply serial_ok_step; eauto; lia.
Qed.

Lemma target_cont_state k m state i st :
  target k m = Some (state, i, st) -> cont_state k = state.
Proof.
  unfold target. destruct k; simpl; destruct (states m !! _); simpl; congruence.
Qed.

Lemma completions_called state k error data :
  cont_state k = state -> completions state [Called k error data] = 1.
Proof. intros H. unfold completions. simpl. by rewrite decide_True. Qed.

(** A call that latches or counts, but calls no worker of a serial
    step. *)
Lemma serial_inv_insert m m' k error data sid i st st' :
  serial_inv m ->
  target k m = Some (sid, i, st) ->
  states m' = <[sid := st']> (states m) ->
  step st' = step st -> input st' = input st ->
  count st <= count st' <= S (count st) -> done st' = true ->
  trace m' = trace m ++ [Called k error data] ->
  (∀ r, length (contents r m) <= length (contents r m')) ->
  serial_inv m'.
Proof.
  intros Hinv Ht Hs E1 E2 Hc Hd Htr Hh state x Hx Hser.
  pose proof (target_lookup _ _ _ _ _ Ht) as Hst.
  rewrite Hs in Hx. apply list_lookup_insert_Some in Hx as [(<- & <- & _)|[Hne Hx]].
  - eapply (serial_ok_step m m' sid st st' [Called k error data]);
      [apply Hinv; [done|congruence]|done|by apply Forall_singleton|done|lia|
       congruence| |done].
    rewrite completions_called by (by eapply target_cont_state). lia.
  - eapply (serial_ok_step m m' state x x [Called k error data]);
      [by apply Hinv|done|by apply Forall_singleton|done|lia|done|lia|done].
Qed.

Lemma serial_inv_more m m' k error data sid i st :
  serial_inv m ->
  target k m = Some (sid, i, st) ->
  done st = false ->
  S (count st) < length (contents (input st) m') ->
  states m' = <[sid := with_count (S (count st)) st]> (states m) ->
  trace m' = trace m ++ Called k error data ::
               (if serial (step st)
                then [Worker sid (callback (step st))
                        (aget (contents (input st) m') (S (count st)))
                        (S (count st)) (serialfn st)]
                else []) ->
  (∀ r, length (contents r m) <= length (contents r m')) ->
  serial_inv m'.
Proof.
  intros Hinv Ht Hd Hl Hs Htr Hh state x Hx Hser.
  pose proof (target_lookup _ _ _ _ _ Ht) as Hst.
  rewrite Hs in Hx. apply list_lookup_insert_Some in Hx as [(<- & <- & _)|[Hne Hx]].
  - simpl in Hser. rewrite Hser in Htr.
    destruct (Hinv _ _ Hst Hser) as [S1 S2 S3 S4 S5 S6]. specialize (S2 Hd).
    assert (worker_calls sid (trace m')
            = worker_calls sid (trace m) ++ [S (count st)]) as Hw.
    { rewrite Htr, worker_calls_app. simpl. by rewrite decide_True. }
    assert (completions sid (trace m') = S (completions sid (trace m))) as Hc.
    { rewrite Htr, completions_app. unfold completions at 2. simpl.
      rewrite decide_True by (by eapply target_cont_state). simpl. lia. }
    split; rewrite ?Hw, ?Hc, ?length_app; simpl.
    + rewrite S1 at 1. rewrite S2. replace (S (count st) + 1) with (S (S (count st))) by lia.
      by rewrite (seq_S (S (count st))).
    + lia.
    + lia.
    + lia.
    + rewrite Htr.
      change (trace m ++ [Called k error data; ?w])
        with (trace m ++ [Called k error data] ++ [w]).
      rewrite app_assoc. apply one_in_flight_snoc.
      * by apply one_in_flight_snoc_other.
      * rewrite <- app_assoc. simpl. rewrite <- Htr, Hw, Hc, length_app. simpl. lia.
    + lia.
  - eapply (serial_ok_step m m' state x x); [by apply Hinv|done| |done|lia|done|lia|done].
    apply Forall_cons. split; [done|].
    destruct (serial (step st)); [|done]. apply Forall_singleton. simpl. done.
Qed.

Lemma serial_inv_started oper this os arr m :
  wf oper m -> serial_inv m -> serial_inv (started this os arr m).
Proof.
  intros Hwf Hinv state x Hx Hser. simpl in Hx.
  assert (∀ r, length (contents r m) <= length (contents r (started this os arr m)))
    as Hh.
  { intros r. unfold contents. simpl. apply lookup_default_app_length. }
  apply lookup_snoc_Some in Hx as [[Hlt Hx]|[-> <-]].
  - eapply (serial_ok_step m _ state x x
              (if serial this then [Worker (length (states m)) (callback this)
                 (aget (contents arr m) 0) 0 (Some (Serialfn (length (states m))))]
               else []));
      [by apply Hinv| | |done|lia|done|lia|done].
    + simpl. destruct (serial this); [done|by rewrite app_nil_r].
    + destruct (serial this); [|done]. apply Forall_singleton. simpl. lia.
  - simpl in Hser.
    assert (Forall (no_worker (length (states m))) (trace m)) as Hnone.
    { destruct Hwf as [_ _ W3]. eapply Forall_impl; [done|].
      intros [s ? ? ? ?| |]; simpl; [|done..].
      intros (st & Hst & _) ->. apply lookup_lt_Some in Hst. lia. }
    assert (worker_calls (length (states m))
              (trace m ++ [Worker (length (states m)) (callback this)
                             (aget (contents arr m) 0) 0
                             (Some (Serialfn (length (states m))))]) = [0]) as Hw.
    { rewrite worker_calls_app, worker_calls_others by done. simpl.
      by rewrite decide_True. }
    split; simpl; rewrite ?Hser, ?Hw; simpl; try done; try lia.
    apply one_in_flight_snoc.
    + intros p Hp. rewrite (completions_others _ _ Hnone p Hp). simpl. lia.
    + rewrite Hw. simpl. lia.
Qed.

Lemma wf_base oper m m' :
  wf oper m ->
  states m' = states m -> trace m' = trace m ->
  length (opers m) <= length (opers m') ->
  (∀ f, f ∈ stack m' -> f ∈ stack m) ->
  wf oper m'.
Proof.
  intros Hwf Hs Ht Ho Hk.
  eapply wf_intro; [done| | | |].
  - by apply evolves_same_states.
  - rewrite Hs. eapply Forall_impl; [apply Hwf|]. intros x. by apply state_ok_opers.
  - intros f Hf. left. by apply Hk.
  - intros e He. left. by rewrite <- Ht.
Qed.

Lemma serial_inv_same m m' :
  serial_inv m ->
  states m' = states m -> trace m' = trace m -> heap m' = heap m ->
  serial_inv m'.
Proof.
  intros Hinv Hs Ht Hh. eapply (serial_inv_quiet m m' []); [done|done| |done|].
  - by rewrite app_nil_r.
  - intros r. unfold contents. by rewrite Hh.
Qed.

Lemma serial_transition oper m a m' :
  wf oper m -> serial_inv m -> transition oper m a m' -> serial_inv m'.
Proof.
  intros Hwf Hinv Ht.
  pose proof (fun r => transition_heap_grows oper m a m' r Ht) as Hh.
  destruct Ht.
  - done.
  - (* exec_first *)
    apply (serial_inv_started oper).
    + eapply wf_base; [done|done|done| |done]. simpl. rewrite length_app. lia.
    + by eapply serial_inv_same.
  - eapply (serial_inv_quiet m _ [Called k error data]); [done|done|done| |done].
    intros. by apply Forall_singleton.
  - eapply (serial_inv_quiet m _ [Called k error data]); [done|done|done| |done].
    intros. by apply Forall_singleton.
  - (* call_error *)
    eapply serial_inv_insert; [done|done|simpl; reflexivity|done|done| |done|done|done].
    simpl. lia.
  - (* call_more *)
    eapply serial_inv_more; [done|done|done| |simpl; reflexivity|done|done].
    done.
  - (* call_last *)
    eapply serial_inv_insert; [done|done|simpl; reflexivity|done|done| |done|done|done].
    simpl. lia.
  - done.
  - (* tick_each_visit *)
    eapply (serial_inv_quiet m _ [Worker state (callback s) v i (Some (Each state i))]);
      [done|done|done| |done].
    intros state' st' Hst' Hser. apply Forall_singleton. simpl. intros ->.
    destruct Hwf as [_ W2 _]. rewrite H in W2.
    apply Forall_cons in W2 as [(st & Hst & <- & Hpar) _]. congruence.
  - by eapply serial_inv_same.
  - by eapply serial_inv_same.
  - by eapply serial_inv_same.
  - eapply (serial_inv_quiet m _ [Callback state f error (result st)
                                    (contents (result st) m)]);
      [done|done|done| |done].
    intros. by apply Forall_singleton.
  - by eapply serial_inv_same.
  - by eapply serial_inv_same.
  - by eapply serial_inv_same.
  - by eapply serial_inv_same.
  - (* tick_done_next *)
    apply (serial_inv_started oper).
    + eapply wf_base; [done|done|done| |]; simpl.
      * by rewrite length_insert.
      * intros g Hg. rewrite H. by right.
    + by eapply serial_inv_same.
Qed.

Lemma serial_inv_boot source : serial_inv (boot source).
Proof. intros state st [=]. Qed.

Lemma serial_inv_play oper s m :
  wf oper m -> serial_inv m -> serial_inv (play oper s m).
Proof.
  revert m. induction s as [|a s IH]; intros m H1 H2; simpl; [done|].
  apply IH; [by apply wf_react|].
  eapply (serial_transition oper m); [done|done|apply react_transition].
Qed.

Lemma worker_calls_prefix state p t :
  p `prefix_of` t -> worker_calls state p `prefix_of` worker_calls state t.
Proof. intros [k ->]. rewrite worker_calls_app. by eexists. Qed.

Lemma prefix_seq (l : list nat) n :
  l `prefix_of` seq 0 n -> l = seq 0 (length l).
Proof.
  intros [k Hk].
  assert (length l <= n) as Hl.
  { apply (f_equal length) in Hk. rewrite length_seq, length_app in Hk. lia. }
  replace n with (length l + (n - length l)) in Hk by lia.
  rewrite seq_app in Hk. apply app_inj_1 in Hk as [Hk _]; [done|by rewrite length_seq].
Qed.

(** C8.  A serial step calls its worker for the first element without
    looking at the length of its input: [exec] on a chain whose first
    step is serial, over the empty sequence, calls the worker once, for
    the index 0 and with [undefined], where there is no index below the
    length to call it for. *)
Theorem serial_step_over_nothing oper first arguments :
  steps oper !! 0 = Some first ->
  array oper = 0 ->
  serial first = true ->
  let m := react oper (boot (items [])) (Exec arguments) in
  trace m = [Worker 0 (callback first) VUndefined 0 (Some (Serialfn 0))]
  ∧ worker_calls 0 (trace m) = [0]
  ∧ length (contents (array oper) m) = 0.
Proof.
  intros Hf Ha Hs. simpl. unfold Operation_exec, OperState_new. simpl.
  rewrite Hf, Ha. simpl. rewrite Step_run_started. unfold started. simpl.
  rewrite Hs. simpl. done.
Qed.

(** ** The chains of [test.js], run *)

(** C1.  A serial filter hands its completion callbacks the indices of
    the kept elements, not the elements: for [[1, 2, "three", 4]] and a
    worker that keeps what is no string, the callback is given
    [[0, 1, 3]]. *)
Theorem serial_filter_gives_indices :
  trace (play filterSerial_chain (Exec [] :: keep_non_strings ++ [Tick; Tick])
           (boot (items test_items)))
  = [Worker 0 "worker" (VNum 1) 0 (Some (Serialfn 0));
     Called (Serialfn 0) VNull (VBool true);
     Worker 0 "worker" (VNum 2) 1 (Some (Serialfn 0));
     Called (Serialfn 0) VNull (VBool true);
     Worker 0 "worker" (VStr "three") 2 (Some (Serialfn 0));
     Called (Serialfn 0) VUndefined VUndefined;
     Worker 0 "worker" (VNum 4) 3 (Some (Serialfn 0));
     Called (Serialfn 0) VNull (VBool true);
     Callback 0 "log" VNull 2 [Some (VNum 0); Some (VNum 1); Some (VNum 3)]].
Proof. reflexivity. Qed.

(** C2.  A for-each step that completes hands its completion callbacks,
    and the next step, a new empty array, not its input: the [[]] that
    [Step.prototype.run] passes as the result always wins over the
    [result || array] of [StepState].  The map step that follows is run
    over the empty array, calls no worker and never completes. *)
Theorem forEach_result_is_empty :
  let m := play forEach_map_chain
             (Exec [] :: replicate 5 Tick ++ all_succeed ++ replicate 4 Tick)
             (boot (items test_items)) in
  trace m
    = [Worker 0 "worker" (VNum 1) 0 (Some (Each 0 0));
       Worker 0 "worker" (VNum 2) 1 (Some (Each 0 1));
       Worker 0 "worker" (VStr "three") 2 (Some (Each 0 2));
       Worker 0 "worker" (VNum 4) 3 (Some (Each 0 3));
       Called (Each 0 3) VNull VUndefined; Called (Each 0 2) VNull VUndefined;
       Called (Each 0 1) VNull VUndefined; Called (Each 0 0) VNull VUndefined;
       Callback 0 "log" VNull 2 []]
  ∧ (input <$> states m !! 1) = Some 2
  ∧ contents 2 m = []
  ∧ contents 0 m = map Some test_items
  ∧ worker_calls 1 (trace m) = []
  ∧ stack m = [].
Proof. vm_compute. repeat split. Qed.

(** C5.  Over the empty sequence a parallel for-each calls no worker, so
    that there is no continuation to call, and its completion callback
    is never called: nothing is ever called, whatever the number of turns
    of the loop.  A serial for-each over the empty sequence calls its
    worker once, for the index 0. *)
Theorem forEach_of_nothing :
  (∀ n, trace (play forEach_chain (Exec [] :: replicate n Tick) (boot (items [])))
        = [])
  ∧ trace (play forEachSerial_chain [Exec []] (boot (items [])))
    = [Worker 0 "worker" VUndefined 0 (Some (Serialfn 0))].
Proof.
  split; [|reflexivity].
  intros n. destruct n as [|n]; [reflexivity|].
  simpl replicate. change (Exec [] :: Tick :: replicate n Tick)
    with ([Exec []; Tick] ++ replicate n Tick).
  rewrite play_app.
  set (m := play forEach_chain [Exec []; Tick] (boot (items []))).
  assert (stack m = [] ∧ trace m = []) as [Hk Ht] by (by vm_compute).
  clearbody m. induction n as [|n IH]; [done|].
  simpl. unfold tick at 1. rewrite Hk. apply IH.
Qed.

(** C7.  A continuation that is called after its step has latched is not
    ignored by a map or a filter step: [Map.prototype.next] and
    [Filter.prototype.next] write before [Step.prototype.next] looks at
    the latch.  For a map whose workers answer out of order, the result
    the completion callback was given as [[undefined, undefined,
    undefined, 4]] becomes [[1, undefined, undefined, 4]]; for a filter
    whose second worker answers twice, the result given as [[1, 2,
    'three', 4]] becomes [[1, 2, 'three', 4, 1]].  The count, the latch
    and the reference of the result stay. *)
Theorem late_completion_writes_the_result :
  let m1 := play map_chain map_out_of_order (boot (items test_items)) in
  let m2 := react map_chain m1 late_first in
  let f1 := play filter_chain filter_keeps_all (boot (items test_items)) in
  let f2 := react filter_chain f1 late_again in
  ((done <$> states m1 !! 0) = Some true
   ∧ callback_calls 0 (trace m1) = [("log", VError "stupid", 2)]
   ∧ contents 2 m1 = [Some VUndefined; Some VUndefined; Some VUndefined; Some (VNum 4)]
   ∧ contents 2 m2 = [Some (VNum 1); Some VUndefined; Some VUndefined; Some (VNum 4)]
   ∧ states m2 = states m1 ∧ stack m2 = stack m1 ∧ opers m2 = opers m1)
  ∧ ((done <$> states f1 !! 0) = Some true
     ∧ callback_calls 0 (trace f1) = [("log", VNull, 3)]
     ∧ contents 3 f1 = [Some (VNum 1); Some (VNum 2); Some (VStr "three"); Some (VNum 4)]
     ∧ contents 3 f2 = [Some (VNum 1); Some (VNum 2); Some (VStr "three"); Some (VNum 4);
                        Some (VNum 1)]
     ∧ states f2 = states f1 ∧ stack f2 = stack f1 ∧ opers f2 = opers f1).
Proof. vm_compute. repeat split. Qed.


Lemma serial_step_over_nothing_witness :
  let m := react filterSerial_chain (boot (items [])) (Exec []) in
  trace m = [Worker 0 "worker" VUndefined 0 (Some (Serialfn 0))]
  ∧ worker_calls 0 (trace m) = [0]
  ∧ length (contents 0 m) = 0.
Proof.
  apply (serial_step_over_nothing filterSerial_chain
           {| prototype := FilterProto; callbacks := ["log"]; callback := "worker";
              serial := true |} []); reflexivity.
Defined.

(** ** The arguments of [exec] *)

Lemma acquainted_started known oper this os arr m :
  this ∈ steps oper ->
  acquainted known oper m -> acquainted known oper (started this os arr m).
Proof.
  intros Hin [A1 A2 A3 A4].
  assert (callbacks this ⊆ known) as Hthis by (by eapply Forall_forall in A1).
  split; simpl; [done| | |].
  - apply Forall_app. split; [done|]. by constructor.
  - destruct (serial this); [done|]. by constructor.
  - destruct (serial this); [|done]. apply Forall_app. split; [done|]. by repeat constructor.
Qed.

Lemma acquainted_transition known oper m a m' :
  acquainted known oper m -> transition oper m a m' -> acquainted known oper m'.
Proof.
  intros A Ht.
  assert (∀ state st, states m !! state = Some st -> callbacks (step st) ⊆ known) as Hst.
  { intros state st H. destruct A as [_ A2 _ _]. by eapply Forall_lookup_1 in A2. }
  assert (∀ k state i st, target k m = Some (state, i, st) -> callbacks (step st) ⊆ known)
    as Htg.
  { intros k state i st H%target_lookup. by eapply Hst. }
  destruct Ht; try done.
  - apply acquainted_started; [by eapply list_elem_of_lookup_2|].
    by destruct A.
  - destruct A as [A1 A2 A3 A4]. split; simpl; try done.
    apply Forall_app. by split; [|repeat constructor].
  - destruct A as [A1 A2 A3 A4]. split; simpl; try done.
    apply Forall_app. by split; [|repeat constructor].
  - destruct A as [A1 A2 A3 A4]. split; simpl; try done.
    + apply Forall_insert; [done|]. simpl. by eapply Htg.
    + constructor; [|done]. simpl. by eapply Htg.
    + apply Forall_app. by split; [|repeat constructor].
  - destruct A as [A1 A2 A3 A4]. split; simpl; try done.
    + apply Forall_insert; [done|]. simpl. by eapply Htg.
    + apply Forall_app. split; [done|]. constructor; [done|].
      destruct (serial (step st)); by repeat constructor.
  - destruct A as [A1 A2 A3 A4]. split; simpl; try done.
    + apply Forall_insert; [done|]. simpl. by eapply Htg.
    + constructor; [|done]. simpl. by eapply Htg.
    + apply Forall_app. by split; [|repeat constructor].
  - destruct A as [A1 A2 A3 A4]. rewrite H in A3. apply Forall_cons in A3 as [A30 A3].
    split; simpl; try done.
    + by constructor.
    + apply Forall_app. by split; [|repeat constructor].
  - destruct A as [A1 A2 A3 A4]. rewrite H in A3. apply Forall_cons in A3 as [A30 A3].
    split; simpl; try done. by constructor.
  - destruct A as [A1 A2 A3 A4]. rewrite H in A3. apply Forall_cons in A3 as [A30 A3].
    split; simpl; done.
  - destruct A as [A1 A2 A3 A4]. rewrite H in A3. apply Forall_cons in A3 as [A30 A3].
    split; simpl; done.
  - destruct A as [A1 A2 A3 A4]. rewrite H in A3. apply Forall_cons in A3 as [A30 A3].
    split; simpl; try done.
    + by constructor.
    + apply Forall_app. split; [done|]. constructor; [|done]. simpl in A30.
      apply A30. by eapply list_elem_of_lookup_2.
  - destruct A as [A1 A2 A3 A4]. rewrite H in A3. apply Forall_cons in A3 as [A30 A3].
    split; simpl; try done. by constructor.
  - destruct A as [A1 A2 A3 A4]. rewrite H in A3. apply Forall_cons in A3 as [A30 A3].
    split; simpl; done.
  - destruct A as [A1 A2 A3 A4]. rewrite H in A3. apply Forall_cons in A3 as [A30 A3].
    split; simpl; done.
  - destruct A as [A1 A2 A3 A4]. rewrite H in A3. apply Forall_cons in A3 as [A30 A3].
    split; simpl; done.
  - destruct A as [A1 A2 A3 A4]. rewrite H in A3. apply Forall_cons in A3 as [A30 A3].
    apply acquainted_started; [by eapply list_elem_of_lookup_2|].
    split; simpl; done.
Qed.

Lemma acquainted_done known cb oper m :
  cb ∈ known ->
  acquainted known oper m ->
  acquainted known (Operation_done_running cb oper m).1 (Operation_done_running cb oper m).2.
Proof.
  intros Hcb [A1 A2 A3 A4]. unfold Operation_done_running, Operation_done.
  destruct (Operation_lastStep oper) as [s|] eqn:E; simpl; [|done].
  assert (∀ s, callbacks s ⊆ known -> callbacks (push_callback cb s) ⊆ known) as Hpush.
  { intros s' Hs' f [Hf|Hf%list_elem_of_singleton]%elem_of_app; [by apply Hs'|by subst]. }
  split; simpl.
  - apply Forall_insert; [done|]. apply (Hpush s).
    unfold Operation_lastStep in E. destruct (length (steps oper)); [done|].
    by eapply Forall_lookup_1 in A1.
  - apply Forall_lookup. intros state st. rewrite list_lookup_imap.
    destruct (states m !! state) as [st0|] eqn:E0; simpl; [|done].
    intros [= <-]. eapply Forall_lookup_1 in A2; [|done].
    case_decide; [by apply Hpush|done].
  - apply Forall_fmap. eapply Forall_impl; [exact A3|]. intros f Hf. simpl.
    case_decide; [|done]. destruct f; simpl in *; by apply Hpush.
  - done.
Qed.

Lemma acquainted_session known cmds om :
  Forall (fun c => match c with Done cb => cb ∈ known | _ => True end) cmds ->
  acquainted known om.1 om.2 ->
  acquainted known (session cmds om).1 (session cmds om).2.
Proof.
  revert om. induction cmds as [|c cmds IH]; intros om Hc A; [done|].
  apply Forall_cons in Hc as [Hc0 Hc]. simpl. apply IH; [done|].
  destruct c as [a|cb|p callback ser]; simpl.
  - eapply acquainted_transition; [done|apply react_transition].
  - by apply acquainted_done.
  - destruct A as [A1 A2 A3 A4]. split; simpl; try done.
    apply Forall_app. split; [done|]. constructor; [|done]. simpl.
    intros f Hf. by apply elem_of_nil in Hf.
Qed.

Lemma obey_without_arguments om c : obey om (without_arguments c) = obey om c.
Proof. by destruct c as [[]| |]. Qed.

(** C10, as the code has it.  Whatever is passed to [exec], the chain
    behaves as if nothing was: the chain and the machine after any
    commands are the same.  And the completion callbacks that are called
    are those that were registered, on the chain as it was built or by a
    call of [done] since, before the call of [exec] or after it: a
    function that was passed to [exec] is not called unless it was
    registered too. *)
Theorem exec_arguments_are_inert chain source cmds :
  session (without_arguments <$> cmds) (chain, boot source)
  = session cmds (chain, boot source)
  ∧ ∀ state f error r c,
      Callback state f error r c ∈ trace (session cmds (chain, boot source)).2 ->
      f ∈ registered chain cmds.
Proof.
  split.
  - generalize (chain, boot source). induction cmds as [|c cmds IH]; intros om; [done|].
    simpl. by rewrite obey_without_arguments, IH.
  - intros state f error r c Hin.
    assert (acquainted (registered chain cmds) (session cmds (chain, boot source)).1
              (session cmds (chain, boot source)).2) as [_ _ _ A].
    { apply acquainted_session.
      - apply Forall_forall. intros [a|cb|p cbk ser] Hc; [done| |done].
        unfold registered. apply elem_of_app. right.
        apply list_elem_of_omap. by exists (Done cb).
      - split; simpl; try by constructor.
        apply Forall_forall. intros s Hs f' Hf'. unfold registered.
        apply elem_of_app. left. apply list_elem_of_bind. by exists s. }
    by eapply Forall_forall in A; [|exact Hin].
Qed.

(** C10 as stated fails: a completion callback that is registered after
    the call of [exec], and before the step is done, is called. *)
Lemma late_registration_is_called : ¬ observed_by_earlier_registrations_only.
Proof.
  intros H.
  specialize (H (Operation_map "worker" (Operation_new 0)) (items test_items) [] []
                late_registration 0 "late" VNull 2
                [Some (VNum 1); Some (VNum 2); Some (VNum 3); Some (VNum 4)]).
  simpl app in H.
  assert ("late" ∈ registered (Operation_map "worker" (Operation_new 0)) []) as Hin.
  { apply H; [by repeat constructor|]. vm_compute. do 8 apply list_elem_of_further.
    apply list_elem_of_here. }
  vm_compute in Hin. by apply elem_of_nil in Hin.
Qed.

(** ** A step that completes *)

Lemma Callback_not_in_snoc (t : list event) e0 s f e r c :
  (∀ f e r c, Callback s f e r c ∉ t) ->
  (∀ f e r c, e0 ≠ Callback s f e r c) ->
  Callback s f e r c ∉ t ++ [e0].
Proof.
  intros H1 H2 [H|H%list_elem_of_singleton]%elem_of_app; [by eapply H1|by eapply H2].
Qed.

Lemma collecting_init oper this os arr m0 elems :
  wf oper m0 ->
  heap m0 !! arr = Some elems ->
  collecting this arr (length (states m0)) elems [] 0 (started this os arr m0).
Proof.
  intros [_ W2 W3] Harr.
  assert (arr < length (heap m0)) as Hlt by (by eapply lookup_lt_Some).
  split; simpl.
  - eexists. rewrite lookup_snoc. split; [done|]. simpl.
    repeat split; [lia|]. by rewrite lookup_snoc.
  - by rewrite lookup_app_l.
  - intros f Hf Hfd.
    assert (f ∈ stack m0) as Hin.
    { destruct (serial this); [done|]. by apply elem_of_cons in Hf as [->|Hf]. }
    eapply Forall_forall in W2; [|done].
    destruct (frame_ok_run _ _ W2) as (st & Hst%lookup_lt_Some). lia.
  - assert (∀ f e r c, Callback (length (states m0)) f e r c ∉ trace m0) as Hno.
    { intros f e r c Hin. eapply Forall_forall in W3; [|done].
      destruct W3 as (st & Hst%lookup_lt_Some & _). lia. }
    destruct (serial this); [|done]. intros f e r c. by apply Callback_not_in_snoc.
Qed.

Lemma collecting_ext this arr state elems acc cnt m m' :
  collecting this arr state elems acc cnt m ->
  states m' !! state = states m !! state ->
  (∀ r a, heap m !! r = Some a -> heap m' !! r = Some a) ->
  (∀ f, f ∈ stack m' -> is_done_loop f = true -> f ∈ stack m ∨ frame_state f ≠ state) ->
  (∀ f e r c, Callback state f e r c ∈ trace m' -> Callback state f e r c ∈ trace m) ->
  collecting this arr state elems acc cnt m'.
Proof.
  intros [(st & Hst & E) C2 C3 C4] Hs Hh Hk Ht. split.
  - exists st. rewrite Hs. split; [done|].
    destruct E as (? & ? & ? & ? & ? & ?). repeat split; try done. by apply Hh.
  - by apply Hh.
  - intros f Hf Hfd. destruct (Hk f Hf Hfd) as [Hin|]; [|done]. by apply C3.
  - intros f e r c Hin. eapply C4. by apply Ht.
Qed.

Lemma heap_app_mono (h k : list jsarray) r a : h !! r = Some a -> (h ++ k) !! r = Some a.
Proof. intros H. rewrite lookup_app_l; [done|]. by eapply lookup_lt_Some. Qed.

Lemma collecting_started this arr state elems acc cnt next os arr' m :
  collecting this arr state elems acc cnt m ->
  collecting this arr state elems acc cnt (started next os arr' m).
Proof.
  intros Hc. eapply collecting_ext; [done| | | |]; simpl.
  - destruct Hc as [(st & Hst & _) _ _ _].
    rewrite lookup_app_l; [done|]. by eapply lookup_lt_Some.
  - intros r a. apply heap_app_mono.
  - intros f Hf Hfd. left. destruct (serial next); [done|].
    by apply elem_of_cons in Hf as [->|Hf].
  - intros f e r c Hin. destruct (serial next); [|done].
    by eapply elem_of_snoc_callback.
Qed.

Lemma elem_of_snoc_callback_of (t : list event) e0 s f e r c :
  Callback s f e r c ∈ t ++ [e0] ->
  (∀ f e r c, e0 ≠ Callback s f e r c) ->
  Callback s f e r c ∈ t.
Proof.
  intros [H|H%list_elem_of_singleton]%elem_of_app Hne; [done|]. by edestruct Hne.
Qed.

Lemma collecting_transition_tick oper this arr state elems acc cnt m m' :
  collecting this arr state elems acc cnt m ->
  transition oper m Tick m' ->
  collecting this arr state elems acc cnt m'.
Proof.
  intros Hc Ht.
  pose proof Hc as [_ _ C3 _].
  assert (∀ f rest, stack m = f :: rest ->
            ∀ g, g ∈ rest -> is_done_loop g = true -> g ∈ stack m ∨ frame_state g ≠ state)
    as Hpop.
  { intros f rest Hk g Hg _. left. rewrite Hk. by right. }
  assert (∀ this' e sid i il rest, stack m = DoneLoop this' e sid i il :: rest ->
            sid ≠ state) as Hhead.
  { intros this' e sid i il rest Hk.
    apply (C3 (DoneLoop this' e sid i il)); [rewrite Hk; by left|done]. }
  inversion Ht; subst; try done;
    try (apply collecting_started).
  all: eapply collecting_ext; [done|done|done| |]; simpl.
  all: try (by eapply Hpop).
  all: try done.
  all: try (intros g [->|Hg]%elem_of_cons Hgd;
            [try done; right; by eapply Hhead|by eapply Hpop]).
  all: intros ? ? ? ? Hin; eapply elem_of_snoc_callback_of; [done|];
       intros ? ? ? ? [=]; subst; by eapply Hhead.
Qed.

Lemma collecting_tick oper this arr state elems acc cnt m :
  collecting this arr state elems acc cnt m ->
  collecting this arr state elems acc cnt (tick oper m).
Proof.
  intros Hc. eapply collecting_transition_tick; [done|].
  apply (react_transition oper m Tick).
Qed.

Lemma written_accumulate st i values (h : list jsarray) acc :
  h !! result st = Some acc ->
  done st = false ->
  written st i (values i) h
  = <[result st := accumulate (prototype (step st)) values acc i]> h.
Proof.
  intros H Hd. unfold written, accumulate. rewrite H, Hd. simpl.
  destruct (prototype (step st)); [by rewrite list_insert_id|done|].
  destruct (is_true (values i)); [done|by rewrite list_insert_id].
Qed.

Lemma target_cont_of this state i m st :
  states m !! state = Some st ->
  step st = this ->
  (serial this = true -> i = count st) ->
  target (cont_of this state i) m = Some (state, i, st).
Proof.
  intros Hst <- Hi. unfold cont_of, target.
  destruct (serial (step st)); simpl; rewrite Hst; simpl; [|done].
  by rewrite Hi.
Qed.

Lemma collecting_call_more oper this arr state elems acc cnt m i error values :
  collecting this arr state elems acc cnt m ->
  truthy error = false ->
  (serial this = true -> i = cnt) ->
  S cnt < length elems ->
  collecting this arr state elems (accumulate (prototype this) values acc i) (S cnt)
    (react oper m (Call (cont_of this state i) error (values i))).
Proof.
  intros [(st & Hst & E1 & E2 & E3 & E4 & E5 & E6) C2 C3 C4] He Hi Hl.
  assert (target (cont_of this state i) m = Some (state, i, st)) as Ht.
  { apply target_cont_of; [done|done|]. by rewrite E3. }
  assert (result st < length (heap m)) as Hr by (by eapply lookup_lt_Some).
  assert (state < length (states m)) as Hs by (by eapply lookup_lt_Some).
  assert (default [] (written st i (values i) (heap m) !! input st) = elems) as Hin.
  { rewrite (written_accumulate _ _ _ _ _ E6 E4), list_lookup_insert_ne by congruence.
    by rewrite E2, C2. }
  rewrite (react_call_more oper m _ error (values i) state i st Ht E4 He);
    [|rewrite Hin; lia].
  rewrite (written_accumulate _ _ _ _ _ E6 E4), E1.
  split; simpl.
  - eexists. rewrite list_lookup_insert_eq by done. split; [done|]. simpl.
    repeat split; try done; [lia|]. by rewrite list_lookup_insert_eq.
  - rewrite list_lookup_insert_ne by congruence. done.
  - done.
  - intros f e r c [Hin'|Hin']%elem_of_app; [by eapply C4|].
    apply elem_of_cons in Hin' as [?|Hin']; [done|].
    destruct (serial this); [|by apply elem_of_nil in Hin'].
    by apply list_elem_of_singleton in Hin'.
Qed.

Lemma AsyncArray_dense (a : list value) : AsyncArray (Some (map Some a)) = map Some a.
Proof.
  rewrite AsyncArray_Some. unfold arguments_of. f_equal.
  rewrite map_map. simpl. apply map_id.
Qed.

Lemma collecting_call_last oper this arr state elems acc cnt m i error values :
  collecting this arr state elems acc cnt m ->
  truthy error = false ->
  (serial this = true -> i = cnt) ->
  length elems <= S cnt ->
  delivered this state (outcome this elems (accumulate (prototype this) values acc i))
    (S cnt) (react oper m (Call (cont_of this state i) error (values i))).
Proof.
  intros [(st & Hst & E1 & E2 & E3 & E4 & E5 & E6) C2 C3 C4] He Hi Hl.
  assert (target (cont_of this state i) m = Some (state, i, st)) as Ht.
  { apply target_cont_of; [done|done|]. by rewrite E3. }
  assert (result st < length (heap m)) as Hr by (by eapply lookup_lt_Some).
  assert (state < length (states m)) as Hs by (by eapply lookup_lt_Some).
  assert (default [] (written st i (values i) (heap m) !! input st) = elems) as Hin.
  { rewrite (written_accumulate _ _ _ _ _ E6 E4), list_lookup_insert_ne by congruence.
    by rewrite E2, C2. }
  rewrite (react_call_last oper m _ error (values i) state i st Ht E4 He);
    [|rewrite Hin; lia].
  rewrite (written_accumulate _ _ _ _ _ E6 E4), E1.
  set (acc' := accumulate (prototype this) values acc i).
  set (h := <[result st := acc']> (heap m)).
  assert (h !! result st = Some acc') as Hacc by (by apply list_lookup_insert_eq).
  assert (length h = length (heap m)) as Hlen by apply length_insert.
  assert ((finished st VNull h).1 !! (finished st VNull h).2
          = Some (outcome this elems acc')) as Hres.
  { unfold finished, outcome. rewrite E1, Hacc. simpl.
    destruct (decide (prototype this = FilterProto ∧ serial this = false)) as [[Hp Hser]|Hn].
    - rewrite decide_True by done. simpl.
      rewrite list_lookup_insert_ne by congruence.
      assert (h !! input st = Some elems) as ->.
      { unfold h. rewrite list_lookup_insert_ne by congruence. by rewrite E2. }
      simpl.
      rewrite lookup_app_r by (rewrite length_insert; lia).
      rewrite length_insert. by replace (S (length h) - length h) with 1 by lia.
    - rewrite decide_False by (intros (? & ? & ?); by apply Hn). simpl.
      by rewrite lookup_snoc. }
  split; simpl.
  - eexists. rewrite list_lookup_insert_eq by done. split; [done|]. simpl.
    repeat split; try done; [lia|]. rewrite decide_True by done. simpl.
    rewrite callback_calls_app. simpl. rewrite app_nil_r.
    apply callback_calls_none. intros f e r c. apply C4.
  - left. do 2 eexists. by split.
  - intros f e r c [Hin'|Hin'%list_elem_of_singleton]%elem_of_app; [|done].
    by apply C4 in Hin'.
Qed.

Lemma delivered_aside this state res total m m' es :
  delivered this state res total m ->
  (∀ f, f ∈ stack m -> is_done_loop f = true -> frame_state f ≠ state) ->
  states m' !! state = states m !! state ->
  (∀ r a, heap m !! r = Some a -> heap m' !! r = Some a) ->
  (∀ f, f ∈ stack m' -> is_done_loop f = true -> frame_state f ≠ state) ->
  trace m' = trace m ++ es ->
  (∀ f e r c, Callback state f e r c ∉ es) ->
  delivered this state res total m'.
Proof.
  intros [(st & Hst & E1 & E2 & E3 & E4 & E5) D2 D3] Hq Hs Hh Hq' Ht Hes.
  split.
  - exists st. rewrite Hs. repeat split; try done; [by apply Hh|].
    rewrite Ht, callback_calls_app, (callback_calls_none _ es), app_nil_r by done.
    rewrite E5. by rewrite !loop_index_none.
  - by right.
  - intros f e r c. rewrite Ht. intros [Hin|Hin]%elem_of_app; [by eapply D3|].
    by apply Hes in Hin.
Qed.

Lemma delivered_started this state res total next os arr m :
  delivered this state res total m ->
  (∀ f, f ∈ stack m -> is_done_loop f = true -> frame_state f ≠ state) ->
  delivered this state res total (started next os arr m).
Proof.
  intros Hd Hq.
  eapply (delivered_aside _ _ _ _ m _
            (if serial next
             then [Worker (length (states m)) (callback next) (aget (contents arr m) 0) 0
                     (Some (Serialfn (length (states m))))]
             else [])); [done|done| | | | |]; simpl.
  - destruct Hd as [(st & Hst & _) _ _].
    rewrite lookup_app_l; [done|]. by eapply lookup_lt_Some.
  - intros r a. apply heap_app_mono.
  - intros f Hf Hfd. apply Hq; [|done]. destruct (serial next); [done|].
    by apply elem_of_cons in Hf as [->|Hf].
  - destruct (serial next); [done|by rewrite app_nil_r].
  - intros f e r c Hin. destruct (serial next); [|by apply elem_of_nil in Hin].
    by apply list_elem_of_singleton in Hin.
Qed.

(** The callback loop of the step has come to its end and is taken off
    the stack. *)
Lemma delivered_end this state res total m m' i rest :
  delivered this state res total m ->
  stack m = DoneLoop this VNull state i (length (callbacks this)) :: rest ->
  (∀ f, f ∈ rest -> is_done_loop f = true -> frame_state f ≠ state) ->
  length (callbacks this) <= i ->
  states m' = states m -> heap m' = heap m -> trace m' = trace m -> stack m' = rest ->
  delivered this state res total m'
  ∧ ∀ f, f ∈ stack m' -> is_done_loop f = true -> frame_state f ≠ state.
Proof.
  intros [(st & Hst & E1 & E2 & E3 & E4 & E5) D2 D3] Hk Hq Hi Hs Hh Ht Hk'.
  split; [|by rewrite Hk'].
  split.
  - exists st. rewrite Hs, Hh, Ht, Hk'. repeat split; try done.
    rewrite E5, Hk, (loop_index_none state rest) by done. simpl.
    rewrite decide_True by done. simpl.
    rewrite !take_ge; [done|unfold expected_calls; rewrite length_fmap; lia..].
  - right. by rewrite Hk'.
  - by rewrite Ht.
Qed.

Lemma delivered_transition_tick oper this state res total m m' :
  delivered this state res total m ->
  transition oper m Tick m' ->
  delivered this state res total m'.
Proof.
  intros Hd Ht.
  pose proof Hd as [(st0 & Hst0 & E1 & E2 & E3 & E4 & E5) D2 D3].
  destruct D2 as [(i0 & rest0 & Hk0 & Hq)|Hq].
  - (* the loop of the step is on top *)
    revert E1 E3. inversion Ht; subst; intros E1 E3; try congruence.
    + (* tick_done_callback *)
      assert (this0 = this ∧ error = VNull ∧ state0 = state ∧ i = i0
              ∧ il = length (callbacks this) ∧ rest = rest0)
        as (-> & -> & -> & -> & -> & ->) by (split_and!; congruence).
      assert (st = st0) as -> by congruence.
      split; simpl.
      * exists st0. split; [done|]. repeat split; try done.
        rewrite decide_True by done. simpl.
        rewrite callback_calls_app. simpl. rewrite decide_True by done. simpl.
        erewrite take_S_r by (by apply expected_calls_lookup). f_equal.
        rewrite E5, Hk0. simpl. by rewrite decide_True.
      * left. by do 2 eexists.
      * intros f' e r c [Hin|Hin%list_elem_of_singleton]%elem_of_app; [by eapply D3|].
        assert (c = contents (result st0) m) as -> by congruence.
        unfold contents. by rewrite E4.
    + (* tick_done_skip *)
      assert (this0 = this ∧ i = i0 ∧ il = length (callbacks this))
        as (-> & -> & ->) by (split_and!; congruence).
      exfalso. match goal with H : callbacks _ !! _ = None |- _ =>
                 apply lookup_ge_None in H end. lia.
    + (* tick_done_halt *)
      assert (error = VNull) as -> by congruence. done.
    + (* tick_done_stray *)
      eapply (delivered_end this state res total m); try done; simpl; congruence.
    + (* tick_done_finished *)
      eapply (delivered_end this state res total m); try done; simpl; congruence.
    + (* tick_done_next *)
      edestruct (delivered_end this state res total m
                   {| heap := heap m;
                      opers := <[oper_state st := {| index := S (index os) |}]> (opers m);
                      states := states m; stack := rest; trace := trace m |})
        as [Hd' Hq']; try done; try (simpl; congruence).
      by apply delivered_started.
  - (* it is not on the stack any more *)
    assert (∀ f rest, stack m = f :: rest ->
              ∀ g, g ∈ rest -> is_done_loop g = true -> frame_state g ≠ state) as Hpop.
    { intros f rest Hk g Hg. apply Hq. rewrite Hk. by right. }
    assert (∀ this' e sid i il rest, stack m = DoneLoop this' e sid i il :: rest ->
              sid ≠ state) as Hhead.
    { intros this' e sid i il rest Hk.
      apply (Hq (DoneLoop this' e sid i il)); [rewrite Hk; by left|done]. }
    revert E1 E3. inversion Ht; subst; intros E1 E3; try done.
    all: try (apply delivered_started;
              [|simpl; by eapply Hpop]).
    all: try (eapply (delivered_aside _ _ _ _ m _ []);
              [done|done|done|done|simpl|by rewrite app_nil_r|by intros ? ? ? ? ?%elem_of_nil];
              first [by eapply Hpop
                    |intros g [->|Hg]%elem_of_cons Hgd;
                     [try done; by eapply Hhead|by eapply Hpop]]).
    all: eapply delivered_aside; [done|done|done|done|simpl|simpl; reflexivity|];
         [intros g [->|Hg]%elem_of_cons Hgd; [try done; by eapply Hhead|by eapply Hpop]
         |intros ? ? ? ? [=]%list_elem_of_singleton; subst; by eapply Hhead].
Qed.

Lemma delivered_tick oper this state res total m :
  delivered this state res total m ->
  delivered this state res total (tick oper m).
Proof.
  intros Hd. eapply delivered_transition_tick; [done|].
  apply (react_transition oper m Tick).
Qed.

Lemma delivered_ticks oper this state values res total schedule :
  completes this state values [] schedule ->
  ∀ m, delivered this state res total m ->
       delivered this state res total (play oper schedule m).
Proof.
  intros Hc. remember [] as order eqn:Ho.
  induction Hc as [|order schedule Hc IH|]; intros m Hd; [done| |done].
  simpl. apply IH; [done|]. by apply delivered_tick.
Qed.

Lemma completes_delivers oper this arr state elems values order schedule :
  completes this state values order schedule ->
  ∀ acc cnt m,
    collecting this arr state elems acc cnt m ->
    cnt + length order = length elems ->
    (serial this = true -> ∀ j i, order !! j = Some i -> i = cnt + j) ->
    order ≠ [] ->
    delivered this state
      (outcome this elems (foldl (accumulate (prototype this) values) acc order))
      (length elems) (play oper schedule m).
Proof.
  induction 1 as [|order schedule Hc IH|i error order schedule He Hc IH];
    intros acc cnt m Hcol Hlen Hser Hne; [done| |].
  - simpl. apply (IH acc cnt); try done. by apply collecting_tick.
  - change (play oper (?a :: schedule) m) with (play oper schedule (react oper m a)).
    change (foldl ?f acc (i :: order)) with (foldl f (f acc i) order).
    assert (serial this = true -> i = cnt) as Hi.
    { intros Hs. rewrite (Hser Hs 0 i eq_refl). lia. }
    destruct order as [|i' order]; simpl in Hlen.
    + replace (length elems) with (S cnt) by lia.
      eapply delivered_ticks; [done|].
      apply (collecting_call_last oper this arr); [done|done|done|lia].
    + apply (IH _ (S cnt)); try done.
      * apply (collecting_call_more oper this arr); [done|done|done|lia].
      * simpl. lia.
      * intros Hs j x Hx. rewrite (Hser Hs (S j) x Hx). lia.
Qed.

(** A step that is run over an array of a machine and whose
    continuations are then called with success, once for each index of
    [order], is latched by the last of these calls with the result
    [outcome], which the completion callbacks are given. *)
Lemma step_completes oper m0 this os arr values order schedule :
  wf oper m0 ->
  length order = length (contents arr m0) ->
  order ≠ [] ->
  (serial this = true -> order = seq 0 (length order)) ->
  completes this (length (states m0)) values order schedule ->
  delivered this (length (states m0))
    (outcome this (contents arr m0)
       (foldl (accumulate (prototype this) values) [] order))
    (length (contents arr m0))
    (play oper schedule (Step_run this os arr m0)).
Proof.
  intros Hwf Hlen Hne Hser Hc.
  assert (heap m0 !! arr = Some (contents arr m0)) as Harr.
  { unfold contents in *. destruct (heap m0 !! arr); [done|].
    simpl in Hlen. by destruct order. }
  rewrite Step_run_started.
  eapply (completes_delivers oper this arr _ _ _ _ _ Hc [] 0); [|done| |done].
  - by apply (collecting_init oper).
  - intros Hs j i Hj. rewrite (Hser Hs) in Hj.
    apply lookup_seq in Hj as [-> _]. done.
Qed.

(** [exec] runs the first step over the source, [_next] the next step
    over the result of the one that has completed: both on a well-formed
    machine. *)
Lemma exec_runs_the_first_step oper arguments m first :
  steps oper !! 0 = Some first ->
  react oper m (Exec arguments)
  = Step_run first (length (opers m)) (array oper) (OperState_new m).2.
Proof. intros H. simpl. unfold Operation_exec. simpl. by rewrite H. Qed.

Lemma wf_OperState_new oper m : wf oper m -> wf oper (OperState_new m).2.
Proof.
  intros Hwf. eapply wf_base; [done|done|done| |done]. simpl. rewrite length_app. lia.
Qed.

(** ** The result of a map step *)

Lemma aset_lookup_eq (a : jsarray) i v : aset a i v !! i = Some (Some v).
Proof.
  unfold aset. case_decide.
  - by rewrite list_lookup_insert_eq.
  - rewrite lookup_app_r by lia. rewrite lookup_app_r by (rewrite length_replicate; lia).
    rewrite length_replicate. by replace (i - length a - (i - length a)) with 0 by lia.
Qed.

Lemma aset_lookup_ne (a : jsarray) i j v :
  i ≠ j -> j < length a -> aset a i v !! j = a !! j.
Proof.
  intros Hne Hj. unfold aset. case_decide.
  - by rewrite list_lookup_insert_ne.
  - by rewrite lookup_app_l.
Qed.

Lemma aset_length_le (a : jsarray) i v n :
  length a <= n -> i < n -> length (aset a i v) <= n.
Proof.
  intros Ha Hi. unfold aset. case_decide.
  - by rewrite length_insert.
  - rewrite !length_app, length_replicate. simpl. lia.
Qed.

Lemma foldl_aset values order n :
  (∀ i, i ∈ order -> i < n) ->
  let acc := foldl (accumulate MapProto values) [] order in
  length acc <= n ∧ ∀ i, i ∈ order -> acc !! i = Some (Some (values i)).
Proof.
  induction order as [|x order IH] using rev_ind; intros Hb; simpl.
  - split; [lia|]. by intros i ?%elem_of_nil.
  - rewrite foldl_app. simpl.
    destruct IH as [IH1 IH2].
    { intros i Hi. apply Hb, elem_of_app. by left. }
    assert (x < n) as Hx.
    { apply Hb, elem_of_app. right. by apply list_elem_of_singleton. }
    split; [by apply aset_length_le|].
    intros i Hi. destruct (decide (x = i)) as [->|Hne]; [apply aset_lookup_eq|].
    apply elem_of_app in Hi as [Hi|Hi%list_elem_of_singleton]; [|congruence].
    rewrite aset_lookup_ne; [by apply IH2|done|].
    eapply lookup_lt_Some. by apply IH2.
Qed.

Lemma foldl_aset_perm values order n :
  order ≡ₚ seq 0 n ->
  foldl (accumulate MapProto values) [] order
  = (fun i => Some (values i)) <$> seq 0 n.
Proof.
  intros Hp.
  destruct (foldl_aset values order n) as [H1 H2].
  { intros i Hi. rewrite Hp in Hi. apply elem_of_seq in Hi. lia. }
  apply list_eq. intros j. rewrite list_lookup_fmap.
  destruct (decide (j < n)) as [Hj|Hj].
  - rewrite lookup_seq_lt by done. simpl. apply H2. rewrite Hp. apply elem_of_seq. lia.
  - rewrite lookup_seq_ge by lia. simpl. apply lookup_ge_None. lia.
Qed.

Lemma map_fmap {A B} (f : A -> B) (l : list A) : map f l = f <$> l.
Proof. induction l as [|x l IH]; simpl; [done|]. by rewrite IH. Qed.

Lemma outcome_map this elems (values : nat -> value) n :
  prototype this = MapProto ->
  outcome this elems ((fun i => Some (values i)) <$> seq 0 n)
  = (fun i => Some (values i)) <$> seq 0 n.
Proof.
  intros Hp. unfold outcome. rewrite decide_False by (rewrite Hp; intros [? _]; done).
  rewrite (list_fmap_compose values Some), <- map_fmap.
  apply AsyncArray_dense.
Qed.

(** C4.  A map step run over an array of [n] elements, the continuation
    of each element called with success once and the element [i] giving
    [values i], in whatever order for a parallel step: the last call
    latches the step with a result of length [n] that holds [values i] at
    index [i], and this is the array the completion callbacks are
    given. *)
Theorem map_keeps_positions oper m0 this os arr values order schedule :
  wf oper m0 ->
  prototype this = MapProto ->
  order ≡ₚ seq 0 (length (contents arr m0)) ->
  order ≠ [] ->
  (serial this = true -> order = seq 0 (length order)) ->
  completes this (length (states m0)) values order schedule ->
  delivered this (length (states m0))
    ((fun i => Some (values i)) <$> seq 0 (length (contents arr m0)))
    (length (contents arr m0))
    (play oper schedule (Step_run this os arr m0)).
Proof.
  intros Hwf Hp Hperm Hne Hser Hc.
  pose proof (step_completes oper m0 this os arr values order schedule Hwf) as H.
  rewrite Hp, (foldl_aset_perm _ _ _ Hperm), outcome_map in H by done.
  apply H; try done.
  apply Permutation_length in Hperm. by rewrite length_seq in Hperm.
Qed.

(** ** The result of a filter step *)

Lemma sort_insert_perm f x l : sort_insert f x l ≡ₚ x :: l.
Proof.
  induction l as [|y l IH]; simpl; [done|]. case_decide; [done|].
  rewrite IH. apply Permutation_swap.
Qed.

Lemma sort_values_perm f l : sort_values f l ≡ₚ l.
Proof.
  induction l as [|x l IH]; simpl; [done|].
  rewrite sort_insert_perm. by rewrite IH.
Qed.

Lemma sorts_before_trans a b c : sorts_before a b -> sorts_before b c -> sorts_before a c.
Proof. unfold sorts_before, SORTFN. lia. Qed.

Lemma sorts_before_total a b : ¬ sorts_before a b -> sorts_before b a.
Proof. unfold sorts_before, SORTFN. lia. Qed.

Lemma sort_insert_sorted x l :
  StronglySorted sorts_before l -> StronglySorted sorts_before (sort_insert SORTFN x l).
Proof.
  induction l as [|y l IH]; simpl; intros Hs.
  - by repeat constructor.
  - apply StronglySorted_cons in Hs as [Hy Hs].
    case_decide as Hxy.
    + apply StronglySorted_cons. split; [|by apply StronglySorted_cons].
      constructor; [done|]. eapply Forall_impl; [done|].
      intros z Hz. by eapply sorts_before_trans.
    + apply StronglySorted_cons. split; [|by apply IH].
      rewrite sort_insert_perm. constructor; [|done]. by apply sorts_before_total.
Qed.

Lemma sort_values_sorted l : StronglySorted sorts_before (sort_values SORTFN l).
Proof.
  induction l as [|x l IH]; simpl; [constructor|]. by apply sort_insert_sorted.
Qed.

Lemma StronglySorted_seq s n : StronglySorted lt (seq s n).
Proof.
  revert s. induction n as [|n IH]; intros s; simpl; [constructor|].
  apply StronglySorted_cons. split; [|apply IH].
  apply Forall_forall. intros x Hx%elem_of_seq. lia.
Qed.

Lemma StronglySorted_filter {A} (R : relation A) (P : A -> Prop)
    `{!∀ x, Decision (P x)} (l : list A) :
  StronglySorted R l -> StronglySorted R (filter P l).
Proof.
  induction 1 as [|x l Hs IH Hx]; [constructor|].
  rewrite filter_cons. case_decide; [|done].
  apply StronglySorted_cons. split; [|done].
  apply Forall_forall. intros y [_ Hy]%list_elem_of_filter.
  eapply Forall_forall in Hx; done.
Qed.

Lemma sorts_before_index i j : i < j -> sorts_before (index_value i) (index_value j).
Proof. unfold sorts_before, SORTFN, index_value. simpl. lia. Qed.

(** Sorting the indices that were pushed, in whatever order, gives them
    in ascending order. *)
Lemma sort_kept values order n :
  order ≡ₚ seq 0 n ->
  sort_values SORTFN (index_value <$> filter (fun i => values i = VBool true) order)
  = index_value <$> kept values n.
Proof.
  intros Hp. apply (StronglySorted_unique_strong sorts_before).
  - intros x1 x2 Hx1 Hx2. rewrite sort_values_perm in Hx1.
    apply list_elem_of_fmap in Hx1 as (i & -> & _).
    apply list_elem_of_fmap in Hx2 as (j & -> & _).
    unfold sorts_before, SORTFN, index_value. simpl. intros. f_equal. lia.
  - apply sort_values_sorted.
  - eapply StronglySorted_fmap; [apply sorts_before_index|].
    apply StronglySorted_filter, StronglySorted_seq.
  - rewrite sort_values_perm. unfold kept. by rewrite Hp.
Qed.

Lemma is_true_spec v : is_true v = true ↔ v = VBool true.
Proof. destruct v as [| |[|]| | | |]; simpl; split; congruence. Qed.

Lemma foldl_filter values order acc :
  foldl (accumulate FilterProto values) acc order
  = acc ++ ((fun i => Some (index_value i))
              <$> filter (fun i => values i = VBool true) order).
Proof.
  revert acc. induction order as [|i order IH]; intros acc; simpl.
  - by rewrite app_nil_r.
  - rewrite IH, filter_cons. destruct (is_true (values i)) eqn:Ht.
    + apply is_true_spec in Ht. rewrite decide_True by done.
      unfold apush. by rewrite <- app_assoc.
    + rewrite decide_False; [done|]. intros Hv%is_true_spec. congruence.
Qed.

Lemma asort_indices f (l : list nat) :
  asort f ((fun i => Some (index_value i)) <$> l)
  = map Some (sort_values f (index_value <$> l)).
Proof.
  unfold asort.
  assert (omap (fun o : option value =>
                  match o with
                  | Some VUndefined | None => None
                  | Some v => Some v
                  end) ((fun i => Some (index_value i)) <$> l) = index_value <$> l) as ->.
  { induction l as [|i l IH]; [done|]. simpl. f_equal. exact IH. }
  assert (∀ (P : option value -> Prop) `{!∀ x, Decision (P x)},
            (∀ i, ¬ P (Some (index_value i))) ->
            filter P ((fun i => Some (index_value i)) <$> l) = []) as Hnone.
  { intros P ? HP. induction l as [|i l IH]; [done|]. simpl.
    rewrite filter_cons, decide_False by apply HP. done. }
  rewrite !Hnone by done. by rewrite !app_nil_r.
Qed.

Lemma picked_indices elems (l : list nat) :
  picked elems (map Some (index_value <$> l)) = (fun i => Some (aget elems i)) <$> l.
Proof.
  unfold picked. induction l as [|i l IH]; [done|]. simpl. f_equal; [|exact IH].
  f_equal. replace (0 <=? Z.of_nat i)%Z with true by (symmetry; apply Z.leb_le; lia).
  by rewrite Nat2Z.id.
Qed.

Lemma AsyncArray_fmap_Some {A} (f : A -> value) (l : list A) :
  AsyncArray (Some ((fun x => Some (f x)) <$> l)) = (fun x => Some (f x)) <$> l.
Proof.
  rewrite (list_fmap_compose f Some), <- map_fmap. apply AsyncArray_dense.
Qed.

Lemma outcome_filter this elems values order :
  prototype this = FilterProto ->
  serial this = false ->
  order ≡ₚ seq 0 (length elems) ->
  outcome this elems (foldl (accumulate FilterProto values) [] order)
  = filter_result elems values.
Proof.
  intros Hp Hs Hperm. unfold outcome, filter_result. rewrite foldl_filter. simpl.
  rewrite decide_True by done.
  rewrite asort_indices, (sort_kept _ _ _ Hperm), picked_indices.
  apply AsyncArray_fmap_Some.
Qed.

(** C6, with [=== true] in place of truthiness, for the filter that
    hands on elements.  A parallel filter step run over an array, the
    continuation of each element called with success once, in any order,
    the element [i] giving [values i] as the second argument: the step
    is latched and its completion callbacks are given the elements at
    the indices [i] for which [values i] is the boolean [true], and no
    other, in ascending order. *)
Theorem filter_keeps_on_true oper m0 this os arr values order schedule :
  wf oper m0 ->
  prototype this = FilterProto ->
  serial this = false ->
  order ≡ₚ seq 0 (length (contents arr m0)) ->
  order ≠ [] ->
  completes this (length (states m0)) values order schedule ->
  delivered this (length (states m0))
    (filter_result (contents arr m0) values)
    (length (contents arr m0))
    (play oper schedule (Step_run this os arr m0)).
Proof.
  intros Hwf Hp Hs Hperm Hne Hc.
  pose proof (step_completes oper m0 this os arr values order schedule Hwf) as H.
  rewrite Hp, (outcome_filter _ _ _ _ Hp Hs Hperm) in H.
  apply H; try done; [|congruence].
  apply Permutation_length in Hperm. by rewrite length_seq in Hperm.
Qed.

(** C6 as stated fails: a truthy second argument that is not the boolean
    [true] drops the element. *)
Lemma truthy_value_is_dropped : ¬ kept_when_truthy.
Proof.
  intros H. destruct (H (VNum 1)) as [_ H2]. vm_compute in H2. discriminate.
Qed.

(** ** The theorems at the chains of [test.js] *)

Lemma map_keeps_positions_witness :
  delivered map_step 0
    [Some (VStr "did 0"); Some (VStr "did 1"); Some (VStr "did 2"); Some (VStr "did 3")]
    4 (play map_chain map_reversed (Step_run map_step 0 0 exec_machine)).
Proof.
  apply (map_keeps_positions map_chain exec_machine map_step 0 0 did [3; 2; 1; 0]
           map_reversed).
  - split; constructor.
  - reflexivity.
  - exact (Permutation_sym (Permutation_rev [0; 1; 2; 3])).
  - discriminate.
  - discriminate.
  - repeat constructor.
Defined.

Lemma filter_keeps_on_true_witness :
  delivered filter_step 0 [Some (VNum 1); Some (VNum 2); Some (VNum 4)] 4
    (play filter_chain filter_reversed (Step_run filter_step 0 0 exec_machine)).
Proof.
  apply (filter_keeps_on_true filter_chain exec_machine filter_step 0 0 non_string
           [3; 2; 1; 0] filter_reversed).
  - split; constructor.
  - reflexivity.
  - reflexivity.
  - exact (Permutation_sym (Permutation_rev [0; 1; 2; 3])).
  - discriminate.
  - repeat constructor.
Defined.

(** The machine these two start from is the one [exec] makes, and the
    filter of [test.js] is given [[1, 2, 4]]. *)
Lemma exec_machine_is_exec :
  react map_chain (boot (items test_items)) (Exec [])
  = Step_run map_step 0 0 exec_machine
  ∧ react filter_chain (boot (items test_items)) (Exec [])
    = Step_run filter_step 0 0 exec_machine
  ∧ filter_result (contents 0 exec_machine) non_string
    = [Some (VNum 1); Some (VNum 2); Some (VNum 4)].
Proof. repeat split. Qed.

(** ** The transitions are those of a function *)

Ltac same_lookups :=
  repeat match goal with
         | H : ?x = ?y, H' : ?x = ?z |- _ =>
             first [ is_var x; fail 1 | rewrite H in H'; simplify_eq ]
         end.

Lemma transition_deterministic oper m a m1 m2 :
  transition oper m a m1 -> transition oper m a m2 -> m1 = m2.
Proof.
  intros H1 H2. inversion H1; subst; inversion H2; subst;
    repeat match goal with x := _ |- _ => subst x end;
    clear H1 H2; same_lookups; try done; try congruence; try lia.
  all: try (exfalso; unfold ahas in *;
            repeat match goal with H : ?x = _, H' : context [?x] |- _ => rewrite H in H' end;
            simpl in *; congruence).
Qed.

Lemma transition_react oper m a m' : transition oper m a m' -> react oper m a = m'.
Proof.
  intros H. eapply transition_deterministic; [apply react_transition|done].
Qed.

(** ** The source is never written *)

Lemma source_kept_started source this os arr m :
  source_kept source m -> source_kept source (started this os arr m).
Proof.
  intros [H1 H2]. split; simpl.
  - by apply heap_app_mono.
  - intros state st [[_ Hst]|[_ <-]]%lookup_snoc_Some; [by eapply H2|]. simpl.
    by eapply lookup_lt_Some.
Qed.

Lemma written_source source st i data (h : list jsarray) :
  h !! 0 = Some source -> 0 < result st -> written st i data h !! 0 = Some source.
Proof.
  intros H Hr. unfold written.
  destruct (prototype (step st)); [done| |destruct (is_true data); [|done]];
    rewrite list_lookup_insert_ne by lia; done.
Qed.

Lemma written_length st i data (h : list jsarray) :
  length (written st i data h) = length h.
Proof.
  unfold written.
  destruct (prototype (step st)); [done| |destruct (is_true data); [|done]];
    by rewrite length_insert.
Qed.

Lemma finished_source source st error (h : list jsarray) :
  h !! 0 = Some source -> 0 < result st ->
  (finished st error h).1 !! 0 = Some source ∧ 0 < (finished st error h).2.
Proof.
  intros H Hr. assert (0 < length h) by (by eapply lookup_lt_Some).
  unfold finished. case_decide; simpl; (split; [|lia]).
  - apply heap_app_mono. by rewrite list_lookup_insert_ne by lia.
  - by apply heap_app_mono.
Qed.

Lemma source_kept_transition oper source m a m' :
  source_kept source m -> transition oper m a m' -> source_kept source m'.
Proof.
  intros Hk Ht. pose proof Hk as [H1 H2].
  assert (0 < length (heap m)) as Hlen by (by eapply lookup_lt_Some).
  destruct Ht; try done; try (by apply source_kept_started);
    try (match goal with H : target _ _ = Some _ |- _ =>
           apply target_lookup in H; pose proof (H2 _ _ H) end).
  - split; simpl; [by apply written_source|done].
  - split; simpl.
    + apply heap_app_mono. by apply written_source.
    + intros s x [(_ & <- & _)|[_ Hx]]%list_lookup_insert_Some; [|by eapply H2].
      simpl. subst h. rewrite written_length. lia.
  - split; simpl; [by apply written_source|].
    intros s x [(_ & <- & _)|[_ Hx]]%list_lookup_insert_Some; [done|by eapply H2].
  - destruct (finished_source source st VNull h) as [F1 F2];
      [by apply written_source|done|].
    split; simpl; [done|].
    intros s x [(_ & <- & _)|[_ Hx]]%list_lookup_insert_Some; [done|by eapply H2].
Qed.

Lemma source_kept_boot source : source_kept source (boot source).
Proof. split; [done|]. intros ? ? [=]. Qed.

Lemma source_kept_play oper source s m :
  source_kept source m -> source_kept source (play oper s m).
Proof.
  revert m. induction s as [|a s IH]; intros m H; simpl; [done|].
  apply IH. eapply source_kept_transition; [done|apply react_transition].
Qed.

(** * More of the code *)

(** ** The constructor of [AsyncArray] *)

(** X1.  [new AsyncArray(arr)] copies the array it is given: the new
    array has the length of [arr] and reads as [arr] does at every index;
    it has a property at every index below its length, a hole of [arr]
    having become an [undefined] element.  Without an argument the new
    array is empty. *)
Theorem AsyncArray_copies (a : jsarray) :
  length (AsyncArray (Some a)) = length a
  ∧ (∀ i, aget (AsyncArray (Some a)) i = aget a i)
  ∧ (∀ i, i < length a -> ahas (AsyncArray (Some a)) i = true)
  ∧ AsyncArray None = [].
Proof.
  rewrite AsyncArray_Some. unfold arguments_of. rewrite !map_fmap.
  split; [by rewrite !length_fmap|]. split; [|split; [|done]].
  - intros i. unfold aget. rewrite !list_lookup_fmap.
    by destruct (a !! i) as [[v|]|].
  - intros i Hi. unfold ahas. rewrite !list_lookup_fmap.
    destruct (lookup_lt_is_Some_2 _ _ Hi) as [o ->]. done.
Qed.

(** ** Building a chain *)

(** X2.  [done] throws exactly when the chain has no step.  Otherwise it
    registers the callback on the last step alone, after the callbacks
    that step has already: the array, the steps before the last, and the
    kind, the worker and the mode of the last step are as they were. *)
Theorem done_registers_on_the_last_step cb o :
  match Operation_done cb o with
  | None => steps o = []
  | Some o' =>
      array o' = array o
      ∧ ∃ before s, steps o = before ++ [s]
                    ∧ steps o' = before ++ [add_callback cb s]
  end.
Proof.
  unfold Operation_done, Operation_lastStep.
  destruct (steps o) as [|s0 l] eqn:E using rev_ind; [done|]. clear IHl.
  rewrite length_app. simpl.
  replace (length l + 1) with (S (length l)) by lia.
  rewrite lookup_snoc. split; [done|]. exists l, s0. split; [done|].
  simpl. replace (length l - 0) with (length l) by lia. apply insert_snoc.
Qed.

Lemma Operation_done_is_Some cb o : steps o ≠ [] -> is_Some (Operation_done cb o).
Proof.
  intros Hne. unfold Operation_done, Operation_lastStep.
  destruct (steps o) as [|s0 l] using rev_ind; [done|].
  rewrite length_app. simpl. replace (length l + 1) with (S (length l)) by lia.
  rewrite lookup_snoc. by eexists.
Qed.

Lemma Operation_exec_is_Some o arguments m :
  steps o ≠ [] -> is_Some (Operation_exec o arguments m).
Proof.
  intros Hne. unfold Operation_exec. simpl.
  destruct (steps o) as [|s l]; [done|]. by eexists.
Qed.

Lemma Operation_done_steps cb o o' :
  Operation_done cb o = Some o' -> array o' = array o ∧ steps o' ≠ [].
Proof.
  unfold Operation_done. destruct (Operation_lastStep o) eqn:E; [|done].
  intros [= <-]. simpl. split; [done|].
  unfold Operation_lastStep in E. destruct (steps o) as [|s0 l]; [done|].
  intros H%(f_equal length). rewrite length_insert in H. done.
Qed.

(** X3.  A chain that a user of the module can hold has a step, and its
    array is the one it was made from: [done] and [exec] never find
    [lastStep()] or [steps[0]] undefined. *)
Theorem a_chain_has_a_step arr o :
  chain_of arr o ->
  array o = arr ∧ steps o ≠ []
  ∧ (∀ cb, is_Some (Operation_done cb o))
  ∧ (∀ arguments m, is_Some (Operation_exec o arguments m)).
Proof.
  intros H.
  assert (array o = arr ∧ steps o ≠ []) as [Ha Hs].
  { induction H as [proxy callback Hin|method callback o Hin H IH|callback o o' H IH Hd].
    - unfold proxies in Hin.
      repeat (apply elem_of_cons in Hin as [->|Hin]); try by apply elem_of_nil in Hin.
      all: split; [done|]; simpl; discriminate.
    - destruct IH as [IH _]. unfold step_methods in Hin.
      repeat (apply elem_of_cons in Hin as [->|Hin]); try by apply elem_of_nil in Hin.
      all: split; [done|]; simpl; intros E; by apply app_eq_nil in E as [_ [=]].
    - destruct IH as [IH _]. apply Operation_done_steps in Hd as [-> Hd]. done. }
  split; [done|]. split; [done|]. split.
  - intros cb. by apply Operation_done_is_Some.
  - intros arguments m. by apply Operation_exec_is_Some.
Qed.

Lemma a_chain_has_a_step_witness :
  array map_chain = 0 ∧ steps map_chain ≠ []
  ∧ (∀ cb, is_Some (Operation_done cb map_chain))
  ∧ (∀ arguments m, is_Some (Operation_exec map_chain arguments m)).
Proof.
  apply (a_chain_has_a_step 0 map_chain).
  apply (chain_done 0 "log" (AsyncArray_map "worker" 0)); [|reflexivity].
  apply (chain_proxy 0 AsyncArray_map "worker"). unfold proxies.
  do 2 apply list_elem_of_further. apply list_elem_of_here.
Defined.

(** ** The source is never written *)

(** X4.  Whatever chain is run and whatever the workers and the callbacks
    do with their continuations, the array the chain was made from holds
    what it held: every step collects into an array of its own. *)
Theorem source_is_never_written oper source schedule :
  contents 0 (play oper schedule (boot source)) = source.
Proof.
  unfold contents.
  by rewrite (source_there _ _ (source_kept_play oper source schedule _
                                  (source_kept_boot source))).
Qed.

(** ** The completion callbacks are called once *)

Lemma calls_ok_same m m' state st es :
  calls_ok m state st ->
  trace m' = trace m ++ es -> callback_calls state es = [] ->
  loop_index state (stack m') = loop_index state (stack m) ->
  (∀ f, f ∈ stack m' -> is_done_loop f = true -> frame_state f = state -> f ∈ stack m) ->
  calls_ok m' state st.
Proof.
  intros (error & He & Hc & Hf) Ht Hes Hl Hk. exists error. split; [done|]. split.
  - by rewrite Ht, callback_calls_app, Hes, app_nil_r, Hl.
  - intros f Hin Hd Hs. apply Hf; [by apply Hk|done..].
Qed.

Lemma loop_index_other state f k :
  frame_state f ≠ state -> loop_index state (f :: k) = loop_index state k.
Proof. intros H. destruct f; simpl in *; [done|]. by rewrite decide_False. Qed.

Lemma calls_ok_latch oper m m' state st st' error e :
  wf oper m -> states m !! state = Some st -> done st = false ->
  truthy error = true ∨ error = VNull ->
  step st' = step st ->
  trace m' = trace m ++ [e] -> (∀ s f er r c, e ≠ Callback s f er r c) ->
  stack m' = DoneLoop (step st) error state 0 (length (callbacks (step st))) :: stack m ->
  calls_ok m' state st'.
Proof.
  intros Hwf Hst Hd He Hs Ht Hne Hk. exists error. split; [done|]. split.
  - rewrite Ht, callback_calls_snoc_other by (intros; apply Hne).
    rewrite (callback_calls_active oper m state st) by done.
    rewrite Hk. simpl. by rewrite decide_True.
  - intros f Hin Hf Hfs. rewrite Hk in Hin. rewrite Hs.
    apply elem_of_cons in Hin as [->|Hin]; [by eexists|].
    exfalso. destruct Hwf as [_ W2 _].
    eapply Forall_forall in W2; [|done].
    destruct f as [|this er s i il]; [done|]. simpl in *. subst s.
    destruct W2 as (x & Hx & _ & Hxd & _). congruence.
Qed.

Lemma loop_index_apart m this e state i il rest :
  loops_apart m (DoneLoop this e state i il :: rest) ->
  loop_index state rest = None.
Proof.
  intros [H _]. apply loop_index_none. intros g Hg Hgd Hgs.
  specialize (H eq_refl g Hg Hgd). simpl in H. by rewrite Hgs in H.
Qed.

Lemma calls_inv_started this os arr m : calls_inv m -> calls_inv (started this os arr m).
Proof.
  intros Hinv s x [[_ Hx]|[_ <-]]%lookup_snoc_Some Hxd; [|done].
  eapply (calls_ok_same m _ s x
            (if serial this then [Worker (length (states m)) (callback this)
                                    (aget (contents arr m) 0) 0
                                    (Some (Serialfn (length (states m))))] else []));
    [by apply Hinv|..]; simpl.
  - destruct (serial this); [done|by rewrite app_nil_r].
  - by destruct (serial this).
  - by destruct (serial this).
  - intros f Hin Hf _. destruct (serial this); [done|].
    apply elem_of_cons in Hin as [->|Hin]; done.
Qed.

Lemma calls_inv_pop m m' this e state i il rest :
  one_place m -> calls_inv m ->
  stack m = DoneLoop this e state i il :: rest -> il <= i ->
  states m' = states m -> trace m' = trace m -> stack m' = rest ->
  calls_inv m'.
Proof.
  intros Hop Hinv Hk Hi Hs Ht Hk' s x Hx Hxd. rewrite Hs in Hx.
  destruct (decide (s = state)) as [->|Hne].
  - destruct (Hinv state x Hx Hxd) as (e0 & He & Hc & Hf).
    destruct (Hf (DoneLoop this e state i il)) as (i' & Hi');
      [rewrite Hk; by left|done|done|].
    injection Hi' as -> -> _ ->.
    exists e0. split; [done|]. split.
    + rewrite Ht, Hc, Hk, Hk'. simpl. rewrite decide_True by done.
      rewrite (loop_index_apart m (step x) e0 state i _ rest)
        by (rewrite <- Hk; apply Hop).
      simpl. rewrite !take_ge; [done|unfold expected_calls; rewrite length_fmap; lia..].
    + intros f Hin. apply Hf. rewrite Hk, <- Hk'. by right.
  - eapply (calls_ok_same m _ s x []); [by apply Hinv|..].
    + by rewrite Ht, app_nil_r.
    + done.
    + rewrite Hk', Hk. by rewrite loop_index_other.
    + intros f Hin _ _. rewrite Hk, <- Hk'. by right.
Qed.

Lemma calls_inv_transition oper m a m' :
  wf oper m -> one_place m -> calls_inv m -> transition oper m a m' -> calls_inv m'.
Proof.
  intros Hwf Hop Hinv Ht.
  destruct Ht.
  - done.
  - apply calls_inv_started. intros s x Hx Hxd.
    eapply (calls_ok_same m _ s x []); [by apply Hinv|simpl..]; try done.
    by rewrite app_nil_r.
  - intros s x Hx Hxd.
    by eapply (calls_ok_same m _ s x [_]); [by apply Hinv|simpl..].
  - intros s x Hx Hxd.
    by eapply (calls_ok_same m _ s x [_]); [by apply Hinv|simpl..].
  - (* call_error *)
    pose proof (target_lookup _ _ _ _ _ H) as Hst.
    intros s x [(-> & <- & _)|[Hne Hx]]%list_lookup_insert_Some Hxd.
    + eapply (calls_ok_latch oper m _ s st _ error); simpl; try done. by left.
    + eapply (calls_ok_same m _ s x [_]); [by apply Hinv|simpl..]; try done.
      * by rewrite decide_False by done.
      * intros f [->|Hin]%elem_of_cons _ Hs; [done|done].
  - (* call_more *)
    pose proof (target_lookup _ _ _ _ _ H) as Hst.
    intros s x [(-> & <- & _)|[Hne Hx]]%list_lookup_insert_Some Hxd;
      [simpl in Hxd; congruence|].
    eapply (calls_ok_same m _ s x (_ :: _)); [by apply Hinv|simpl..]; try done.
    by destruct (serial (step st)).
  - (* call_last *)
    pose proof (target_lookup _ _ _ _ _ H) as Hst.
    intros s x [(-> & <- & _)|[Hne Hx]]%list_lookup_insert_Some Hxd.
    + eapply (calls_ok_latch oper m _ s st _ VNull); simpl; try done. by right.
    + eapply (calls_ok_same m _ s x [_]); [by apply Hinv|simpl..]; try done.
      * by rewrite decide_False by done.
      * intros f [->|Hin]%elem_of_cons _ Hs; [done|done].
  - done.
  - (* tick_each_visit *)
    intros x y Hy Hyd.
    eapply (calls_ok_same m _ x y [_]); [by apply Hinv|simpl..]; try done.
    + by rewrite H.
    + intros f [->|Hin]%elem_of_cons Hf _; [done|]. rewrite H. by right.
  - intros x y Hy Hyd.
    eapply (calls_ok_same m _ x y []); [by apply Hinv|simpl..]; try done.
    + by rewrite app_nil_r.
    + by rewrite H.
    + intros f [->|Hin]%elem_of_cons Hf _; [done|]. rewrite H. by right.
  - intros x y Hy Hyd.
    eapply (calls_ok_same m _ x y []); [by apply Hinv|simpl..]; try done.
    + by rewrite app_nil_r.
    + by rewrite H.
    + intros f Hin Hf _. rewrite H. by right.
  - (* tick_done_unknown *)
    exfalso. destruct Hwf as [_ W2 _]. rewrite H in W2.
    apply Forall_cons in W2 as [(y & Hy & _) _]. congruence.
  - (* tick_done_callback *)
    intros x y Hy Hyd. simpl in Hy.
    destruct (decide (x = state)) as [->|Hne].
    + assert (y = st) as -> by congruence.
      destruct (Hinv state st Hy Hyd) as (e0 & He & Hc & Hf).
      destruct (Hf (DoneLoop this error state i il)) as (i' & Hi');
        [rewrite H; by left|done|done|].
      injection Hi' as -> -> _ ->.
      exists e0. split; [done|]. split; simpl.
      * rewrite callback_calls_app, Hc, H. simpl. rewrite !decide_True by done. simpl.
        erewrite take_S_r; [done|]. by apply expected_calls_lookup.
      * intros f0 [->|Hin]%elem_of_cons Hd Hs; [by eexists|].
        apply Hf; [rewrite H; by right|done..].
    + eapply (calls_ok_same m _ x y [_]); [by apply Hinv|done| | |].
      * unfold callback_calls. simpl. by rewrite decide_False by done.
      * simpl. rewrite H. simpl. by rewrite !decide_False by congruence.
      * simpl. intros f0 [->|Hin]%elem_of_cons Hd Hs; [done|]. rewrite H. by right.
  - (* tick_done_skip *)
    intros x y Hy Hyd. simpl in Hy.
    destruct (decide (x = state)) as [->|Hne].
    + exfalso. assert (y = st) as -> by congruence.
      destruct (Hinv state st Hy Hyd) as (e0 & He & Hc & Hf).
      destruct (Hf (DoneLoop this error state i il)) as (i' & Hi');
        [rewrite H; by left|done|done|].
      injection Hi' as -> -> _ ->. apply lookup_ge_None in H2. lia.
    + eapply (calls_ok_same m _ x y []); [by apply Hinv|simpl..]; try done.
      * by rewrite app_nil_r.
      * rewrite H. simpl. by rewrite !decide_False by congruence.
      * intros f0 [->|Hin]%elem_of_cons Hd Hs; [done|]. rewrite H. by right.
  - by eapply (calls_inv_pop m).
  - by eapply (calls_inv_pop m).
  - by eapply (calls_inv_pop m).
  - apply calls_inv_started. by eapply (calls_inv_pop m).
Qed.

Lemma calls_inv_boot source : calls_inv (boot source).
Proof. intros s x [=]. Qed.

Lemma calls_inv_play oper source s :
  calls_inv (play oper s (boot source)).
Proof.
  induction s as [|a s IH] using rev_ind; [apply calls_inv_boot|].
  rewrite play_snoc.
  eapply (calls_inv_transition oper (play oper s (boot source)) a);
    [| |done|apply react_transition].
  - apply wf_play, wf_boot.
  - apply (one_place_play oper s (boot source)); [apply wf_boot|apply one_place_boot].
Qed.

(** X5.  Whatever the workers do with their continuations (call them
    late, twice, with an error after a success), the completion
    callbacks of a run of a step are called at most once each, in the
    order of their registration, all with the same error and the same
    result object; none is called before the step is latched, and all of
    them are called once the callback loop is through.  The error is the
    truthy value that failed the step, or [null]. *)
Theorem callbacks_are_called_once oper source schedule state st :
  states (play oper schedule (boot source)) !! state = Some st ->
  called_back_once (play oper schedule (boot source)) state st.
Proof.
  intros Hst. set (m := play oper schedule (boot source)) in *.
  assert (wf oper m) as Hwf by apply wf_play, wf_boot.
  destruct (done st) eqn:Hd.
  - destruct (calls_inv_play oper source schedule state st Hst Hd) as (e & He & Hc & _).
    exists e, (default (length (callbacks (step st))) (loop_index state (stack m))).
    split; [done|]. split; [done|]. split; [congruence|]. by intros _ ->.
  - exists VNull, 0. split; [by right|]. split; [|split; [done|congruence]].
    rewrite take_0. by eapply callback_calls_active.
Qed.

Lemma callbacks_are_called_once_witness :
  called_back_once (play map_chain map_run (boot (items test_items))) 0 map_done_state.
Proof.
  apply (callbacks_are_called_once map_chain (items test_items) map_run 0 map_done_state).
  reflexivity.
Defined.

(** ** A parallel step hands out each element once *)

Lemma dispatch_ok_same m m' state st st' es :
  dispatch_ok m state st -> input st' = input st ->
  trace m' = trace m ++ es -> Forall (no_worker state) es ->
  (∀ r, length (contents r m) <= length (contents r m')) ->
  (∀ s arr i len, ForEachLoop s state arr i len ∈ stack m' ->
                  ForEachLoop s state arr i len ∈ stack m) ->
  dispatch_ok m' state st'.
Proof.
  intros [D1 D2 D3 D4] Hi Ht Hes Hg Hk.
  assert (worker_calls state (trace m') = worker_calls state (trace m)) as Hw.
  { by rewrite Ht, worker_calls_app, (worker_calls_others state es), app_nil_r. }
  split; rewrite ?Hw, ?Hi.
  - done.
  - eapply Forall_impl; [done|]. intros i Hlt. simpl in *.
    specialize (Hg (input st)). lia.
  - intros f item i next. rewrite Ht.
    intros [Hin|Hin]%elem_of_app; [by eapply D3|].
    eapply Forall_forall in Hes; [|done]. by simpl in Hes.
  - intros s arr i len Hin. destruct (D4 s arr i len) as (-> & Hl & Hb); [by apply Hk|].
    split; [done|]. split; [|done]. specialize (Hg (input st)). lia.
Qed.

Lemma worker_calls_fresh oper m state :
  wf oper m -> length (states m) <= state ->
  Forall (no_worker state) (trace m).
Proof.
  intros [_ _ W3] Hs. eapply Forall_impl; [done|].
  intros [s f item i next| |]; simpl; [|done..].
  intros (x & Hx%lookup_lt_Some & _). lia.
Qed.

Lemma each_states_elem s state arr i len k :
  ForEachLoop s state arr i len ∈ k -> state ∈ each_states k.
Proof.
  intros H. unfold each_states. apply list_elem_of_omap.
  by exists (ForEachLoop s state arr i len).
Qed.

Lemma each_states_fresh oper m state :
  wf oper m -> length (states m) <= state -> state ∉ each_states (stack m).
Proof.
  intros [_ W2 _] Hs [f [Hf Hfs]]%list_elem_of_omap.
  eapply Forall_forall in W2; [|done].
  destruct f as [s x arr i len|]; [|done]. injection Hfs as ->.
  destruct W2 as (y & Hy%lookup_lt_Some & _). lia.
Qed.

Lemma contents_started this os arr m r :
  length (contents r m) <= length (contents r (started this os arr m)).
Proof. unfold contents. simpl. apply lookup_default_app_length. Qed.

Lemma dispatch_inv_started this os arr m :
  Forall (no_worker (length (states m))) (trace m) ->
  length (states m) ∉ each_states (stack m) ->
  dispatch_inv m -> dispatch_inv (started this os arr m).
Proof.
  intros Hf Hfresh [N D]. split.
  - simpl. destruct (serial this); [done|]. simpl. by apply NoDup_cons.
  - intros state st [[Hlt Hst]|[-> <-]]%lookup_snoc_Some Hs.
    + eapply (dispatch_ok_same m _ state st st
                (if serial this then [Worker (length (states m)) (callback this)
                                        (aget (contents arr m) 0) 0
                                        (Some (Serialfn (length (states m))))] else []));
        [by apply D|done|..].
      * simpl. destruct (serial this); [done|by rewrite app_nil_r].
      * destruct (serial this); [|done]. apply Forall_singleton. simpl. lia.
      * apply contents_started.
      * simpl. destruct (serial this); [done|].
        intros s a i len [[=]|Hin]%elem_of_cons; [lia|done].
    + simpl in Hs.
      assert (trace (started this os arr m) = trace m) as Ht by (simpl; by rewrite Hs).
      split; rewrite ?Ht, ?(worker_calls_others _ _ Hf).
      * constructor.
      * constructor.
      * intros f item i next Hin. eapply Forall_forall in Hf; [|done]. by simpl in Hf.
      * simpl. rewrite Hs. intros s a i len [[= -> -> -> ->]|Hin]%elem_of_cons.
        -- split; [done|]. split; [apply contents_started|constructor].
        -- exfalso. apply Hfresh. by eapply each_states_elem.
Qed.

Lemma dispatch_inv_quiet m m' es :
  dispatch_inv m ->
  (∀ r, length (contents r m) <= length (contents r m')) ->
  trace m' = trace m ++ es ->
  each_states (stack m') `sublist_of` each_states (stack m) ->
  (∀ s state arr i len, ForEachLoop s state arr i len ∈ stack m' ->
                        ForEachLoop s state arr i len ∈ stack m) ->
  (∀ state st', states m' !! state = Some st' -> serial (step st') = false ->
     Forall (no_worker state) es
     ∧ ∃ st, states m !! state = Some st ∧ step st = step st' ∧ input st' = input st) ->
  dispatch_inv m'.
Proof.
  intros [N D] Hg Ht Hsub Hk Hs. split; [by eapply sublist_NoDup|].
  intros state st' Hst' Hser. destruct (Hs state st' Hst' Hser) as (Hes & st & Hst & E1 & E2).
  eapply (dispatch_ok_same m m' state st st' es); try done.
  - apply D; [done|congruence].
  - intros s arr i len. apply Hk.
Qed.

Lemma Forall_lt_S (l : list nat) i : Forall (fun j => j < i) l -> Forall (fun j => j < S i) l.
Proof. intros H. eapply Forall_impl; [done|]. intros; simpl in *; lia. Qed.

Lemma dispatch_inv_turn m m' s state arr i len rest es :
  dispatch_inv m ->
  stack m = ForEachLoop s state arr i len :: rest ->
  stack m' = ForEachLoop s state arr (S i) len :: rest ->
  states m' = states m -> heap m' = heap m ->
  trace m' = trace m ++ es ->
  i < len ->
  (es = [] ∨ ∃ f v, es = [Worker state f v i (Some (Each state i))]) ->
  dispatch_inv m'.
Proof.
  intros [N D] Hk Hk' Hs Hh Ht Hi Hes. split.
  - rewrite Hk'. by rewrite Hk in N.
  - intros x st Hst Hser. rewrite Hs in Hst. specialize (D x st Hst Hser).
    assert (∀ r, length (contents r m) <= length (contents r m')) as Hg.
    { intros r. unfold contents. by rewrite Hh. }
    destruct (decide (x = state)) as [->|Hne].
    + destruct D as [D1 D2 D3 D4].
      destruct (D4 s arr i len) as (-> & Hl & Hb); [rewrite Hk; by left|].
      assert (∀ s' a' i' len', ForEachLoop s' state a' i' len' ∈ stack m' ->
                s' = s ∧ a' = input st ∧ i' = S i ∧ len' = len) as Hone.
      { intros s' a' i' len'. rewrite Hk'.
        intros [[= -> -> -> ->]|Hin]%elem_of_cons; [done|].
        exfalso. rewrite Hk in N. simpl in N. apply NoDup_cons in N as [N _].
        apply N. by eapply each_states_elem. }
      assert (length (contents (input st) m') = length (contents (input st) m)) as Hc.
      { unfold contents. by rewrite Hh. }
      destruct Hes as [->|(f & v & ->)].
      * rewrite app_nil_r in Ht. split; rewrite ?Ht, ?Hc; try done.
        intros s' a' i' len' (-> & -> & -> & ->)%Hone.
        split; [done|]. split; [lia|by apply Forall_lt_S].
      * assert (worker_calls state (trace m') = worker_calls state (trace m) ++ [i]) as Hw.
        { rewrite Ht, worker_calls_app. simpl. by rewrite decide_True. }
        split; rewrite ?Hw, ?Hc.
        -- apply StronglySorted_app_2; [|done|repeat constructor].
           intros x1 x2 Hx1 ->%list_elem_of_singleton.
           by eapply Forall_forall in Hb.
        -- apply Forall_app. split; [done|]. apply Forall_singleton. lia.
        -- intros f' item i' next. rewrite Ht.
           intros [Hin|[= -> -> -> ->]%list_elem_of_singleton]%elem_of_app;
             [by eapply D3|done].
        -- intros s' a' i' len' (-> & -> & -> & ->)%Hone.
           split; [done|]. split; [lia|]. apply Forall_app. split.
           ++ by apply Forall_lt_S.
           ++ apply Forall_singleton. lia.
    + eapply (dispatch_ok_same m m' x st st es); try done.
      * destruct Hes as [->|(f & v & ->)]; [done|]. apply Forall_singleton. simpl. congruence.
      * intros s' a' i' len'. rewrite Hk, Hk'.
        intros [[= -> -> -> ->]|Hin]%elem_of_cons; [done|by right].
Qed.

Lemma states_insert_same (m : machine) state st st' x y :
  states m !! state = Some st ->
  <[state := st']> (states m) !! x = Some y ->
  step st' = step st -> input st' = input st ->
  ∃ z, states m !! x = Some z ∧ step z = step y ∧ input y = input z.
Proof.
  intros Hst [(-> & <- & _)|[Hne Hx]]%list_lookup_insert_Some E1 E2.
  - by exists st.
  - by exists y.
Qed.

Lemma dispatch_inv_transition oper m a m' :
  wf oper m -> dispatch_inv m -> transition oper m a m' -> dispatch_inv m'.
Proof.
  intros Hwf Hinv Ht.
  pose proof (fun r => transition_heap_grows oper m a m' r Ht) as Hg. revert Hg.
  pose proof (worker_calls_fresh oper m (length (states m)) Hwf (reflexivity _)) as Hfw.
  pose proof (each_states_fresh oper m (length (states m)) Hwf (reflexivity _)) as Hfe.
  destruct Ht; intros Hg.
  - done.
  - apply dispatch_inv_started; [exact Hfw|exact Hfe|].
    destruct Hinv as [N D]. split; [done|].
    intros x y Hy Hs. destruct (D x y Hy Hs). by split.
  - eapply (dispatch_inv_quiet m _ [_]); try done.
    intros x y Hy Hser. split; [by apply Forall_singleton|by exists y].
  - eapply (dispatch_inv_quiet m _ [_]); try done.
    intros x y Hy Hser. split; [by apply Forall_singleton|by exists y].
  - (* call_error *)
    pose proof (target_lookup _ _ _ _ _ H) as Hst.
    eapply (dispatch_inv_quiet m _ [_]); try done; simpl.
    + intros s x arr j len [[=]|Hin]%elem_of_cons. done.
    + intros x y Hy Hser. split; [by apply Forall_singleton|].
      by eapply states_insert_same.
  - (* call_more *)
    pose proof (target_lookup _ _ _ _ _ H) as Hst.
    eapply (dispatch_inv_quiet m _ (_ :: _)); try done; simpl.
    intros x y Hy Hser. split; [|by eapply states_insert_same].
    apply Forall_cons. split; [done|].
    destruct (serial (step st)) eqn:Hss; [|done]. apply Forall_singleton. simpl.
    intros ->. rewrite list_lookup_insert_eq in Hy by (by eapply lookup_lt_Some).
    injection Hy as <-. simpl in Hser. congruence.
  - (* call_last *)
    pose proof (target_lookup _ _ _ _ _ H) as Hst.
    eapply (dispatch_inv_quiet m _ [_]); try done; simpl.
    + intros s x arr j len [[=]|Hin]%elem_of_cons. done.
    + intros x y Hy Hser. split; [by apply Forall_singleton|].
      by eapply states_insert_same.
  - done.
  - (* tick_each_visit *)
    eapply (dispatch_inv_turn m); try done. right. by do 2 eexists.
  - eapply (dispatch_inv_turn m _ _ _ _ _ _ _ []); try done; simpl.
    + by rewrite app_nil_r.
    + by left.
  - (* tick_each_end *)
    eapply (dispatch_inv_quiet m _ []); try done; simpl.
    + by rewrite app_nil_r.
    + rewrite H. simpl. by apply sublist_cons.
    + intros ????? Hin. rewrite H. by right.
    + intros x y Hy Hser. split; [done|by exists y].
  - (* tick_done_unknown *)
    eapply (dispatch_inv_quiet m _ []); try done; simpl.
    + by rewrite app_nil_r.
    + by rewrite H.
    + intros ????? Hin. rewrite H. by right.
    + intros x y Hy Hser. split; [done|by exists y].
  - (* tick_done_callback *)
    eapply (dispatch_inv_quiet m _ [_]); try done; simpl.
    + by rewrite H.
    + intros ????? [[=]|Hin]%elem_of_cons. rewrite H. by right.
    + intros x y Hy Hser. split; [by apply Forall_singleton|by exists y].
  - (* tick_done_skip *)
    eapply (dispatch_inv_quiet m _ []); try done; simpl.
    + by rewrite app_nil_r.
    + by rewrite H.
    + intros ????? [[=]|Hin]%elem_of_cons. rewrite H. by right.
    + intros x y Hy Hser. split; [done|by exists y].
  - eapply (dispatch_inv_quiet m _ []); try done; simpl.
    + by rewrite app_nil_r.
    + by rewrite H.
    + intros ????? Hin. rewrite H. by right.
    + intros x y Hy Hser. split; [done|by exists y].
  - eapply (dispatch_inv_quiet m _ []); try done; simpl.
    + by rewrite app_nil_r.
    + by rewrite H.
    + intros ????? Hin. rewrite H. by right.
    + intros x y Hy Hser. split; [done|by exists y].
  - eapply (dispatch_inv_quiet m _ []); try done; simpl.
    + by rewrite app_nil_r.
    + by rewrite H.
    + intros ????? Hin. rewrite H. by right.
    + intros x y Hy Hser. split; [done|by exists y].
  - (* tick_done_next *)
    apply dispatch_inv_started; simpl; [exact Hfw|by rewrite H in Hfe|].
    eapply (dispatch_inv_quiet m _ []); try done; simpl.
    + by rewrite app_nil_r.
    + by rewrite H.
    + intros ????? Hin. rewrite H. by right.
    + intros x y Hy Hser. split; [done|by exists y].
Qed.

Lemma dispatch_inv_boot source : dispatch_inv (boot source).
Proof. split; [constructor|]. intros s x [=]. Qed.

Lemma dispatch_inv_play oper source s : dispatch_inv (play oper s (boot source)).
Proof.
  induction s as [|a s IH] using rev_ind; [apply dispatch_inv_boot|].
  rewrite play_snoc.
  eapply (dispatch_inv_transition oper (play oper s (boot source)) a);
    [|done|apply react_transition].
  apply wf_play, wf_boot.
Qed.

(** X6.  Whatever the workers do with their continuations, a parallel
    step calls its worker for ascending indices of its input, so for no
    element twice, and hands each call the continuation of its own
    index. *)
Theorem parallel_step_dispatches_in_order oper source schedule state st :
  states (play oper schedule (boot source)) !! state = Some st ->
  serial (step st) = false ->
  dispatched_in_order (play oper schedule (boot source)) state st.
Proof.
  intros Hst Hs. set (m := play oper schedule (boot source)) in *.
  assert (wf oper m) as [_ _ W3] by apply wf_play, wf_boot.
  destruct (dispatch_inv_play oper source schedule) as [_ D].
  destruct (D state st Hst Hs) as [D1 D2 D3 D4].
  split; [done|]. split; [done|]. intros f item i next Hin. split; [|by eapply D3].
  eapply Forall_forall in W3; [|done]. simpl in W3.
  destruct W3 as (x & Hx & ->). congruence.
Qed.

Lemma parallel_step_dispatches_in_order_witness :
  dispatched_in_order (play map_chain map_run (boot (items test_items))) 0 map_done_state.
Proof.
  apply (parallel_step_dispatches_in_order map_chain (items test_items) map_run 0
           map_done_state); reflexivity.
Defined.

(** ** The [forEach] of a parallel step *)

Lemma tick_each_loop oper m this state arr i n rest :
  stack m = ForEachLoop this state arr i n :: rest -> i < n ->
  heap (tick oper m) = heap m ∧ opers (tick oper m) = opers m
  ∧ states (tick oper m) = states m
  ∧ stack (tick oper m) = ForEachLoop this state arr (S i) n :: rest
  ∧ trace (tick oper m)
    = trace m ++ option_list (dispatch_of this state (contents arr m) i).
Proof.
  intros Hk Hi. unfold tick. rewrite Hk, decide_True by done.
  unfold dispatch_of, ahas, aget, contents. simpl.
  destruct (default [] (heap m !! arr) !! i) as [[v|]|]; simpl;
    by rewrite ?app_nil_r.
Qed.

Lemma ticks_each_loop oper this state arr n rest j :
  ∀ m i, stack m = ForEachLoop this state arr i n :: rest -> i + j <= n ->
    let m' := play oper (replicate j Tick) m in
    heap m' = heap m ∧ opers m' = opers m ∧ states m' = states m
    ∧ stack m' = ForEachLoop this state arr (i + j) n :: rest
    ∧ trace m' = trace m ++ omap (dispatch_of this state (contents arr m)) (seq i j).
Proof.
  induction j as [|j IH]; intros m i Hk Hj; simpl.
  - by rewrite Nat.add_0_r, app_nil_r.
  - destruct (tick_each_loop oper m this state arr i n rest Hk) as (H1 & H2 & H3 & H4 & H5);
      [lia|].
    destruct (IH (tick oper m) (S i) H4) as (I1 & I2 & I3 & I4 & I5); [lia|].
    change (foldl (react oper) (tick oper m) (replicate j Tick))
      with (play oper (replicate j Tick) (tick oper m)).
    rewrite I1, I2, I3, I4, I5, H1, H2, H3, H5.
    replace (S i + j) with (i + S j) by lia.
    do 4 (split; [done|]). rewrite <- app_assoc. f_equal.
    assert (contents arr (tick oper m) = contents arr m) as -> by (unfold contents; by rewrite H1).
    by destruct (dispatch_of this state (contents arr m) i).
Qed.

(** X7.  When a parallel step is run over an array and the [forEach] of
    [run] goes through with no continuation called in the meantime (the
    workers answer later, as those on timers do), the worker is called
    once for each index that holds an element, in ascending order, with
    the element, the index and a continuation of its own; a hole is
    passed over.  At the end of such a loop the step is not latched and
    has counted nothing: it waits for its continuations. *)
Theorem parallel_run_calls_every_worker oper m0 this os arr elems :
  serial this = false ->
  heap m0 !! arr = Some elems ->
  let state := length (states m0) in
  let m := play oper (replicate (S (length elems)) Tick) (Step_run this os arr m0) in
  trace m = trace m0 ++ dispatches this state elems
  ∧ stack m = stack m0
  ∧ states m = states m0 ++ [fresh_state this os arr (length (heap m0)) state].
Proof.
  intros Hs Harr state m. subst m. rewrite Step_run_started.
  replace (S (length elems)) with (length elems + 1) by lia.
  rewrite replicate_add, play_app.
  set (m1 := started this os arr m0).
  assert (contents arr m1 = elems) as Hc.
  { unfold contents, m1. simpl. by rewrite (heap_app_mono _ _ _ _ Harr). }
  assert (contents arr m0 = elems) as Hc0 by (unfold contents; by rewrite Harr).
  assert (stack m1 = ForEachLoop this state arr 0 (length elems) :: stack m0) as Hk.
  { unfold m1. simpl. by rewrite Hs, Hc0. }
  destruct (ticks_each_loop oper this state arr (length elems) (stack m0) (length elems)
              m1 0 Hk) as (H1 & H2 & H3 & H4 & H5); [lia|].
  set (m2 := play oper (replicate (length elems) Tick) m1) in *.
  simpl. unfold tick. rewrite H4. simpl. rewrite decide_False by lia. simpl.
  rewrite H5, H3, Hc. unfold m1. simpl. by rewrite Hs.
Qed.

Lemma parallel_run_calls_every_worker_witness :
  let m := play map_chain (replicate 5 Tick) (Step_run map_step 0 0 exec_machine) in
  trace m = trace exec_machine ++ dispatches map_step 0 (items test_items)
  ∧ stack m = stack exec_machine
  ∧ states m = states exec_machine ++ [fresh_state map_step 0 0 1 0].
Proof.
  apply (parallel_run_calls_every_worker map_chain exec_machine map_step 0 0
           (items test_items)); reflexivity.
Defined.

(** ** Completion is counted *)

Lemma max_list_snoc (l : list nat) x : max_list (l ++ [x]) = max_list l `max` x.
Proof. induction l as [|y l IH]; simpl; [lia|]. rewrite IH. lia. Qed.

Lemma foldl_aset_any values order :
  let acc := foldl (accumulate MapProto values) [] order in
  length acc = (if decide (order = []) then 0 else S (max_list order))
  ∧ ∀ i, i < length acc ->
         acc !! i = Some (if decide (i ∈ order) then Some (values i) else None).
Proof.
  induction order as [|x order IH] using rev_ind; simpl.
  - split; [done|]. intros i Hi. simpl in Hi. lia.
  - rewrite foldl_app. simpl. destruct IH as [IH1 IH2].
    assert (length (foldl (accumulate MapProto values) [] order) = 0
            ∧ max_list order = 0
            ∨ length (foldl (accumulate MapProto values) [] order) = S (max_list order))
      as F.
    { rewrite IH1. destruct (decide (order = [])) as [->|_]; [by left|by right]. }
    set (acc := foldl (accumulate MapProto values) [] order) in *.
    rewrite decide_False by (intros E; by apply app_eq_nil in E as [_ [=]]).
    rewrite max_list_snoc.
    assert (∀ i, i ∈ order -> i < length acc) as Hin.
    { intros i Hi. rewrite IH1. destruct (decide (order = [])) as [->|_].
      - by apply elem_of_nil in Hi.
      - apply max_list_elem_of_le in Hi. lia. }
    unfold aset. destruct (decide (x < length acc)) as [Hx|Hx].
    + rewrite length_insert. split.
      * lia.
      * intros i Hi. destruct (decide (i = x)) as [->|Hne].
        -- rewrite list_lookup_insert_eq by done.
           rewrite decide_True by (apply elem_of_app; right; by apply list_elem_of_singleton).
           done.
        -- rewrite list_lookup_insert_ne by done. rewrite IH2 by done.
           f_equal. destruct (decide (i ∈ order)) as [Hi'|Hi'].
           ++ by rewrite decide_True by (apply elem_of_app; by left).
           ++ rewrite decide_False; [done|].
              intros [?|?%list_elem_of_singleton]%elem_of_app; done.
    + rewrite !length_app, length_replicate. simpl. split.
      * lia.
      * intros i Hi. destruct (decide (i < length acc)) as [Hlt|Hge].
        -- rewrite lookup_app_l by done. rewrite IH2 by done.
           f_equal. destruct (decide (i ∈ order)) as [Hi'|Hi'].
           ++ by rewrite decide_True by (apply elem_of_app; by left).
           ++ rewrite decide_False; [done|].
              intros [?|?%list_elem_of_singleton]%elem_of_app; [done|lia].
        -- rewrite lookup_app_r by lia.
           destruct (decide (i = x)) as [->|Hne].
           ++ rewrite lookup_app_r by (rewrite length_replicate; lia).
              rewrite length_replicate, Nat.sub_diag. simpl.
              rewrite decide_True
                by (apply elem_of_app; right; by apply list_elem_of_singleton).
              done.
           ++ rewrite lookup_app_l by (rewrite length_replicate; lia).
              rewrite lookup_replicate_2 by lia.
              rewrite decide_False; [done|].
              intros [Hi'%Hin|?%list_elem_of_singleton]%elem_of_app; [lia|done].
Qed.

Lemma counted_map_outcome this elems values order :
  prototype this = MapProto -> order ≠ [] ->
  outcome this elems (foldl (accumulate MapProto values) [] order)
  = counted_map values order.
Proof.
  intros Hp Hne. unfold outcome. rewrite decide_False by (rewrite Hp; intros [? _]; done).
  rewrite AsyncArray_Some. unfold arguments_of. rewrite !map_fmap.
  destruct (foldl_aset_any values order) as [H1 H2]. rewrite decide_False in H1 by done.
  set (acc := foldl (accumulate MapProto values) [] order) in *.
  unfold counted_map. apply list_eq. intros i. rewrite !list_lookup_fmap.
  destruct (decide (i < S (max_list order))) as [Hi|Hi].
  - rewrite H2 by lia. rewrite lookup_seq_lt by done. simpl.
    by destruct (decide (i ∈ order)).
  - rewrite lookup_seq_ge by lia. rewrite (lookup_ge_None_2 acc) by lia. done.
Qed.

(** X8.  A parallel map step counts the calls of its continuations, not
    the elements they stand for: it is latched by the [n]-th call over
    an input of [n] elements, whatever the indices of the calls.  When a
    continuation is called twice and another one not yet, the completion
    callbacks are given an array that ends at the greatest index a call
    was made for and holds [undefined] where no call was made. *)
Theorem map_completes_by_count oper m0 this os arr values order schedule :
  wf oper m0 ->
  prototype this = MapProto ->
  serial this = false ->
  length order = length (contents arr m0) ->
  order ≠ [] ->
  completes this (length (states m0)) values order schedule ->
  delivered this (length (states m0)) (counted_map values order)
    (length (contents arr m0))
    (play oper schedule (Step_run this os arr m0)).
Proof.
  intros Hwf Hp Hs Hlen Hne Hc.
  pose proof (step_completes oper m0 this os arr values order schedule Hwf Hlen Hne) as H.
  rewrite Hp, counted_map_outcome in H by done.
  apply H; [|done]. intros Hs'. congruence.
Qed.

(** X9.  A for-each step that completes, parallel or serial, hands its
    completion callbacks an empty array, whatever its input holds and
    whatever its continuations were given. *)
Theorem forEach_hands_on_nothing oper m0 this os arr values order schedule :
  wf oper m0 ->
  prototype this = StepProto ->
  length order = length (contents arr m0) ->
  order ≠ [] ->
  (serial this = true -> order = seq 0 (length order)) ->
  completes this (length (states m0)) values order schedule ->
  delivered this (length (states m0)) [] (length (contents arr m0))
    (play oper schedule (Step_run this os arr m0)).
Proof.
  intros Hwf Hp Hlen Hne Hs Hc.
  pose proof (step_completes oper m0 this os arr values order schedule Hwf Hlen Hne Hs Hc)
    as H.
  rewrite Hp in H.
  assert (foldl (accumulate StepProto values) [] order = []) as E.
  { clear. induction order as [|i order IH]; [done|]. exact IH. }
  rewrite E in H. unfold outcome in H.
  rewrite decide_False in H by (rewrite Hp; intros [? _]; done). exact H.
Qed.

Lemma map_completes_by_count_witness :
  delivered map_step 0
    [Some (VStr "did 0"); Some (VStr "did 1"); Some VUndefined; Some (VStr "did 3")]
    4 (play map_chain map_doubled (Step_run map_step 0 0 exec_machine)).
Proof.
  apply (map_completes_by_count map_chain exec_machine map_step 0 0 did [0; 0; 1; 3]
           map_doubled).
  - split; constructor.
  - reflexivity.
  - reflexivity.
  - reflexivity.
  - discriminate.
  - repeat constructor.
Defined.

Lemma forEach_hands_on_nothing_witness :
  delivered forEach_step 0 [] 4
    (play forEach_chain forEach_reversed (Step_run forEach_step 0 0 exec_machine)).
Proof.
  apply (forEach_hands_on_nothing forEach_chain exec_machine forEach_step 0 0
           (fun _ => VUndefined) [3; 2; 1; 0] forEach_reversed).
  - split; constructor.
  - reflexivity.
  - reflexivity.
  - discriminate.
  - discriminate.
  - repeat constructor.
Defined.

Lemma sort_indices (l : list nat) :
  sort_values SORTFN (index_value <$> l) = index_value <$> merge_sort le l.
Proof.
  apply (StronglySorted_unique_strong sorts_before).
  - intros x1 x2 Hx1 Hx2. rewrite sort_values_perm in Hx1.
    apply list_elem_of_fmap in Hx1 as (i & -> & _).
    apply list_elem_of_fmap in Hx2 as (j & -> & _).
    unfold sorts_before, SORTFN, index_value. simpl. intros. f_equal. lia.
  - apply sort_values_sorted.
  - eapply (StronglySorted_fmap _ le).
    + intros x y Hxy. unfold sorts_before, SORTFN, index_value. simpl. lia.
    + apply StronglySorted_merge_sort; apply _.
  - rewrite sort_values_perm. by rewrite merge_sort_Permutation.
Qed.

(** X10.  A parallel filter step, too, counts the calls of its
    continuations: it is latched by the [n]-th call over an input of [n]
    elements, whatever the indices of the calls, and it keeps an element
    once for every call of its continuation with [true].  The kept
    elements are handed on in the order of the input, whatever the order
    of the calls. *)
Theorem filter_keeps_by_count oper m0 this os arr values order schedule :
  wf oper m0 ->
  prototype this = FilterProto ->
  serial this = false ->
  length order = length (contents arr m0) ->
  order ≠ [] ->
  completes this (length (states m0)) values order schedule ->
  delivered this (length (states m0))
    (counted_filter (contents arr m0) values order)
    (length (contents arr m0))
    (play oper schedule (Step_run this os arr m0)).
Proof.
  intros Hwf Hp Hs Hlen Hne Hc.
  pose proof (step_completes oper m0 this os arr values order schedule Hwf Hlen Hne) as H.
  rewrite Hp in H. unfold outcome in H. rewrite decide_True in H by done.
  rewrite foldl_filter, app_nil_l in H.
  rewrite asort_indices, sort_indices, picked_indices in H.
  rewrite (AsyncArray_fmap_Some (aget (contents arr m0))) in H.
  apply H; [|done]. intros Hs'. congruence.
Qed.

Lemma filter_keeps_by_count_witness :
  delivered filter_step 0 [Some (VNum 1); Some (VNum 4); Some (VNum 4)] 4
    (play filter_chain filter_doubled (Step_run filter_step 0 0 exec_machine)).
Proof.
  apply (filter_keeps_by_count filter_chain exec_machine filter_step 0 0
           (fun i => match i with 2 => VUndefined | _ => VBool true end)
           [3; 3; 2; 0] filter_doubled).
  - split; constructor.
  - reflexivity.
  - reflexivity.
  - reflexivity.
  - discriminate.
  - repeat constructor.
Defined.

(** ** The steps are run in the order of the chain *)

Lemma placed_mono oper m m' state st st' k :
  placed oper m state st k ->
  step st' = step st -> input st' = input st -> oper_state st' = oper_state st ->
  (∀ prev pst, states m !! prev = Some pst -> done pst = true ->
               states m' !! prev = Some pst) ->
  (∀ prev pst, states m !! prev = Some pst -> done pst = true ->
     callback_calls prev (trace m) = expected_calls (step pst) VNull (result pst) ->
     callback_calls prev (trace m') = callback_calls prev (trace m)) ->
  placed oper m' state st' k.
Proof.
  intros [P1 P2] E1 E2 E3 Hs Hc. split; [by rewrite E1|].
  destruct k as [|j]; [by rewrite E2|].
  destruct P2 as (prev & pst & Q1 & Q2 & Q3 & Q4 & Q5 & Q6 & Q7).
  exists prev, pst. rewrite E2, E3. split; [done|]. split; [by apply Hs|].
  do 4 (split; [done|]). by rewrite (Hc prev pst).
Qed.

Lemma chain_inv_frame oper m m' :
  chain_inv oper m ->
  (∀ x y', states m' !! x = Some y' ->
     ∃ y, states m !! x = Some y ∧ step y' = step y ∧ input y' = input y
          ∧ oper_state y' = oper_state y
          ∧ (active m' x y' -> active m x y
                               ∧ opers m' !! oper_state y = opers m !! oper_state y)) ->
  (∀ prev pst, states m !! prev = Some pst -> done pst = true ->
               states m' !! prev = Some pst) ->
  (∀ prev pst, states m !! prev = Some pst -> done pst = true ->
     callback_calls prev (trace m) = expected_calls (step pst) VNull (result pst) ->
     callback_calls prev (trace m') = callback_calls prev (trace m)) ->
  chain_inv oper m'.
Proof.
  intros Hinv Hst Hs Hc x y' Hy'.
  destruct (Hst x y' Hy') as (y & Hy & E1 & E2 & E3 & Ha).
  destruct (Hinv x y Hy) as (k & Hp & Hk). exists k. split.
  - by eapply placed_mono.
  - intros [Ha' Ho]%Ha. rewrite E3, Ho. by apply Hk.
Qed.

Lemma callback_calls_started this os arr m x :
  callback_calls x (trace (started this os arr m)) = callback_calls x (trace m).
Proof.
  simpl. destruct (serial this); [|done].
  by rewrite callback_calls_snoc_other.
Qed.

Lemma active_started this os arr m x y :
  active (started this os arr m) x y -> active m x y.
Proof.
  intros [H|(f & Hin & Hf & Hs)]; [by left|]. right. exists f. split; [|done].
  simpl in Hin. destruct (serial this); [done|].
  apply elem_of_cons in Hin as [->|Hin]; done.
Qed.

Lemma chain_inv_started oper this os arr m k :
  chain_inv oper m ->
  placed oper m (length (states m))
    (fresh_state this os arr (length (heap m)) (length (states m))) k ->
  index <$> opers m !! os = Some k ->
  chain_inv oper (started this os arr m).
Proof.
  intros Hinv Hp Hk x y [[Hlt Hy]|[-> <-]]%lookup_snoc_Some.
  - destruct (Hinv x y Hy) as (j & Hj & Ha). exists j. split.
    + eapply placed_mono; try done.
      * intros prev pst Hprev _. simpl. by apply lookup_app_l_Some.
      * intros prev pst _ _ _. apply callback_calls_started.
    + intros Hact%active_started. by apply Ha.
  - exists k. split; [|done].
    eapply placed_mono; try done.
    + intros prev pst Hprev _. simpl. by apply lookup_app_l_Some.
    + intros prev pst _ _ _. apply callback_calls_started.
Qed.

Lemma active_insert (m m' : machine) state st st' x y :
  states m !! state = Some st -> done st = false ->
  states m' = <[state := st']> (states m) ->
  (∀ f, f ∈ stack m' -> is_done_loop f = true -> frame_state f ≠ state -> f ∈ stack m) ->
  states m' !! x = Some y ->
  ∃ z, states m !! x = Some z ∧ (x = state -> y = st' ∧ z = st) ∧ (x ≠ state -> y = z)
       ∧ (active m' x y -> active m x z).
Proof.
  intros Hst Hd -> Hk [(-> & <- & _)|[Hne Hx]]%list_lookup_insert_Some.
  - exists st. split; [done|]. split; [done|]. split; [done|]. intros _. by left.
  - exists y. split; [done|]. split; [done|]. split; [done|].
    intros [H|(f & Hin & Hf & Hs)]; [by left|]. right. exists f.
    split; [|done]. apply Hk; [done|done|congruence].
Qed.

Lemma chain_inv_insert oper m m' state st st' :
  chain_inv oper m ->
  states m !! state = Some st -> done st = false ->
  states m' = <[state := st']> (states m) ->
  step st' = step st -> input st' = input st -> oper_state st' = oper_state st ->
  opers m' = opers m ->
  (∀ f, f ∈ stack m' -> is_done_loop f = true -> frame_state f ≠ state -> f ∈ stack m) ->
  (∀ x, callback_calls x (trace m') = callback_calls x (trace m)) ->
  chain_inv oper m'.
Proof.
  intros Hinv Hst Hd Hs E1 E2 E3 Ho Hk Hc.
  eapply (chain_inv_frame oper m); [done|..].
  - intros x y Hy.
    destruct (active_insert m m' state st st' x y Hst Hd Hs Hk Hy) as (z & Hz & H1 & H2 & H3).
    exists z. split; [done|].
    destruct (decide (x = state)) as [Hx|Hx].
    + destruct (H1 Hx) as [-> ->]. do 3 (split; [done|]). intros Ha. split; [by apply H3|].
      by rewrite Ho.
    + rewrite (H2 Hx). do 3 (split; [done|]). intros Ha. split; [|by rewrite Ho].
      apply H3. by rewrite (H2 Hx).
  - intros prev pst Hprev Hpd. rewrite Hs. rewrite list_lookup_insert_ne; [done|].
    intros <-. congruence.
  - intros prev pst _ _ _. apply Hc.
Qed.

Lemma chain_inv_same oper m m' :
  chain_inv oper m ->
  states m' = states m -> opers m' = opers m ->
  (∀ f, f ∈ stack m' -> is_done_loop f = true ->
        ∃ g, g ∈ stack m ∧ is_done_loop g = true ∧ frame_state g = frame_state f) ->
  (∀ prev pst, states m !! prev = Some pst -> done pst = true ->
     callback_calls prev (trace m) = expected_calls (step pst) VNull (result pst) ->
     callback_calls prev (trace m') = callback_calls prev (trace m)) ->
  chain_inv oper m'.
Proof.
  intros Hinv Hs Ho Hk Hc. eapply (chain_inv_frame oper m); [done|..].
  - intros x y Hy. rewrite Hs in Hy. exists y. do 4 (split; [done|]).
    intros [H|(f & Hin & Hf & Hfs)]; (split; [|by rewrite Ho]); [by left|].
    right. destruct (Hk f Hin Hf) as (g & Hg1 & Hg2 & Hg3). exists g.
    split; [done|]. split; [done|congruence].
  - intros prev pst Hprev _. by rewrite Hs.
  - done.
Qed.

Lemma chain_inv_advance oper m m' this e state i il rest st os :
  one_place m -> chain_inv oper m ->
  stack m = DoneLoop this e state i il :: rest -> states m !! state = Some st ->
  states m' = states m -> stack m' = rest -> trace m' = trace m ->
  opers m' = <[oper_state st := os]> (opers m) ->
  chain_inv oper m'.
Proof.
  intros [O1 O2 O3] Hinv Hk Hst Hs Hk' Ht Ho.
  eapply (chain_inv_frame oper m); [done|..].
  - intros x y Hy. rewrite Hs in Hy. exists y. do 4 (split; [done|]).
    pose proof (run_of_Some m state st Hst) as Hrun.
    intros [H|(f & Hin & Hf & Hfs)].
    + split; [by left|]. rewrite Ho, list_lookup_insert_ne; [done|].
      intros E. eapply (O2 x y (DoneLoop this e state i il)); try done.
      * rewrite Hk. by left.
      * simpl. by rewrite Hrun, E.
    + rewrite Hk' in Hin. split.
      * right. exists f. split; [|done]. rewrite Hk. by right.
      * rewrite Ho, list_lookup_insert_ne; [done|].
        intros E. rewrite Hk in O3. destruct O3 as [O3 _].
        apply (O3 eq_refl f Hin Hf). simpl.
        rewrite Hfs, Hrun, (run_of_Some m x y Hy). by rewrite E.
  - intros prev pst Hprev _. by rewrite Hs.
  - intros prev pst _ _ _. by rewrite Ht.
Qed.

Lemma calls_ok_through m state st this e i il rest :
  calls_ok m state st ->
  stack m = DoneLoop this e state i il :: rest -> il <= i -> truthy e = false ->
  this = step st
  ∧ callback_calls state (trace m) = expected_calls (step st) VNull (result st).
Proof.
  intros (e0 & He & Hc & Hf) Hk Hi Hfalse.
  destruct (Hf (DoneLoop this e state i il)) as (i' & Hi');
    [rewrite Hk; by left|done|done|].
  injection Hi' as -> -> _ ->. split; [done|].
  destruct He as [He| ->]; [congruence|].
  rewrite Hc, Hk. simpl. rewrite decide_True by done. simpl.
  apply take_ge. unfold expected_calls. rewrite length_fmap. lia.
Qed.

Lemma chain_inv_transition oper m a m' :
  wf oper m -> one_place m -> calls_inv m -> chain_inv oper m ->
  transition oper m a m' -> chain_inv oper m'.
Proof.
  intros Hwf Hop Hci Hinv Ht. destruct Ht.
  - done.
  - (* exec_first *)
    apply (chain_inv_started oper _ _ _ _ 0).
    + eapply (chain_inv_frame oper m); [done|..]; simpl.
      * intros x y Hy. exists y. do 4 (split; [done|]). intros Ha. split; [done|].
        destruct Hwf as [W1 _ _]. eapply Forall_lookup_1 in W1 as [W1 _]; [|done].
        by rewrite lookup_app_l.
      * done.
      * done.
    + done.
    + simpl. by rewrite lookup_snoc.
  - (* call_unknown *)
    eapply (chain_inv_same oper m); try done; simpl.
    + intros f Hin Hf. by exists f.
    + intros prev pst _ _ _. by rewrite callback_calls_snoc_other.
  - (* call_late *)
    eapply (chain_inv_same oper m); try done; simpl.
    + intros f Hin Hf. by exists f.
    + intros prev pst _ _ _. by rewrite callback_calls_snoc_other.
  - (* call_error *)
    pose proof (target_lookup _ _ _ _ _ H) as Hst.
    eapply (chain_inv_insert oper m _ state st); try done; simpl.
    + intros f [->|Hin]%elem_of_cons _ Hne; [done|done].
    + intros x. by rewrite callback_calls_snoc_other.
  - (* call_more *)
    pose proof (target_lookup _ _ _ _ _ H) as Hst.
    eapply (chain_inv_insert oper m _ state st); try done; simpl.
    intros x. rewrite callback_calls_app. simpl.
    destruct (serial (step st)); simpl; by rewrite app_nil_r.
  - (* call_last *)
    pose proof (target_lookup _ _ _ _ _ H) as Hst.
    eapply (chain_inv_insert oper m _ state st); try done; simpl.
    + intros f [->|Hin]%elem_of_cons _ Hne; [done|done].
    + intros x. by rewrite callback_calls_snoc_other.
  - done.
  - (* tick_each_visit *)
    eapply (chain_inv_same oper m); try done; simpl.
    + intros f [->|Hin]%elem_of_cons Hf; [done|]. exists f. rewrite H.
      split; [by right|done].
    + intros prev pst _ _ _. by rewrite callback_calls_snoc_other.
  - eapply (chain_inv_same oper m); try done; simpl.
    intros f [->|Hin]%elem_of_cons Hf; [done|]. exists f. rewrite H.
    split; [by right|done].
  - eapply (chain_inv_same oper m); try done; simpl.
    intros f Hin Hf. exists f. rewrite H. split; [by right|done].
  - (* tick_done_unknown *)
    exfalso. destruct Hwf as [_ W2 _]. rewrite H in W2.
    apply Forall_cons in W2 as [(y & Hy & _) _]. congruence.
  - (* tick_done_callback *)
    eapply (chain_inv_same oper m); try done; simpl.
    + intros f0 [->|Hin]%elem_of_cons Hf.
      * exists (DoneLoop this error state i il). rewrite H. split; [by left|done].
      * exists f0. rewrite H. split; [by right|done].
    + intros prev pst Hprev Hpd Hfull.
      destruct (decide (prev = state)) as [->|Hne].
      * exfalso. assert (pst = st) as -> by congruence.
        destruct (Hci state st Hprev Hpd) as (e0 & He & Hc & Hf).
        destruct (Hf (DoneLoop this error state i il)) as (i' & Hi');
          [rewrite H; by left|done|done|].
        injection Hi' as -> -> _ ->.
        rewrite Hc, H in Hfull. simpl in Hfull. rewrite decide_True in Hfull by done.
        apply (f_equal length) in Hfull. simpl in Hfull.
        rewrite length_take in Hfull. unfold expected_calls in Hfull.
        rewrite !length_fmap in Hfull. lia.
      * rewrite callback_calls_app. simpl. rewrite decide_False by done.
        by rewrite app_nil_r.
  - (* tick_done_skip *)
    eapply (chain_inv_same oper m); try done; simpl.
    intros f0 [->|Hin]%elem_of_cons Hf.
    + exists (DoneLoop this error state i il). rewrite H. split; [by left|done].
    + exists f0. rewrite H. split; [by right|done].
  - (* tick_done_halt *)
    eapply (chain_inv_same oper m); try done; simpl.
    intros f Hin Hf. exists f. rewrite H. split; [by right|done].
  - (* tick_done_stray *)
    eapply (chain_inv_same oper m); try done; simpl.
    intros f Hin Hf. exists f. rewrite H. split; [by right|done].
  - (* tick_done_finished *)
    by eapply (chain_inv_advance oper m).
  - (* tick_done_next *)
    assert (done st = true) as Hd.
    { destruct Hwf as [_ W2 _]. rewrite H in W2.
      apply Forall_cons in W2 as [(y & Hy & _ & Hyd & _) _]. congruence. }
    destruct (calls_ok_through m state st this error i il rest (Hci state st H0 Hd) H H1 H2)
      as [-> Hfull].
    destruct (Hinv state st H0) as (k & [P1 P2] & Hk).
    assert (index os = k) as Hos.
    { assert (index <$> opers m !! oper_state st = Some k) as Hi.
      { apply Hk. right. eexists. rewrite H. split; [by left|done]. }
      rewrite H3 in Hi. by injection Hi. }
    apply (chain_inv_started oper _ _ _ _ (S (index os))).
    + by eapply (chain_inv_advance oper m).
    + split; [done|]. exists state, st. simpl.
      split; [by eapply lookup_lt_Some|]. rewrite Hos. done.
    + simpl. rewrite list_lookup_insert_eq by (by eapply lookup_lt_Some). done.
Qed.

Lemma chain_inv_boot oper source : chain_inv oper (boot source).
Proof. intros s x [=]. Qed.

Lemma chain_inv_play oper source s : chain_inv oper (play oper s (boot source)).
Proof.
  induction s as [|a s IH] using rev_ind; [apply chain_inv_boot|].
  rewrite play_snoc.
  eapply (chain_inv_transition oper (play oper s (boot source)) a);
    [| | |done|apply react_transition].
  - apply wf_play, wf_boot.
  - apply (one_place_play oper s (boot source)); [apply wf_boot|apply one_place_boot].
  - apply calls_inv_play.
Qed.

(** X11.  The steps of a chain are run in the order of the chain.
    Whatever the workers and the callbacks do, every run of a step is
    the run of the first step over the array of the chain, or the run of
    a step over the result of a run of the step before it: one that is
    latched, without an error, and whose completion callbacks have all
    been called, with a null error and the very array the step runs
    over. *)
Theorem steps_run_in_chain_order oper source schedule state st :
  states (play oper schedule (boot source)) !! state = Some st ->
  runs_in_order oper (play oper schedule (boot source)) state st.
Proof.
  intros Hst. destruct (chain_inv_play oper source schedule state st Hst) as (k & Hk & _).
  by exists k.
Qed.

Lemma steps_run_in_chain_order_witness :
  runs_in_order map_chain (play map_chain map_run (boot (items test_items))) 0
    map_done_state.
Proof.
  apply (steps_run_in_chain_order map_chain (items test_items) map_run 0 map_done_state).
  reflexivity.
Defined.

(** ** Every run of a step has a result of its own *)

Lemma finished_length st error (h : list jsarray) :
  length h <= (finished st error h).2
  ∧ (finished st error h).2 < length (finished st error h).1.
Proof.
  unfold finished. case_decide; simpl; rewrite length_app, ?length_insert; simpl; lia.
Qed.

Lemma results_apart_started this os arr m :
  results_apart m -> results_apart (started this os arr m).
Proof.
  intros [B I]. split; simpl.
  - intros s st [[_ Hst]|[_ <-]]%lookup_snoc_Some; rewrite length_app; simpl.
    + specialize (B s st Hst). lia.
    + lia.
  - intros s1 s2 st1 st2 [[H1 Hst1]|[-> <-]]%lookup_snoc_Some
      [[H2 Hst2]|[-> <-]]%lookup_snoc_Some; simpl.
    + by apply I.
    + intros E. specialize (B s1 st1 Hst1). lia.
    + intros E. specialize (B s2 st2 Hst2). lia.
    + done.
Qed.

Lemma results_apart_insert m m' state st st' :
  results_apart m ->
  states m !! state = Some st ->
  states m' = <[state := st']> (states m) ->
  length (heap m) <= length (heap m') ->
  (result st' = result st ∨ length (heap m) <= result st') ->
  result st' < length (heap m') ->
  results_apart m'.
Proof.
  intros [B I] Hst Hs Hh Hr Hb. split; rewrite Hs.
  - intros s x [(-> & <- & _)|[Hne Hx]]%list_lookup_insert_Some; [done|].
    specialize (B s x Hx). lia.
  - intros s1 s2 x1 x2 [(-> & <- & _)|[Hne1 Hx1]]%list_lookup_insert_Some
      [(E & <- & _)|[Hne2 Hx2]]%list_lookup_insert_Some; try done.
    + intros E. destruct Hr as [Hr|Hr].
      * apply (I s1 s2 st x2); [done|done|congruence].
      * specialize (B s2 x2 Hx2). lia.
    + intros E'. destruct Hr as [Hr|Hr].
      * apply (I s1 s2 x1 st); [done|by rewrite <- E|congruence].
      * specialize (B s1 x1 Hx1). lia.
    + by apply I.
Qed.

Lemma results_apart_same m m' :
  results_apart m -> states m' = states m -> length (heap m') = length (heap m) ->
  results_apart m'.
Proof. intros [B I] Hs Hh. split; rewrite Hs, ?Hh; done. Qed.

Lemma results_apart_transition oper m a m' :
  results_apart m -> transition oper m a m' -> results_apart m'.
Proof.
  intros Hinv Ht. destruct Ht; try done;
    try (by eapply results_apart_same).
  - apply results_apart_started. by eapply results_apart_same.
  - (* call_late *)
    eapply results_apart_same; [done|done|]. simpl. apply written_length.
  - (* call_error *)
    pose proof (target_lookup _ _ _ _ _ H) as Hst.
    pose proof (written_length st i data (heap m)) as Hl.
    eapply (results_apart_insert m _ state st); try done; simpl;
      rewrite ?length_app; subst h; simpl; lia.
  - (* call_more *)
    pose proof (target_lookup _ _ _ _ _ H) as Hst.
    pose proof (written_length st i data (heap m)) as Hl.
    eapply (results_apart_insert m _ state st); try done; simpl; subst h.
    + lia.
    + by left.
    + rewrite Hl. by eapply results_bound.
  - (* call_last *)
    pose proof (target_lookup _ _ _ _ _ H) as Hst.
    pose proof (written_length st i data (heap m)) as Hl.
    destruct (finished_length st VNull h) as [F1 F2].
    eapply (results_apart_insert m _ state st); try done; simpl; subst h; lia.
  - apply results_apart_started. by eapply results_apart_same.
Qed.

Lemma results_apart_play oper source s : results_apart (play oper s (boot source)).
Proof.
  induction s as [|a s IH] using rev_ind.
  - split; [intros ? ? [=]|intros ? ? ? ? [=]].
  - rewrite play_snoc.
    eapply (results_apart_transition oper (play oper s (boot source)) a);
      [done|apply react_transition].
Qed.

Lemma callback_calls_elem s f e r c t :
  Callback s f e r c ∈ t -> (f, e, r) ∈ callback_calls s t.
Proof.
  intros H. unfold callback_calls. apply list_elem_of_omap.
  exists (Callback s f e r c). split; [done|]. by rewrite decide_True.
Qed.

Lemma callback_result oper source schedule s f e r c :
  Callback s f e r c ∈ trace (play oper schedule (boot source)) ->
  ∃ st, states (play oper schedule (boot source)) !! s = Some st ∧ r = result st.
Proof.
  intros Hin. set (m := play oper schedule (boot source)) in *.
  assert (wf oper m) as [_ _ W3] by apply wf_play, wf_boot.
  pose proof Hin as Hev. eapply Forall_forall in Hev; [|exact W3]. simpl in Hev.
  destruct Hev as (st & Hst & Hd & _). exists st. split; [done|].
  destruct (calls_inv_play oper source schedule s st Hst Hd) as (e0 & _ & Hc & _).
  apply callback_calls_elem in Hin. fold m in Hc. rewrite Hc in Hin.
  apply elem_of_take in Hin as (j & Hj & _). unfold expected_calls in Hj.
  rewrite list_lookup_fmap in Hj. destruct (callbacks (step st) !! j); [|done].
  simpl in Hj. congruence.
Qed.

(** X12.  The array a completion callback is given belongs to the run of
    the step it is called for: it is the result of this run, a new
    object; it is not the array the chain was made from, nor the array
    the step has run over, nor the array a callback of another run of a
    step is given. *)
Theorem callbacks_get_a_result_of_their_own oper source schedule :
  array oper = 0 ->
  given_its_own (play oper schedule (boot source)).
Proof.
  intros Ho s f e r c Hin. set (m := play oper schedule (boot source)) in *.
  destruct (callback_result oper source schedule s f e r c Hin) as (st & Hst & ->).
  fold m in Hst. exists st. split; [done|]. split; [done|].
  pose proof (source_kept_play oper source schedule _ (source_kept_boot source)) as [_ K].
  pose proof (results_apart_play oper source schedule) as [B I].
  fold m in K, B, I.
  split; [specialize (K s st Hst); lia|]. split.
  - destruct (chain_inv_play oper source schedule s st Hst) as (k & [P1 P2] & _).
    destruct k as [|j].
    + rewrite P2, Ho. specialize (K s st Hst). lia.
    + destruct P2 as (prev & pst & Q1 & Q2 & _ & _ & _ & Q6 & _). fold m in Q2.
      rewrite Q6. intros E. specialize (I s prev st pst Hst Q2 E). lia.
  - intros s' f' e' c' Hin'.
    destruct (callback_result oper source schedule s' f' e' _ c' Hin') as (st' & Hst' & E).
    fold m in Hst'. by apply (I s' s st' st).
Qed.

Lemma callbacks_get_a_result_of_their_own_witness :
  given_its_own (play map_chain map_run (boot (items test_items))).
Proof.
  apply (callbacks_get_a_result_of_their_own map_chain (items test_items) map_run).
  reflexivity.
Defined.

(** ** The end of a step *)

Lemma transition_eq oper m a m1 m2 :
  transition oper m a m1 -> m1 = m2 -> transition oper m a m2.
Proof. by intros ? <-. Qed.

Lemma tick_done_callbacks oper m this e s i il rest st :
  stack m = DoneLoop this e s i il :: rest ->
  states m !! s = Some st -> il = length (callbacks this) -> i < il ->
  heap (tick oper m) = heap m ∧ opers (tick oper m) = opers m
  ∧ states (tick oper m) = states m
  ∧ stack (tick oper m) = DoneLoop this e s (S i) il :: rest
  ∧ trace (tick oper m)
    = trace m ++ ((fun f => Callback s f e (result st) (contents (result st) m))
                    <$> take 1 (drop i (callbacks this))).
Proof.
  intros Hk Hst -> Hi. unfold tick. rewrite Hk, Hst, decide_True by done.
  destruct (lookup_lt_is_Some_2 _ _ Hi) as [f Hf]. rewrite Hf.
  rewrite (drop_S _ _ _ Hf). simpl. by rewrite ?take_0.
Qed.

Lemma ticks_done_callbacks oper this e s il rest st j :
  ∀ m i, stack m = DoneLoop this e s i il :: rest ->
    states m !! s = Some st -> il = length (callbacks this) -> i + j <= il ->
    let m' := play oper (replicate j Tick) m in
    heap m' = heap m ∧ opers m' = opers m ∧ states m' = states m
    ∧ stack m' = DoneLoop this e s (i + j) il :: rest
    ∧ trace m'
      = trace m ++ ((fun f => Callback s f e (result st) (contents (result st) m))
                      <$> take j (drop i (callbacks this))).
Proof.
  induction j as [|j IH]; intros m i Hk Hst Hil Hj; simpl.
  - rewrite Nat.add_0_r, ?take_0. simpl. by rewrite app_nil_r.
  - destruct (tick_done_callbacks oper m this e s i il rest st Hk Hst Hil)
      as (H1 & H2 & H3 & H4 & H5); [lia|].
    destruct (IH (tick oper m) (S i) H4) as (I1 & I2 & I3 & I4 & I5);
      [by rewrite H3|done|lia|].
    change (foldl (react oper) (tick oper m) (replicate j Tick))
      with (play oper (replicate j Tick) (tick oper m)).
    rewrite I1, I2, I3, I4, I5, H1, H2, H3, H5.
    replace (S i + j) with (i + S j) by lia.
    do 4 (split; [done|]). rewrite <- app_assoc. f_equal.
    assert (contents (result st) (tick oper m) = contents (result st) m) as ->
      by (unfold contents; by rewrite H1).
    rewrite <- fmap_app. f_equal.
    assert (i < length (callbacks this)) as Hi by lia.
    destruct (lookup_lt_is_Some_2 _ _ Hi) as [f Hf].
    rewrite (drop_S _ _ _ Hf). simpl. by rewrite ?take_0.
Qed.

Lemma machine_eta (m : machine) :
  m = {| heap := heap m; opers := opers m; states := states m; stack := stack m;
         trace := trace m |}.
Proof. by destruct m. Qed.

Lemma done_loop_through oper m this e s il rest st :
  stack m = DoneLoop this e s 0 il :: rest ->
  states m !! s = Some st -> il = length (callbacks this) ->
  play oper (replicate il Tick) m
  = {| heap := heap m; opers := opers m; states := states m;
       stack := DoneLoop this e s il il :: rest;
       trace := trace m ++ callback_events this s e (result st)
                             (contents (result st) m) |}.
Proof.
  intros Hk Hst Hil.
  destruct (ticks_done_callbacks oper this e s il rest st il m 0 Hk Hst Hil)
    as (H1 & H2 & H3 & H4 & H5); [lia|].
  rewrite (machine_eta (play oper (replicate il Tick) m)).
  rewrite H1, H2, H3, H4, H5. simpl. unfold callback_events.
  by rewrite drop_0, take_ge by lia.
Qed.

Lemma completion_calls_back oper m k error data state i st :
  target k m = Some (state, i, st) ->
  done st = false ->
  truthy error = false ->
  length (default [] (written st i data (heap m) !! input st)) <= S (count st) ->
  let fin := finished st VNull (written st i data (heap m)) in
  play oper (Call k error data :: replicate (length (callbacks (step st))) Tick) m
  = {| heap := fin.1; opers := opers m;
       states := <[state := with_result fin.2
                              (with_done true (with_count (S (count st)) st))]> (states m);
       stack := DoneLoop (step st) VNull state (length (callbacks (step st)))
                  (length (callbacks (step st))) :: stack m;
       trace := trace m ++ Called k error data
                  :: callback_events (step st) state VNull fin.2
                       (default [] (fin.1 !! fin.2)) |}.
Proof.
  intros Ht Hd He Hl fin.
  pose proof (target_lookup _ _ _ _ _ Ht) as Hst.
  change (play oper (?a :: ?s) m) with (play oper s (react oper m a)).
  rewrite (react_call_last oper m k error data state i st Ht Hd He Hl).
  fold fin.
  set (st1 := with_result fin.2 (with_done true (with_count (S (count st)) st))).
  set (m1 := {| heap := fin.1; opers := opers m;
                states := <[state := st1]> (states m);
                stack := DoneLoop (step st) VNull state 0 (length (callbacks (step st)))
                           :: stack m;
                trace := trace m ++ [Called k error data] |}).
  assert (states m1 !! state = Some st1) as Hst1.
  { simpl. apply list_lookup_insert_eq. by eapply lookup_lt_Some. }
  rewrite (done_loop_through oper m1 (step st) VNull state _ (stack m) st1 eq_refl Hst1 eq_refl).
  simpl. unfold contents. simpl. by rewrite <- app_assoc.
Qed.

(** X13.  When the continuation that completes a step is called (the
    count reaches the length of the input, no error), the result is
    wrapped and the state latched; the callback loop then calls the
    callbacks of the step in the order of their registration, each with
    a null error and the wrapped result; when it is through, the run
    advances by one and the next step of the chain, if there is one, is
    run over this very result.  After the last step nothing is run. *)
Theorem last_completion_runs_the_next_step oper m k error data state i st os :
  target k m = Some (state, i, st) ->
  done st = false ->
  truthy error = false ->
  length (default [] (written st i data (heap m) !! input st)) <= S (count st) ->
  opers m !! oper_state st = Some os ->
  play oper (Call k error data :: replicate (S (length (callbacks (step st)))) Tick) m
  = match steps oper !! S (index os) with
    | Some next =>
        started next (oper_state st)
          (finished st VNull (written st i data (heap m))).2
          (completed m k error data state i st os)
    | None => completed m k error data state i st os
    end.
Proof.
  intros Ht Hd He Hl Hos.
  pose proof (target_lookup _ _ _ _ _ Ht) as Hst.
  replace (S (length (callbacks (step st)))) with (length (callbacks (step st)) + 1) by lia.
  rewrite replicate_add, app_comm_cons, play_app.
  rewrite (completion_calls_back oper m k error data state i st Ht Hd He Hl).
  simpl play. apply (transition_react oper _ Tick).
  set (st1 := with_result (finished st VNull (written st i data (heap m))).2
                (with_done true (with_count (S (count st)) st))).
  assert (<[state := st1]> (states m) !! state = Some st1) as Hst1.
  { apply list_lookup_insert_eq. by eapply lookup_lt_Some. }
  destruct (steps oper !! S (index os)) as [next|] eqn:Hnext.
  - by eapply transition_eq;
      [eapply (tick_done_next oper _ (step st) VNull state _ _ (stack m) st1 os next)|].
  - by eapply transition_eq;
      [eapply (tick_done_finished oper _ (step st) VNull state _ _ (stack m) st1 os)|].
Qed.

Lemma last_completion_runs_the_next_step_witness :
  let m := play forEach_map_chain forEach_until_last (boot (items test_items)) in
  play forEach_map_chain (Call (Each 0 0) VNull VUndefined :: replicate 2 Tick) m
  = match steps forEach_map_chain !! 1 with
    | Some next =>
        started next 0
          (finished forEach_last_state VNull
             (written forEach_last_state 0 VUndefined (heap m))).2
          (completed m (Each 0 0) VNull VUndefined 0 0 forEach_last_state {| index := 0 |})
    | None => completed m (Each 0 0) VNull VUndefined 0 0 forEach_last_state {| index := 0 |}
    end.
Proof.
  apply (last_completion_runs_the_next_step forEach_map_chain
           (play forEach_map_chain forEach_until_last (boot (items test_items)))
           (Each 0 0) VNull VUndefined 0 0 forEach_last_state {| index := 0 |});
    reflexivity.
Defined.

Lemma written_collected st i data (h : list jsarray) acc :
  h !! result st = Some acc ->
  done st = false ->
  written st i data h = <[result st := collected (prototype (step st)) acc i data]> h.
Proof.
  intros H Hd. unfold written, collected. rewrite H, Hd. simpl.
  destruct (prototype (step st)); [by rewrite list_insert_id|done|].
  destruct (is_true data); [done|by rewrite list_insert_id].
Qed.

(** X14.  When a continuation of a step that is not latched is called
    with an error, the state is latched and the callbacks of the step
    are called in the order of their registration, each with the error
    and a copy of the result container as this last call has left it: a
    map step has stored the value of the failing call at its index, and
    a filter step hands on the indices it has kept so far, in the order
    of their completion, not the elements.  When the loop is through
    the run has not advanced and no step is run. *)
Theorem a_failed_step_hands_on_its_container oper m k error data state i st acc :
  target k m = Some (state, i, st) ->
  done st = false ->
  truthy error = true ->
  heap m !! result st = Some acc ->
  play oper (Call k error data :: replicate (S (length (callbacks (step st)))) Tick) m
  = failed_with m k error data state i st acc.
Proof.
  intros Ht Hd He Hacc.
  pose proof (target_lookup _ _ _ _ _ Ht) as Hst.
  change (play oper (?a :: ?s) m) with (play oper s (react oper m a)).
  rewrite (react_call_error oper m k error data state i st Ht Hd He). cbv zeta.
  rewrite (written_collected st i data (heap m) acc Hacc Hd).
  set (c := collected (prototype (step st)) acc i data).
  assert (<[result st := c]> (heap m) !! result st = Some c) as Hc.
  { apply list_lookup_insert_eq. by eapply lookup_lt_Some. }
  rewrite Hc, length_insert. simpl default.
  set (st1 := with_result (length (heap m)) (with_done true st)).
  set (res := AsyncArray (Some c)).
  set (m1 := {| heap := <[result st := c]> (heap m) ++ [res]; opers := opers m;
                states := <[state := st1]> (states m);
                stack := DoneLoop (step st) error state 0 (length (callbacks (step st)))
                           :: stack m;
                trace := trace m ++ [Called k error data] |}).
  assert (states m1 !! state = Some st1) as Hst1.
  { simpl. apply list_lookup_insert_eq. by eapply lookup_lt_Some. }
  replace (S (length (callbacks (step st)))) with (length (callbacks (step st)) + 1) by lia.
  rewrite replicate_add, play_app.
  rewrite (done_loop_through oper m1 (step st) error state _ (stack m) st1 eq_refl Hst1 eq_refl).
  simpl play. apply (transition_react oper _ Tick).
  eapply transition_eq;
    [eapply (tick_done_halt oper _ (step st) error state _ _ (stack m) st1);
     simpl; try done; lia|].
  unfold failed_with, set_stack. fold c res st1. simpl. f_equal.
  rewrite <- app_assoc. simpl. do 3 f_equal. unfold contents. simpl.
  rewrite lookup_app_r by (rewrite length_insert; lia).
  by rewrite length_insert, Nat.sub_diag.
Qed.

Lemma a_failed_step_hands_on_its_container_witness :
  let m := play filter_chain filter_until_error (boot (items test_items)) in
  play filter_chain (Call (Each 0 2) (VError "stupid") VUndefined :: replicate 2 Tick) m
  = failed_with m (Each 0 2) (VError "stupid") VUndefined 0 2 filter_error_state
      [Some (VNum 3); Some (VNum 0)].
Proof.
  apply (a_failed_step_hands_on_its_container filter_chain
           (play filter_chain filter_until_error (boot (items test_items)))
           (Each 0 2) (VError "stupid") VUndefined 0 2 filter_error_state
           [Some (VNum 3); Some (VNum 0)]);
    reflexivity.
Defined.

(** ** A latched step *)

Lemma target_of_state k m st :
  states m !! cont_state k = Some st -> ∃ i, target k m = Some (cont_state k, i, st).
Proof.
  destruct k as [s|s i]; simpl; intros ->; by eexists.
Qed.

Lemma written_elsewhere st i data (h : list jsarray) r :
  r ≠ result st -> written st i data h !! r = h !! r.
Proof.
  intros Hr. unfold written.
  destruct (prototype (step st)); [done| |destruct (is_true data); [|done]];
    by rewrite list_lookup_insert_ne.
Qed.

(** X15.  Once a step is latched, by its completion or by an error, the
    calls of its continuations that come later call no worker and no
    callback, start no step, and leave the states, the runs and the
    suspended loops as they are.  They write nowhere but into the result
    of the step, where a map and a filter still store what they are
    given; a for-each step writes nothing. *)
Theorem late_completions_call_nothing oper calls :
  ∀ m state st,
    states m !! state = Some st ->
    done st = true ->
    Forall (calls_of state) calls ->
    let m' := play oper calls m in
    states m' = states m ∧ opers m' = opers m ∧ stack m' = stack m
    ∧ trace m' = trace m ++ omap called calls
    ∧ length (heap m') = length (heap m)
    ∧ (∀ r, r ≠ result st -> heap m' !! r = heap m !! r)
    ∧ (prototype (step st) = StepProto -> heap m' = heap m).
Proof.
  induction calls as [|a calls IH]; intros m state st Hst Hd Hc; simpl.
  - rewrite app_nil_r. by repeat split.
  - apply Forall_cons in Hc as [Ha Hc].
    destruct a as [|k error data|]; [done| |done]. simpl in Ha. subst state.
    destruct (target_of_state k m st Hst) as [i Ht].
    change (foldl (react oper) ?x calls) with (play oper calls x).
    rewrite (react_call_late oper m k error data _ i st Ht Hd).
    set (m1 := {| heap := written st i data (heap m); opers := opers m;
                  states := states m; stack := stack m;
                  trace := trace m ++ [Called k error data] |}).
    destruct (IH m1 (cont_state k) st Hst Hd Hc) as (I1 & I2 & I3 & I4 & I5 & I6 & I7).
    rewrite I1, I2, I3, I4, I5. simpl. do 3 (split; [done|]).
    split; [by rewrite <- app_assoc|]. split; [apply written_length|]. split.
    + intros r Hr. rewrite I6 by done. simpl. by apply written_elsewhere.
    + intros Hp. rewrite I7 by done. simpl. unfold written. by rewrite Hp.
Qed.

Lemma late_completions_call_nothing_witness :
  let m := play map_chain map_run (boot (items test_items)) in
  let m' := play map_chain [Call (Each 0 1) VNull (VNum 7); Call (Each 0 1) (VError "late")
                                                             VUndefined] m in
  states m' = states m ∧ opers m' = opers m ∧ stack m' = stack m
  ∧ trace m' = trace m ++ omap called [Call (Each 0 1) VNull (VNum 7);
                                        Call (Each 0 1) (VError "late") VUndefined]
  ∧ length (heap m') = length (heap m)
  ∧ (∀ r, r ≠ result map_done_state -> heap m' !! r = heap m !! r)
  ∧ (prototype (step map_done_state) = StepProto -> heap m' = heap m).
Proof.
  apply (late_completions_call_nothing map_chain
           [Call (Each 0 1) VNull (VNum 7); Call (Each 0 1) (VError "late") VUndefined]
           (play map_chain map_run (boot (items test_items))) 0 map_done_state).
  - reflexivity.
  - reflexivity.
  - repeat constructor.
Defined.

(** ** One step at a time *)

Lemma filter_at_most_one {A} (P : A -> Prop) `{!∀ x, Decision (P x)} (l : list A) :
  (∀ i j x y, l !! i = Some x -> l !! j = Some y -> P x -> P y -> i = j) ->
  length (filter P l) <= 1.
Proof.
  induction l as [|x l IH]; intros Hone; [simpl; lia|].
  rewrite filter_cons. destruct (decide (P x)) as [Hx|Hx].
  - assert (filter P l = []) as ->; [|simpl; lia].
    destruct (filter P l) as [|y t] eqn:E; [done|]. exfalso.
    assert (y ∈ filter P l) as Hy by (rewrite E; left).
    apply list_elem_of_filter in Hy as [Hpy Hy].
    apply list_elem_of_lookup in Hy as [j Hj].
    by specialize (Hone 0 (S j) x y eq_refl Hj Hx Hpy).
  - apply IH. intros i j y z Hi Hj Hy Hz.
    by specialize (Hone (S i) (S j) y z Hi Hj Hy Hz) as [=].
Qed.

(** X16.  A run is in one step at a time: whatever the workers and the
    callbacks do, at most one state of a run is not latched. *)
Theorem one_step_at_a_time oper source schedule run :
  length (unlatched run (play oper schedule (boot source))) <= 1.
Proof.
  destruct (one_place_play oper schedule (boot source)) as [_ [O _ _]];
    [apply wf_boot|apply one_place_boot|].
  apply filter_at_most_one. intros i j x y Hi Hj [Hx1 Hx2] [Hy1 Hy2].
  apply (O i j x y); congruence.
Qed.

(** ** Arrays do not shrink *)

(** X17.  No array of the engine ever gets shorter: the containers the
    steps collect into and the results the callbacks are given can get
    new elements (a result also after it was handed to the callbacks),
    and lose none. *)
Theorem arrays_never_shrink oper schedule :
  ∀ m r, length (contents r m) <= length (contents r (play oper schedule m)).
Proof.
  induction schedule as [|a schedule IH]; intros m r; [done|]. simpl.
  etrans; [|apply IH]. apply (transition_heap_grows oper m a), react_transition.
Qed.

(** ** Two steps in a row *)

Lemma each_loops_tick oper m :
  Forall (fun f => is_done_loop f = false) (stack m) ->
  states (tick oper m) = states m
  ∧ Forall (fun f => is_done_loop f = false) (stack (tick oper m)).
Proof.
  intros Hk. unfold tick. destruct (stack m) as [|[s x arr i len|] rest] eqn:E.
  - by rewrite E.
  - apply Forall_cons in Hk as [_ Hk]. case_decide; [|done].
    simpl. destruct (ahas _ i); simpl; (split; [done|]); by apply Forall_cons.
  - by apply Forall_cons in Hk as [[=] _].
Qed.

Lemma completes_collects oper this arr state elems values order schedule :
  completes this state values order schedule ->
  ∀ acc cnt m,
    collecting this arr state elems acc cnt m ->
    cnt + length order < length elems ->
    (serial this = true -> ∀ j i, order !! j = Some i -> i = cnt + j) ->
    Forall (fun f => is_done_loop f = false) (stack m) ->
    let m' := play oper schedule m in
    collecting this arr state elems
      (foldl (accumulate (prototype this) values) acc order) (cnt + length order) m'
    ∧ length (states m') = length (states m)
    ∧ opers m' = opers m
    ∧ Forall (fun f => is_done_loop f = false) (stack m').
Proof.
  induction 1 as [|order schedule Hc IH|i error order schedule He Hc IH];
    intros acc cnt m Hcol Hlen Hser Hk.
  - simpl. by rewrite Nat.add_0_r.
  - simpl. destruct (each_loops_tick oper m Hk) as [T1 T2].
    destruct (IH acc cnt (tick oper m)) as (I1 & I2 & I3 & I4); try done.
    { by apply collecting_tick. }
    change (foldl (react oper) (tick oper m) schedule)
      with (play oper schedule (tick oper m)).
    rewrite I2, I3, T1. do 2 (split; [done|]). split; [|done].
    pose proof (react_transition oper m Tick) as Ht. simpl in Ht.
    inversion Ht; subst; try done; try congruence;
      match goal with H : stack m = _, H' : Forall _ (stack m) |- _ =>
        rewrite H in H'; by apply Forall_cons in H' as [[=] _] end.
  - change (play oper (?a :: schedule) m) with (play oper schedule (react oper m a)).
    change (foldl ?f acc (i :: order)) with (foldl f (f acc i) order).
    simpl in Hlen.
    assert (serial this = true -> i = cnt) as Hi.
    { intros Hs. rewrite (Hser Hs 0 i eq_refl). lia. }
    pose proof (collecting_call_more oper this arr state elems acc cnt m i error values
                  Hcol He Hi) as Hcol'.
    destruct Hcol as [(st & Hst & E1 & E2 & E3 & E4 & E5 & E6) C2 C3 C4].
    assert (target (cont_of this state i) m = Some (state, i, st)) as Ht.
    { apply target_cont_of; [done|done|]. by rewrite E3. }
    assert (default [] (written st i (values i) (heap m) !! input st) = elems) as Hin.
    { rewrite (written_accumulate _ _ _ _ _ E6 E4), list_lookup_insert_ne by congruence.
      by rewrite E2, C2. }
    pose proof (react_call_more oper m _ error (values i) state i st Ht E4 He) as Hr.
    cbv zeta in Hr. rewrite Hin in Hr. specialize (Hr ltac:(lia)).
    destruct (IH (accumulate (prototype this) values acc i) (S cnt)
                (react oper m (Call (cont_of this state i) error (values i))))
      as (I1 & I2 & I3 & I4).
    + apply Hcol'. lia.
    + lia.
    + intros Hs j x Hx. rewrite (Hser Hs (S j) x Hx). lia.
    + by rewrite Hr.
    + cbv zeta in *.
      replace (cnt + length (i :: order)) with (S cnt + length order) by (simpl; lia).
      split; [exact I1|].
      split; [rewrite I2, Hr; simpl; by rewrite length_insert|].
      split; [by rewrite I3, Hr|exact I4].
Qed.

Lemma finished_outcome st (h : list jsarray) elems acc :
  result st ≠ input st ->
  h !! result st = Some acc -> h !! input st = Some elems ->
  (finished st VNull h).1 !! (finished st VNull h).2
  = Some (outcome (step st) elems acc).
Proof.
  intros Hne Hacc Hin.
  assert (result st < length h) as Hr by (by eapply lookup_lt_Some).
  unfold finished, outcome. rewrite Hacc. simpl.
  destruct (decide (prototype (step st) = FilterProto ∧ serial (step st) = false))
    as [[Hp Hser]|Hn].
  - rewrite decide_True by done. simpl.
    rewrite list_lookup_insert_ne by congruence. rewrite Hin. simpl.
    rewrite lookup_app_r by (rewrite length_insert; lia).
    rewrite length_insert. by replace (S (length h) - length h) with 1 by lia.
  - rewrite decide_False by (intros (? & ? & ?); by apply Hn). simpl.
    by rewrite lookup_snoc.
Qed.

(** X18.  Two steps in a row.  A chain is executed over a source of [n]
    elements; the continuations of the first step are called with
    success, [n] times; the callback loop of the first step turns to its
    end; the continuations of the second step are then called with
    success, once for each element of the result of the first step.
    The second step is latched with what it makes of the result of the
    first: the completion callbacks of the second step are given the
    outcome of the second step over the outcome of the first step over
    the source. *)
Theorem two_steps_compose oper source first second values1 order1 last pre error
    values2 order2 sched2 :
  steps oper !! 0 = Some first ->
  steps oper !! 1 = Some second ->
  array oper = 0 ->
  completes first 0 values1 order1 pre ->
  S (length order1) = length source ->
  (serial first = true -> order1 ++ [last] = seq 0 (length source)) ->
  truthy error = false ->
  let res1 :=
    outcome first source
      (foldl (accumulate (prototype first) values1) [] (order1 ++ [last])) in
  completes second 1 values2 order2 sched2 ->
  length order2 = length res1 ->
  order2 ≠ [] ->
  (serial second = true -> order2 = seq 0 (length order2)) ->
  delivered second 1
    (outcome second res1 (foldl (accumulate (prototype second) values2) [] order2))
    (length res1)
    (play oper
       (Exec [] :: pre ++ Call (cont_of first 0 last) error (values1 last)
          :: replicate (S (length (callbacks first))) Tick ++ sched2)
       (boot source)).
Proof.
  intros H0 H1 Ho Hc1 Hn Hs1 He res1 Hc2 Hl2 Hne2 Hs2.
  set (m0 := (OperState_new (boot source)).2).
  assert (wf oper m0) as Hwf0 by apply wf_OperState_new, wf_boot.
  change (play oper (?a :: ?s) (boot source))
    with (play oper s (react oper (boot source) a)).
  rewrite (exec_runs_the_first_step oper [] (boot source) first H0), Ho.
  change (length (opers (boot source))) with 0. fold m0.
  rewrite Step_run_started, play_app.
  set (ms := started first 0 0 m0).
  assert (wf oper ms) as Hwfs.
  { apply wf_started; [done|by eapply list_elem_of_lookup_2|simpl; lia]. }
  pose proof (collecting_init oper first 0 0 m0 source Hwf0 eq_refl) as Hcol.
  change (length (states m0)) with 0 in Hcol. fold ms in Hcol.
  destruct (completes_collects oper first 0 0 source values1 order1 pre Hc1 [] 0 ms Hcol)
    as (Hcol1 & Hlen1 & Hop1 & _).
  { simpl. lia. }
  { intros Hs j i Hj. specialize (Hs1 Hs).
    assert ((order1 ++ [last]) !! j = Some i) as Hj'
      by (by apply lookup_app_l_Some).
    rewrite Hs1 in Hj'. apply lookup_seq in Hj' as [-> _]. done. }
  { unfold ms. simpl. destruct (serial first); [done|]. by apply Forall_singleton. }
  cbv zeta in *. set (mA := play oper pre ms) in *.
  assert (wf oper mA) as HwfA by (by apply wf_play).
  simpl in Hcol1.
  set (accA := foldl (accumulate (prototype first) values1) [] order1) in *.
  destruct Hcol1 as [(st & Hst & E1 & E2 & E3 & E4 & E5 & E6) C2 C3 C4].
  assert (oper_state st = 0) as Eos.
  { destruct HwfA as [W1 _ _]. eapply Forall_lookup_1 in W1 as [W1 _]; [|done].
    rewrite Hop1 in W1. simpl in W1. lia. }
  assert (serial first = true -> last = count st) as Hlast.
  { intros Hs. specialize (Hs1 Hs).
    assert ((order1 ++ [last]) !! length order1 = Some last) as Hj by apply lookup_snoc.
    rewrite Hs1 in Hj. apply lookup_seq in Hj as [-> _]. simpl. by rewrite E3. }
  assert (target (cont_of first 0 last) mA = Some (0, last, st)) as Ht
    by (by apply target_cont_of).
  assert (written st last (values1 last) (heap mA)
          = <[result st := accumulate (prototype first) values1 accA last]> (heap mA))
    as Hw by (rewrite <- E1; by apply written_accumulate).
  set (acc' := accumulate (prototype first) values1 accA last) in *.
  assert (opers mA !! oper_state st = Some {| index := 0 |}) as Hos
    by (by rewrite Eos, Hop1).
  rewrite app_comm_cons, play_app.
  pose proof (completion_calls_back oper mA _ error (values1 last) 0 last st Ht E4 He)
    as Hback.
  rewrite Hw, list_lookup_insert_ne, E2, C2, E3 in Hback by congruence.
  specialize (Hback ltac:(simpl; lia)). rewrite <- Hw in Hback. cbv zeta in Hback.
  rewrite E1 in Hback.
  replace (S (length (callbacks first))) with (length (callbacks first) + 1) by lia.
  rewrite replicate_add, app_comm_cons, play_app, Hback. simpl play.
  set (st1 := with_result (finished st VNull (written st last (values1 last) (heap mA))).2
                (with_done true (with_count (S (length order1)) st))).
  assert (<[0 := st1]> (states mA) !! 0 = Some st1) as Hst1.
  { apply list_lookup_insert_eq. by eapply lookup_lt_Some. }
  set (mC := completed mA (cont_of first 0 last) error (values1 last) 0 last st
               {| index := 0 |}).
  set (r := (finished st VNull (written st last (values1 last) (heap mA))).2) in *.
  match goal with |- context [tick oper ?M] =>
    assert (tick oper M = Step_run second (oper_state st) r mC) as -> end.
  { rewrite Step_run_started. apply (transition_react oper _ Tick).
    eapply transition_eq;
      [eapply (tick_done_next oper _ first VNull 0 _ _ (stack mA) st1 {| index := 0 |}
                 second); simpl; try done|].
    unfold mC, completed. simpl. by rewrite E1, E3. }
  assert (heap mC !! r = Some res1) as Hres.
  { unfold mC, r, completed. simpl. rewrite Hw.
    rewrite (finished_outcome st _ source acc').
    - unfold res1, accA, acc'. by rewrite foldl_app, E1.
    - congruence.
    - apply list_lookup_insert_eq. by eapply lookup_lt_Some.
    - rewrite list_lookup_insert_ne by congruence. by rewrite E2. }
  assert (contents r mC = res1) as Hcont by (unfold contents; by rewrite Hres).
  assert (length (states mC) = 1) as HlenC.
  { unfold mC, completed. simpl. rewrite length_insert, Hlen1. unfold ms. simpl.
    done. }
  assert (wf oper mC) as HwfC.
  { pose proof (react_call_last oper mA _ error (values1 last) 0 last st Ht E4 He) as Hr.
    cbv zeta in Hr.
    rewrite Hw, list_lookup_insert_ne, E2, C2, E3 in Hr by congruence.
    specialize (Hr ltac:(simpl; lia)). rewrite <- Hw in Hr.
    assert (wf oper (play oper (replicate (length (callbacks (step st))) Tick)
                       (react oper mA (Call (cont_of first 0 last) error (values1 last)))))
      as Hwf2 by (by apply wf_play, wf_react).
    rewrite Hr in Hwf2.
    erewrite done_loop_through in Hwf2; [|done| |done].
    2:{ simpl. apply list_lookup_insert_eq. by eapply lookup_lt_Some. }
    eapply wf_base; [exact Hwf2|..].
    - unfold mC, completed. simpl. by rewrite E3.
    - unfold mC, completed, contents. simpl. by rewrite <- app_assoc.
    - unfold mC, completed. simpl. by rewrite length_insert.
    - unfold mC, completed. simpl. intros f Hf. by right. }
  pose proof (step_completes oper mC second (oper_state st) r values2 order2 sched2 HwfC)
    as Hfin.
  rewrite Hcont, HlenC in Hfin. by apply Hfin.
Qed.

Lemma two_steps_compose_witness :
  delivered map_after_filter 1
    [Some (VStr "did 0"); Some (VStr "did 1"); Some (VStr "did 2")] 3
    (play filter_map_chain
       (Exec [] :: filter_but_one ++ Call (Each 0 0) VNull (VBool true)
          :: replicate 2 Tick ++ map_of_three)
       (boot (items test_items))).
Proof.
  apply (two_steps_compose filter_map_chain (items test_items) filter_step
           map_after_filter non_string [3; 2; 1] 0 filter_but_one VNull did
           [0; 1; 2] map_of_three).
  - reflexivity.
  - reflexivity.
  - reflexivity.
  - repeat constructor.
  - reflexivity.
  - discriminate.
  - reflexivity.
  - repeat constructor.
  - reflexivity.
  - discriminate.
  - discriminate.
Defined.

(** ** The elements the workers are given *)

Lemma given_the_elements_quiet source m m' es :
  given_the_elements source m ->
  trace m' = trace m ++ es ->
  (∀ state st', states m' !! state = Some st' -> input st' = 0 ->
     ((∃ st, states m !! state = Some st ∧ input st = 0)
      ∨ Forall (no_worker state) (trace m))
     ∧ ∀ f item i next, Worker state f item i next ∈ es -> item = aget source i) ->
  given_the_elements source m'.
Proof.
  intros Hinv Ht Hs state st' f item i next Hst' Hin0. rewrite Ht.
  destruct (Hs state st' Hst' Hin0) as [Hold Hes].
  intros [Hin|Hin]%elem_of_app; [|by eapply Hes].
  destruct Hold as [(st & Hst & Hi)|Hno]; [by eapply Hinv|].
  eapply Forall_forall in Hno; [|done]. by simpl in Hno.
Qed.

Lemma given_the_elements_started oper source this os arr m :
  wf oper m -> heap m !! 0 = Some source ->
  given_the_elements source m ->
  given_the_elements source (started this os arr m).
Proof.
  intros Hwf H0 Hinv.
  pose proof (worker_calls_fresh oper m (length (states m)) Hwf (reflexivity _)) as Hf.
  eapply (given_the_elements_quiet source m _
            (if serial this then [Worker (length (states m)) (callback this)
                                    (aget (contents arr m) 0) 0
                                    (Some (Serialfn (length (states m))))] else []));
    [done|..].
  - simpl. destruct (serial this); [done|by rewrite app_nil_r].
  - intros state st' [[Hlt Hst]|[-> <-]]%lookup_snoc_Some Hin0; simpl in *.
    + split; [left; by exists st'|].
      intros f item i next Hin. destruct (serial this); [|by apply elem_of_nil in Hin].
      apply list_elem_of_singleton in Hin. injection Hin as -> _ _ _ _. lia.
    + subst arr. split; [by right|].
      intros f item i next Hin. destruct (serial this); [|by apply elem_of_nil in Hin].
      apply list_elem_of_singleton in Hin. injection Hin as _ -> -> _.
      unfold contents. by rewrite H0.
Qed.

Lemma given_the_elements_transition oper source m a m' :
  wf oper m -> source_kept source m -> dispatch_inv m ->
  given_the_elements source m ->
  transition oper m a m' ->
  given_the_elements source m'.
Proof.
  intros Hwf [H0 Hpos] [_ D] Hinv Ht.
  destruct Ht.
  - done.
  - apply (given_the_elements_started oper); [|done|].
    + by apply wf_OperState_new.
    + intros state st f item i next. apply Hinv.
  - (* call_unknown *)
    eapply (given_the_elements_quiet source m _ [_]); [done|done|].
    intros x y Hy Hy0. split; [left; by exists y|].
    intros ???? [=]%list_elem_of_singleton.
  - (* call_late *)
    eapply (given_the_elements_quiet source m _ [_]); [done|done|].
    intros x y Hy Hy0. split; [left; by exists y|].
    intros ???? [=]%list_elem_of_singleton.
  - (* call_error *)
    pose proof (target_lookup _ _ _ _ _ H) as Hst.
    eapply (given_the_elements_quiet source m _ [_]); [done|done|]. simpl.
    intros x y Hy Hy0. split.
    + left. destruct (states_insert_same m state st _ x y Hst Hy) as (z & Hz & _ & Hzi);
        [done|done|]. exists z. split; [done|congruence].
    + intros ???? [=]%list_elem_of_singleton.
  - (* call_more *)
    pose proof (target_lookup _ _ _ _ _ H) as Hst.
    eapply (given_the_elements_quiet source m _ (_ :: _)); [done|done|]. simpl.
    intros x y Hy Hy0. split.
    + left. destruct (states_insert_same m state st _ x y Hst Hy) as (z & Hz & _ & Hzi);
        [done|done|]. exists z. split; [done|congruence].
    + intros f item j next [[=]|Hin]%elem_of_cons.
      destruct (serial (step st)); [|by apply elem_of_nil in Hin].
      apply list_elem_of_singleton in Hin. injection Hin as -> _ -> -> _.
      rewrite list_lookup_insert_eq in Hy by (by eapply lookup_lt_Some).
      injection Hy as <-. simpl in Hy0. subst array0 h. rewrite Hy0.
      rewrite (written_source source) by (by (done || eapply Hpos)). done.
  - (* call_last *)
    pose proof (target_lookup _ _ _ _ _ H) as Hst.
    eapply (given_the_elements_quiet source m _ [_]); [done|done|]. simpl.
    intros x y Hy Hy0. split.
    + left. destruct (states_insert_same m state st _ x y Hst Hy) as (z & Hz & _ & Hzi);
        [done|done|]. exists z. split; [done|congruence].
    + intros ???? [=]%list_elem_of_singleton.
  - done.
  - (* tick_each_visit *)
    eapply (given_the_elements_quiet source m _ [_]); [done|done|]. simpl.
    intros x y Hy Hy0. split; [left; by exists y|].
    intros f item j next [= -> -> -> -> ->]%list_elem_of_singleton.
    destruct Hwf as [_ W2 _]. rewrite H in W2.
    apply Forall_cons in W2 as [(z & Hz & Hzs & Hser) _].
    assert (z = y) as -> by congruence.
    destruct (D state y Hy) as [_ _ _ D4]; [by rewrite Hzs|].
    destruct (D4 s array0 i len) as (-> & _); [rewrite H; by left|].
    rewrite Hy0 in H2. unfold contents in H2. rewrite H0 in H2. simpl in H2.
    unfold aget. by rewrite H2.
  - intros state0 st f item j next. apply Hinv.
  - intros state0 st f item j next. apply Hinv.
  - intros state0 st f item j next. apply Hinv.
  - (* tick_done_callback *)
    eapply (given_the_elements_quiet source m _ [_]); [done|done|]. simpl.
    intros x y Hy Hy0. split; [left; by exists y|].
    intros ???? [=]%list_elem_of_singleton.
  - intros state0 st0 f item j next. apply Hinv.
  - intros state0 st0 f item j next. apply Hinv.
  - intros state0 st0 f item j next. apply Hinv.
  - intros state0 st0 f item j next. apply Hinv.
  - (* tick_done_next *)
    apply (given_the_elements_started oper); [|done|].
    + eapply wf_base; [done|done|done| |]; simpl.
      * by rewrite length_insert.
      * intros g Hg. rewrite H. by right.
    + intros state0 st0 f item j k. apply Hinv.
Qed.

(** X19.  A step that runs over the source array hands its worker the
    elements of the source: whatever the workers do with their
    continuations, every call of the worker for an index [i], parallel
    or serial, is given the element the source holds at [i]. *)
Theorem workers_get_the_elements_of_the_source oper source s :
  given_the_elements source (play oper s (boot source)).
Proof.
  induction s as [|a s IH] using rev_ind.
  - intros state st f item i next [=].
  - rewrite play_snoc.
    eapply (given_the_elements_transition oper source (play oper s (boot source)) a);
      [| | |done|apply react_transition].
    + apply wf_play, wf_boot.
    + apply source_kept_play, source_kept_boot.
    + apply dispatch_inv_play.
Qed.

(** ** What a continuation reads of its arguments *)

Lemma written_alike st i (h : list jsarray) error1 data1 error2 data2 :
  alike (prototype (step st)) error1 data1 error2 data2 ->
  written st i data1 h = written st i data2 h.
Proof.
  intros (_ & _ & H). unfold written.
  destruct (prototype (step st)); [done|by rewrite H|by rewrite H].
Qed.

(** X20.  What a continuation reads of its arguments.  A falsy first
    argument ([undefined], [null], [false], [0], the empty string) is no
    error, whichever it is; a for-each step does not look at the second
    argument, and a filter step only at whether it is the boolean
    [true].  Two calls that are alike in this leave the engine in the
    same state and make it call the same workers and callbacks. *)
Theorem a_falsy_error_is_no_error oper m k state i st error1 data1 error2 data2 :
  target k m = Some (state, i, st) ->
  alike (prototype (step st)) error1 data1 error2 data2 ->
  unrecorded (react oper m (Call k error1 data1))
  = unrecorded (react oper m (Call k error2 data2)).
Proof.
  intros Ht Ha. pose proof Ha as (He1 & He2 & _).
  pose proof (written_alike st i (heap m) _ _ _ _ Ha) as Hw.
  destruct (done st) eqn:Hd.
  - rewrite !(react_call_late oper m k _ _ state i st Ht Hd), Hw.
    unfold unrecorded. simpl. f_equal. by rewrite !omap_app.
  - destruct (decide (S (count st)
                      < length (default [] (written st i data1 (heap m) !! input st))))
      as [Hl|Hl].
    + rewrite (react_call_more oper m k error1 data1 state i st Ht Hd He1 Hl).
      rewrite Hw in Hl.
      rewrite (react_call_more oper m k error2 data2 state i st Ht Hd He2 Hl), Hw.
      unfold unrecorded. simpl. f_equal. by rewrite !omap_app.
    + assert (length (default [] (written st i data1 (heap m) !! input st))
              <= S (count st)) as Hl' by lia.
      rewrite (react_call_last oper m k error1 data1 state i st Ht Hd He1 Hl').
      rewrite Hw in Hl'.
      rewrite (react_call_last oper m k error2 data2 state i st Ht Hd He2 Hl'), Hw.
      unfold unrecorded. simpl. f_equal. by rewrite !omap_app.
Qed.

Lemma a_falsy_error_is_no_error_witness :
  let m := play filter_chain filter_until_error (boot (items test_items)) in
  unrecorded (react filter_chain m (Call (Each 0 2) VUndefined VUndefined))
  = unrecorded (react filter_chain m (Call (Each 0 2) (VNum 0) (VNum 1))).
Proof.
  apply (a_falsy_error_is_no_error filter_chain
           (play filter_chain filter_until_error (boot (items test_items)))
           (Each 0 2) 0 2 filter_error_state VUndefined VUndefined (VNum 0) (VNum 1)).
  - reflexivity.
  - repeat split.
Defined.

(** ** A serial step *)

(** X21.  Whatever the workers do with the continuation, a serial step
    over an input that is not empty calls its worker for the indices 0,
    1, 2, ... in this order and for no index at or past the length of the
    input; at no time has the worker been called more than once more
    than the continuation, so that at most one element is in flight; and
    the worker is called for the index [i + 1] only after the
    continuation has been called [i + 1] times. *)
Theorem serial_steps_call_in_turn oper source schedule state st :
  states (play oper schedule (boot source)) !! state = Some st ->
  serial (step st) = true ->
  contents (input st) (play oper schedule (boot source)) ≠ [] ->
  called_in_turn (play oper schedule (boot source)) state st.
Proof.
  intros Hst Hser Hne. set (m := play oper schedule (boot source)) in *.
  assert (serial_ok m state st) as [S1 S2 S3 S4 S5 S6].
  { apply (serial_inv_play oper schedule (boot source));
      [apply wf_boot|apply serial_inv_boot|done|done]. }
  split; [done|]. split.
  { destruct (contents (input st) m); [done|]. simpl in *. lia. }
  split; [done|].
  intros p f item i next Hp.
  pose proof (worker_calls_prefix state _ _ Hp) as Hw.
  rewrite S1 in Hw. apply prefix_seq in Hw.
  rewrite worker_calls_app in Hw. simpl in Hw. rewrite decide_True in Hw by done.
  rewrite length_app in Hw. simpl in Hw.
  replace (length (worker_calls state p) + 1) with (S (length (worker_calls state p)))
    in Hw by lia.
  rewrite seq_S in Hw. apply app_inj_tail in Hw as [Hw1 Hw2]. simpl in Hw2.
  split; [congruence|].
  specialize (S5 _ Hp). rewrite worker_calls_app, completions_app, length_app in S5.
  simpl in S5. rewrite decide_True in S5 by done. simpl in S5.
  unfold completions at 2 in S5. simpl in S5. lia.
Qed.

Lemma serial_steps_call_in_turn_witness :
  called_in_turn
    (play filterSerial_chain (Exec [] :: keep_non_strings) (boot (items test_items)))
    0 filterSerial_state.
Proof.
  apply (serial_steps_call_in_turn filterSerial_chain (items test_items)
           (Exec [] :: keep_non_strings) 0 filterSerial_state);
    [reflexivity|reflexivity|vm_compute; discriminate].
Defined.

Lemma input_is_no_result oper source schedule state st :
  array oper = 0 ->
  states (play oper schedule (boot source)) !! state = Some st ->
  input st ≠ result st.
Proof.
  intros Ho Hst. set (m := play oper schedule (boot source)) in *.
  destruct (chain_inv_play oper source schedule state st Hst) as (k & [_ Hk] & _).
  pose proof (results_apart_play oper source schedule) as [_ Hinj].
  destruct k as [|j].
  - rewrite Hk, Ho.
    pose proof (source_kept_play oper source schedule (boot source)
                  (source_kept_boot source)) as [_ Hpos].
    specialize (Hpos state st Hst). lia.
  - destruct Hk as (prev & pst & Hlt & Hprev & _ & _ & _ & Hin & _).
    rewrite Hin. intros E. specialize (Hinj prev state pst st Hprev Hst E). lia.
Qed.

(** X22.  When the continuation of a serial step that is not latched is
    called with no error and an element is left, the step goes on at
    once: the count is one more, and the worker is called for the next
    index, with the element at that index and the continuation of the
    state.  No loop is suspended or resumed. *)
Theorem a_serial_step_goes_on oper source schedule k error data state i st :
  array oper = 0 ->
  target k (play oper schedule (boot source)) = Some (state, i, st) ->
  serial (step st) = true ->
  done st = false ->
  truthy error = false ->
  S (count st) < length (contents (input st) (play oper schedule (boot source))) ->
  let m := play oper schedule (boot source) in
  let m' := react oper m (Call k error data) in
  trace m' = trace m ++ [Called k error data;
                         Worker state (callback (step st))
                           (aget (contents (input st) m) (S (count st)))
                           (S (count st)) (serialfn st)]
  ∧ states m' = <[state := with_count (S (count st)) st]> (states m)
  ∧ stack m' = stack m.
Proof.
  intros Ho Ht Hser Hd He Hl m m'. subst m'.
  pose proof (target_lookup _ _ _ _ _ Ht) as Hst.
  pose proof (input_is_no_result oper source schedule state st Ho Hst) as Hne.
  assert (default [] (written st i data (heap m) !! input st) = contents (input st) m)
    as Hin by (unfold contents; by rewrite written_elsewhere).
  rewrite (react_call_more oper m k error data state i st Ht Hd He)
    by (by rewrite Hin).
  simpl. by rewrite Hser, Hin.
Qed.

Lemma a_serial_step_goes_on_witness :
  let m := play filterSerial_chain [Exec []] (boot (items test_items)) in
  let m' := react filterSerial_chain m (Call (Serialfn 0) VNull (VBool true)) in
  trace m' = trace m ++ [Called (Serialfn 0) VNull (VBool true);
                         Worker 0 "worker" (VNum 2) 1 (Some (Serialfn 0))]
  ∧ states m' = <[0 := with_count 1 filterSerial_started]> (states m)
  ∧ stack m' = stack m.
Proof.
  apply (a_serial_step_goes_on filterSerial_chain (items test_items) [Exec []]
           (Serialfn 0) VNull (VBool true) 0 0 filterSerial_started);
    [reflexivity|reflexivity|reflexivity|reflexivity|reflexivity|vm_compute; lia].
Defined.
(** ** Every run is a run alone

    The run [r] of a machine [m] is followed in a machine [m'] that runs
    nothing else: what happens to [m] on behalf of the run happens to
    [m'] too, under the names the run has alone, and what happens on
    behalf of another run leaves [m'] as it is.  [alone r ρ m' m] is kept
    by every reaction of the engine. *)

Section Rank.

Context {A : Type} (P : A -> Prop) `{!∀ x, Decision (P x)}.






End Rank.



(** *** The arrays *)

















(** *** What user code has seen, and the suspended loops *)







(** *** The states *)







(** *** A step that is run *)





Section Alone.

Variable oper : Operation.
Variable r : nat.



End Alone.









Section Calls.

Variable oper : Operation.
Variable r : nat.


End Calls.


Section CallsOwned.

Variable oper : Operation.
Variable r : nat.


End CallsOwned.

Section Ticks.

Variable oper : Operation.
Variable r : nat.



End Ticks.

Lemma rank_same r m m' s : states m' = states m -> rank r m' s = rank r m s.
Proof. intros H. unfold rank. by rewrite H. Qed.






Section Tick.

Variable oper : Operation.
Variable r : nat.


End Tick.

Section Step.

Variable oper : Operation.
Variable r : nat.
Hypothesis oper_source : array oper = 0.





End Step.




